(** * junior.guru: Memberful ingestion client and subscription ledger

    A shallow embedding of [juniorguru/lib/memberful.py] (the paginated,
    cached, deduplicating GraphQL client and the CSV export client) and of
    [juniorguru/models/subscription.py] (the subscription activity ledger),
    followed by the properties proved about them. *)

From Stdlib Require Import ZArith String List Lia.
From Stdlib Require Import PrimFloat FloatOps Uint63 SpecFloat.
From Stdlib Require DecimalString DecimalZ DecimalPos.
From stdpp Require Import base option list gmap sets strings.

Local Open Scope Z_scope.
Local Open Scope string_scope.

(* ===================================================================== *)
(** * Python: exceptions and a state-and-exception monad                 *)
(* ===================================================================== *)

Module Python.

(** The three [assert] statements of [get_nodes], with the numbers their
    messages print. *)
Inductive Assertion :=
  | DifferentTotalCount (count declared_count : Z)
  | DuplicateNodes (duplicates_count : Z)
  | WrongNodesCount (nodes_count : Z) (declared_count : option Z).

Inductive Exception :=
  | ValueError (msg : string)
  | AssertionError (a : Assertion)
  | KeyError (key : string)
  | TypeError (msg : string)
  | IndexError
  | HTTPError (status_code : Z)
  | RequestException (msg : string)
  | DownloadError (msg : string)
  | OverflowError (msg : string).

(** What running a piece of code gives: a value, an exception, or no answer
    within the number of loop iterations allowed. *)
Inductive Outcome (A : Type) :=
  | Return (a : A)
  | Raise (e : Exception)
  | Diverge.
Arguments Return {A} a.
Arguments Raise {A} e.
Arguments Diverge {A}.

Definition M (S A : Type) : Type := S -> Outcome A * S.

Definition ret {S A} (a : A) : M S A := fun s => (Return a, s).
Definition raise {S A} (e : Exception) : M S A := fun s => (Raise e, s).
Definition diverge {S A} : M S A := fun s => (Diverge, s).
Definition bind {S A B} (c : M S A) (k : A -> M S B) : M S B :=
  fun s =>
    match c s with
    | (Return a, s') => k a s'
    | (Raise e, s') => (Raise e, s')
    | (Diverge, s') => (Diverge, s')
    end.
Definition gets {S A} (f : S -> A) : M S A := fun s => (Return (f s), s).
Definition modify {S} (f : S -> S) : M S unit := fun s => (Return tt, f s).

(** [if c: body] for a body run for its effects. *)
Definition when {S} (c : bool) (body : M S unit) : M S unit :=
  if c then body else ret tt.

(** [assert c, msg] *)
Definition assert {S} (c : bool) (msg : Assertion) : M S unit :=
  if c then ret tt else raise (AssertionError msg).

(** [try: c  except <caught> as e: handler(e)] *)
Definition try_except {S A} (c : M S A) (caught : Exception -> bool)
    (handler : Exception -> M S A) : M S A :=
  fun s =>
    match c s with
    | (Raise e, s') => if caught e then handler e s' else (Raise e, s')
    | r => r
    end.

(** [range(lo, hi)] *)
Definition range (lo hi : nat) : list nat := seq lo (hi - lo).

#[global] Instance M_ret {S} : MRet (M S) := @ret S.
#[global] Instance M_bind {S} : MBind (M S) := fun A B k c => bind c k.

End Python.

(* ===================================================================== *)
(** * juniorguru/lib/memberful.py                                        *)
(* ===================================================================== *)

Module Memberful.
Import Python.

Definition DOWNLOAD_POLLING_WAIT_SEC : Z := 5.

(** ** GraphQL payloads

    A response is a dict of collections,
    [{name: {totalCount, pageInfo: {hasNextPage, endCursor}, edges: [{node}]}}].
    A node is a dict; its [id], of GraphQL's ID type, is a string in JSON and
    may be missing or null. *)

Record Node := { id : option string; fields : list (string * string) }.
Record Edge := { node : Node }.
Record PageInfo := { hasNextPage : bool; endCursor : option string }.
Record Collection :=
  { totalCount : Z; pageInfo : PageInfo; edges : list Edge }.

Abbreviation Result := (gmap string Collection).
Abbreviation VariableValues := (gmap string string).

(** ** diskcache.Cache

    A cache maps a key to a value stored under a tag. [Cache] defines
    [__len__] and no [__bool__], so the truth value Python gives a cache
    object is [len(cache) != 0]; [None] is false. *)

Abbreviation Cache V := (gmap string (V * string)).

Definition cache_len {V} (c : Cache V) : nat := size c.

Definition truthy {V} (c : option (Cache V)) : bool :=
  match c with
  | None => false
  | Some c => negb (Nat.eqb (cache_len c) 0)
  end.

(** [cache.evict(tag)] removes every entry stored under [tag]. *)
Definition evict {V} (tag : string) (c : Cache V) : Cache V :=
  filter (fun kv => snd (snd kv) <> tag) c.

(** [cache.set(key, value, tag=tag)] *)
Definition cache_set {V} (key : string) (value : V) (tag : string)
    (c : Cache V) : Cache V :=
  <[key := (value, tag)]> c.

(** [cache[key]], [None] standing for [KeyError]. *)
Definition cache_getitem {V} (key : string) (c : Cache V) : option V :=
  fst <$> c !! key.

(** ** What a run does that can be seen from outside *)

Inductive Event :=
  | SendingQuery (cursor : string)
      (* logger.debug("Sending a query with cursor ...") *)
  | CacheEvict (tag : string)
  | CacheHit (key : string) (result : Result)
  | CacheMiss (key : string)
  | Executed (query : string) (variable_values : VariableValues)
      (response : Exception + Result)
      (* self.client.execute(...): one call over the network *)
  | CacheSet (key : string) (result : Result) (tag : string)
  | Yield (node : Node).

(** The transport answers a request; its answer may depend on what
    happened before. *)
Definition Transport : Type :=
  list Event -> string -> VariableValues -> Exception + Result.

Record MemberfulAPI :=
  { cache : option (Cache Result);
    clear_cache : bool;
    client : Transport }.

Record World := { self : MemberfulAPI; trace : list Event }.

Definition emit (e : Event) : M World unit :=
  modify (fun w => {| self := self w; trace := trace w ++ [e] |}).

Definition set_cache (c : option (Cache Result)) : M World unit :=
  modify (fun w =>
    {| self := {| cache := c;
                  clear_cache := clear_cache (self w);
                  client := client (self w) |};
       trace := trace w |}).

Definition set_clear_cache (b : bool) : M World unit :=
  modify (fun w =>
    {| self := {| cache := cache (self w);
                  clear_cache := b;
                  client := client (self w) |};
       trace := trace w |}).

Section API.

(** [hashlib.sha256(json.dumps(data).encode()).hexdigest()], on a node and
    on the dict [dict(query=query, variable_values=variable_values)]. *)
Variable hash_data : Node -> string.
Variable hash_data_request : string -> VariableValues -> string.

(** [COLLECTION_NAME_RE.search(query)], giving the group
    [collection_name] of the first match. *)
Variable COLLECTION_NAME_RE_search : string -> option string.

Definition cache_tag : string := "memberfulapi".

(** [self.client.execute(gql(query), variable_values=variable_values)] *)
Definition client_execute (query : string) (variable_values : VariableValues)
    : M World Result :=
  fun w =>
    let response := client (self w) (trace w) query variable_values in
    let w' := {| self := self w;
                 trace := trace w ++ [Executed query variable_values response] |} in
    match response with
    | inl e => (Raise e, w')
    | inr result => (Return result, w')
    end.

(** [mutate]: the mutation goes to the client, past the cache. *)
Definition mutate (mutation : string) (variable_values : VariableValues)
    : M World Result :=
  client_execute mutation variable_values.

(** The [try: result = self.cache[cache_key] ... except KeyError: pass]
    block: [Some result] when the method returns from inside it. *)
Definition cache_lookup (cache_key : string) : M World (option Result) :=
  c ← gets (fun w => cache (self w));
  match c ≫= cache_getitem cache_key with
  | Some result => emit (CacheHit cache_key result);; ret (Some result)
  | None => emit (CacheMiss cache_key);; ret None
  end.

(** The first [if self.cache:] block: the pending clear, then the lookup.
    [Some result] when the method returns from inside it. *)
Definition load_from_cache (cache_key : string) : M World (option Result) :=
  has_cache ← gets (fun w => truthy (cache (self w)));
  if (has_cache : bool) then
    clear ← gets (fun w => clear_cache (self w));
    when clear
      (c ← gets (fun w => cache (self w));
       emit (CacheEvict cache_tag);;
       set_cache (evict cache_tag <$> c);;
       set_clear_cache false);;
    cache_lookup cache_key
  else ret None.

(** The second [if self.cache:] block. *)
Definition save_to_cache (cache_key : string) (result : Result) : M World unit :=
  has_cache ← gets (fun w => truthy (cache (self w)));
  when has_cache
    (c ← gets (fun w => cache (self w));
     emit (CacheSet cache_key result cache_tag);;
     set_cache (cache_set cache_key result cache_tag <$> c)).

Definition _execute_query (query : string) (variable_values : VariableValues)
    : M World Result :=
  let cache_key := hash_data_request query variable_values in
  cached ← load_from_cache cache_key;
  match cached with
  | Some result => ret result
  | None =>
      result ← client_execute query variable_values;
      save_to_cache cache_key result;;
      ret result
  end.

(** [dict(cursor=cursor, **variable_values)]: a binding of [cursor] among
    the variable values is a [TypeError]. *)
Definition dict_cursor (cursor : string) (variable_values : VariableValues)
    : M World VariableValues :=
  match variable_values !! "cursor" with
  | Some _ => raise (TypeError "dict() got multiple values for keyword argument 'cursor'")
  | None => ret (<["cursor" := cursor]> variable_values)
  end.

(** The loop [while cursor is not None] of the generator [_query], consumed
    by a [for] loop whose body is [body]: each [yield result] runs the body
    once, on the local variables [acc] of the consumer. [cursor] is the
    local variable of that name and [fuel] bounds the iterations. The
    counter [n] of the source is never read and is left out. *)
Fixpoint _query_while {A} (fuel : nat) (query : string)
    (get_page_info : Result -> M World PageInfo)
    (variable_values : VariableValues)
    (body : Result -> A -> M World A)
    (cursor : option string) (acc : A) {struct fuel} : M World A :=
  match cursor with
  | None => ret acc
  | Some c =>
      match fuel with
      | O => diverge
      | S fuel' =>
          emit (SendingQuery c);;
          vv ← dict_cursor c variable_values;
          result ← _execute_query query vv;
          acc' ← body result acc;
          page_info ← get_page_info result;
          _query_while fuel' query get_page_info variable_values body
            (if hasNextPage page_info then endCursor page_info else None)
            acc'
      end
  end.

(** [_query]: [variable_values or {}], then [cursor = ""], then the loop. *)
Definition _query {A} (fuel : nat) (query : string)
    (get_page_info : Result -> M World PageInfo)
    (variable_values : option VariableValues)
    (body : Result -> A -> M World A) (acc : A) : M World A :=
  _query_while fuel query get_page_info (default ∅ variable_values) body
    (Some "") acc.

(** [result[collection_name]] *)
Definition getitem (result : Result) (collection_name : string)
    : M World Collection :=
  match result !! collection_name with
  | Some c => ret c
  | None => raise (KeyError collection_name)
  end.

(** [node.get("id") or hash_data(node)]: an empty id is false in Python and
    gives way to the hash, as a missing or null one does. *)
Definition node_identity (n : Node) : string :=
  match id n with
  | Some i => if String.eqb i "" then hash_data n else i
  | None => hash_data n
  end.

(** The local variables of [get_nodes]. *)
Record Locals :=
  { declared_count : option Z;
    nodes_count : Z;
    duplicates_count : Z;
    seen_node_ids : gset string }.

Definition initial : Locals :=
  {| declared_count := None; nodes_count := 0; duplicates_count := 0;
     seen_node_ids := ∅ |}.

(** The body of [for edge in result[collection_name]["edges"]]. *)
Definition visit_edge (l : Locals) (edge : Edge) : M World Locals :=
  let n := node edge in
  let node_id := node_identity n in
  if decide (node_id ∈ seen_node_ids l) then
    ret {| declared_count := declared_count l;
           nodes_count := nodes_count l + 1;
           duplicates_count := duplicates_count l + 1;
           seen_node_ids := seen_node_ids l |}
  else
    emit (Yield n);;
    ret {| declared_count := declared_count l;
           nodes_count := nodes_count l + 1;
           duplicates_count := duplicates_count l;
           seen_node_ids := {[node_id]} ∪ seen_node_ids l |}.

Fixpoint visit_edges (es : list Edge) (l : Locals) : M World Locals :=
  match es with
  | [] => ret l
  | e :: es' => l' ← visit_edge l e; visit_edges es' l'
  end.

(** The body of [for result in self._query(...)]. *)
Definition visit_result (collection_name : string) (result : Result)
    (l : Locals) : M World Locals :=
  coll ← getitem result collection_name;
  let count := totalCount coll in
  let declared :=
    match declared_count l with None => count | Some d => d end in
  assert (Z.eqb declared count) (DifferentTotalCount count declared);;
  visit_edges (edges coll)
    {| declared_count := Some declared;
       nodes_count := nodes_count l;
       duplicates_count := duplicates_count l;
       seen_node_ids := seen_node_ids l |}.

(** [get_nodes] up to the end of its [for] loop over the pages. *)
Definition get_nodes_pages (fuel : nat) (collection_name query : string)
    (variable_values : option VariableValues) : M World Locals :=
  _query fuel query
    (fun result => coll ← getitem result collection_name; ret (pageInfo coll))
    variable_values
    (visit_result collection_name)
    initial.

(** The two [assert] statements after the loop. *)
Definition final_checks (l : Locals) : M World unit :=
  assert (Z.eqb (duplicates_count l) 0) (DuplicateNodes (duplicates_count l));;
  assert (bool_decide (declared_count l = Some (nodes_count l)))
    (WrongNodesCount (nodes_count l) (declared_count l)).

Definition get_nodes (fuel : nat) (query : string)
    (variable_values : option VariableValues) : M World unit :=
  match COLLECTION_NAME_RE_search query with
  | None => raise (ValueError "Could not parse collection name")
  | Some collection_name =>
      l ← get_nodes_pages fuel collection_name query variable_values;
      final_checks l
  end.

End API.

(** What a run has yielded, sent and received, read off its trace. *)
Definition yielded (t : list Event) : list Node :=
  omap (fun e => match e with Yield n => Some n | _ => None end) t.

Definition cursors_sent (t : list Event) : list string :=
  omap (fun e => match e with SendingQuery c => Some c | _ => None end) t.

Definition results_received (t : list Event) : list Result :=
  omap (fun e =>
          match e with
          | CacheHit _ r | Executed _ _ (inr r) => Some r
          | _ => None
          end) t.

(** The requests that went over the network. *)
Definition executed (t : list Event) : list (string * VariableValues) :=
  omap (fun e => match e with Executed q vv _ => Some (q, vv) | _ => None end) t.

Definition network_calls (t : list Event) : nat := length (executed t).

(* --------------------------------------------------------------------- *)
(** ** class MemberfulCSV                                                *)
(* --------------------------------------------------------------------- *)

Module CSV.

(** A [requests.Response]: the status, the [Location] header if any, and
    the body as text. *)
Record Response :=
  { status_code : Z; location : option string; content : string }.

Inductive Method := GET | POST.

Inductive Event :=
  | CacheEvict (tag : string)
  | CacheHit (key : string) (data : string)
  | CacheMiss (key : string)
  | CacheSet (key : string) (data : string) (tag : string)
  | Requested (method : Method) (url : string) (response : Exception + Response)
      (* session.get(url) or session.post(url, ...): one call over the network *)
  | Slept (seconds : Z)
      (* time.sleep(seconds) *)
  | Debug (e : Exception).
      (* logger.debug(str(e)) *)

(** The web site answers a request, or the request fails on the way; the
    answer may depend on what happened before. *)
Definition Web : Type :=
  list Event -> Method -> string -> Exception + Response.

(** A [requests.Session]; any session object is true in Python. *)
Record Session := { user_agent : string }.

Record MemberfulCSV :=
  { cache : option (Cache string);
    clear_cache : bool;
    email : string;
    password : string;
    _session : option Session;
    _csrf_token : option string;
    web : Web }.

Record World := { self : MemberfulCSV; trace : list Event }.

Definition emit (e : Event) : M World unit :=
  modify (fun w => {| self := self w; trace := trace w ++ [e] |}).

Definition set_cache (c : option (Cache string)) : M World unit :=
  modify (fun w =>
    {| self := {| cache := c;
                  clear_cache := clear_cache (self w);
                  email := email (self w);
                  password := password (self w);
                  _session := _session (self w);
                  _csrf_token := _csrf_token (self w);
                  web := web (self w) |};
       trace := trace w |}).

Definition set_clear_cache (b : bool) : M World unit :=
  modify (fun w =>
    {| self := {| cache := cache (self w);
                  clear_cache := b;
                  email := email (self w);
                  password := password (self w);
                  _session := _session (self w);
                  _csrf_token := _csrf_token (self w);
                  web := web (self w) |};
       trace := trace w |}).

(** [self._session, self._csrf_token = ...] *)
Definition set_auth (a : Session * option string) : M World unit :=
  modify (fun w =>
    {| self := {| cache := cache (self w);
                  clear_cache := clear_cache (self w);
                  email := email (self w);
                  password := password (self w);
                  _session := Some (fst a);
                  _csrf_token := snd a;
                  web := web (self w) |};
       trace := trace w |}).

(** [session.get(url)] and [session.post(url, ...)] *)
Definition request (method : Method) (url : string) : M World Response :=
  fun w =>
    let response := web (self w) (trace w) method url in
    let w' := {| self := self w;
                 trace := trace w ++ [Requested method url response] |} in
    match response with
    | inl e => (Raise e, w')
    | inr r => (Return r, w')
    end.

(** [response.raise_for_status()] of requests: an [HTTPError] for a status
    from 400 to 599, nothing otherwise. *)
Definition raise_for_status (response : Response) : M World unit :=
  if ((400 <=? status_code response) && (status_code response <? 600))%Z
  then raise (HTTPError (status_code response))
  else ret tt.

Definition is_HTTPError (e : Exception) : bool :=
  match e with HTTPError _ => true | _ => false end.

Section CSV.

Variable hash_data_url : string -> string.
    (* hash_data(dict(url=url)) *)
Variable urlencode : list (string * string) -> string.
Variable splitlines : string -> list string.

(** The sign-in page read with lxml: the action of its first form, made
    absolute, with the e-mail and password fields filled in; and the
    content of the [csrf-token] meta element of a page. Either may fail. *)
Variable sign_in_form_action : string -> string -> string -> Exception + string.
Variable csrf_token_meta : string -> Exception + option string.

Definition cache_tag : string := "memberfulcsv".

Definition lift_result {A} (r : Exception + A) : M World A :=
  match r with inl e => raise e | inr a => ret a end.

Definition _auth : M World (Session * option string) :=
  let session := {| user_agent := "JuniorGuruBot (+https://junior.guru)" |} in
  response ← request GET "https://juniorguru.memberful.com/admin/auth/sign_in";
  raise_for_status response;;
  em ← gets (fun w => email (self w));
  pw ← gets (fun w => password (self w));
  action ← lift_result (sign_in_form_action (content response) em pw);
  response ← request POST action;
  raise_for_status response;;
  csrf_token ← lift_result (csrf_token_meta (content response));
  ret (session, csrf_token).

(** The property [session]. *)
Definition session : M World Session :=
  s ← gets (fun w => _session (self w));
  match s with
  | Some s => ret s
  | None =>
      a ← _auth;
      set_auth a;;
      ret (fst a)
  end.

(** The property [csrf_token]; [None] and the empty string are false. *)
Definition csrf_token : M World (option string) :=
  t ← gets (fun w => _csrf_token (self w));
  match t with
  | Some t' => if String.eqb t' "" then (a ← _auth; set_auth a;; ret (snd a))
               else ret t
  | None => a ← _auth; set_auth a;; ret (snd a)
  end.

(** [csv.DictReader(content.splitlines())], kept as the lines it reads. *)
Definition _parse_csv (content : string) : list string := splitlines content.

(** The [try ... except KeyError: pass] block of [download_csv]. *)
Definition cache_lookup (cache_key : string) : M World (option string) :=
  c ← gets (fun w => cache (self w));
  match c ≫= cache_getitem cache_key with
  | Some data => emit (CacheHit cache_key data);; ret (Some data)
  | None => emit (CacheMiss cache_key);; ret None
  end.

(** The loop [for attempt_no in range(1, 10)]: [Some response] when it is
    left by [break] with [success = True], [None] when it runs out. *)
Fixpoint poll (attempts : list nat) (download_url : string)
    : M World (option Response) :=
  match attempts with
  | [] => ret None
  | attempt_no :: rest =>
      emit (Slept DOWNLOAD_POLLING_WAIT_SEC);;
      r ← try_except
             (s ← session;
              response ← request GET download_url;
              raise_for_status response;;
              ret (Some response))
             is_HTTPError
             (fun e => emit (Debug e);; ret None);
      match r with
      | Some response => ret (Some response)
      | None => poll rest download_url
      end
  end.

(** The first [if self.cache:] block: the pending clear, then the lookup.
    [Some data] when the method returns from inside it. *)
Definition load_from_cache (cache_key : string) : M World (option string) :=
  has_cache ← gets (fun w => truthy (cache (self w)));
  if (has_cache : bool) then
    clear ← gets (fun w => clear_cache (self w));
    when clear
      (c ← gets (fun w => cache (self w));
       emit (CacheEvict cache_tag);;
       set_cache (evict cache_tag <$> c);;
       set_clear_cache false);;
    cache_lookup cache_key
  else ret None.

(** The second [if self.cache:] block. *)
Definition save_to_cache (cache_key : string) (data : string) : M World unit :=
  has_cache ← gets (fun w => truthy (cache (self w)));
  when has_cache
    (c ← gets (fun w => cache (self w));
     emit (CacheSet cache_key data cache_tag);;
     set_cache (cache_set cache_key data cache_tag <$> c)).

(** [response.headers['Location']]: the headers are a case-insensitive
    dict, whose [KeyError] names the key in lower case. *)
Definition header_location (response : Response) : M World string :=
  match location response with
  | Some l => ret l
  | None => raise (KeyError "location")
  end.

Definition download_csv (params : list (string * string))
    : M World (list string) :=
  let url := "https://juniorguru.memberful.com/admin/csv_exports?"
             ++ urlencode params in
  let cache_key := hash_data_url url in
  cached ← load_from_cache cache_key;
  match cached with
  | Some data => ret (_parse_csv data)
  | None =>
      s ← session;
      token ← csrf_token;
      response ← request POST url;
      raise_for_status response;;
      loc ← header_location response;
      let download_url := loc ++ "/download" in
      polled ← poll (range 1 10) download_url;
      match polled with
      | None => raise (DownloadError "Failed to download the CSV export")
      | Some response =>
          let data := content response in
          save_to_cache cache_key data;;
          ret (_parse_csv data)
      end
  end.

End CSV.


Definition waits (t : list Event) : list Z :=
  omap (fun e => match e with Slept s => Some s | _ => None end) t.

Definition debugs (t : list Event) : list Exception :=
  omap (fun e => match e with Debug x => Some x | _ => None end) t.

Definition cache_sets (t : list Event) : list (string * string) :=
  omap (fun e => match e with CacheSet k d _ => Some (k, d) | _ => None end) t.

Definition requests (t : list Event) : list (Method * string) :=
  omap (fun e => match e with Requested m u _ => Some (m, u) | _ => None end) t.

End CSV.

(* --------------------------------------------------------------------- *)
(** ** memberful_url                                                     *)
(* --------------------------------------------------------------------- *)

(** The account id is a number or a string; the f-string formats a number
    as [str] does, in decimal. *)
Inductive AccountId :=
  | IntId (n : Z)
  | StrId (s : string).

Definition format_account_id (account_id : AccountId) : string :=
  match account_id with
  | IntId n => DecimalString.NilZero.string_of_int (Z.to_int n)
  | StrId s => s
  end.

Definition memberful_url (account_id : AccountId) : string :=
  "https://juniorguru.memberful.com/admin/members/"
  ++ format_account_id account_id ++ "/".

End Memberful.

(* ===================================================================== *)
(** * juniorguru/models/subscription.py                                  *)
(* ===================================================================== *)

Module Subscription.
Import Python.

(** ** datetime.date *)

Record date := { year : Z; month : Z; day : Z }.

#[global] Instance date_eq_dec : EqDecision date.
Proof. solve_decision. Defined.

(** [a < b] and [a <= b] on dates: by year, then month, then day. *)
Definition date_ltb (a b : date) : bool :=
  ((year a <? year b)
   || ((year a =? year b)
       && ((month a <? month b)
           || ((month a =? month b) && (day a <? day b)))))%Z.

Definition date_leb (a b : date) : bool :=
  date_ltb a b || bool_decide (a = b).

Definition LEGACY_PLANS_DELETED_ON : date :=
  {| year := 2023; month := 2; day := 24 |}.

Inductive SubscriptionActivityType := TRIAL_START | TRIAL_END | ORDER | DEACTIVATION.
Inductive SubscriptionInterval := MONTH | YEAR.
Inductive SubscriptionType := FREE | FINAID | INDIVIDUAL | TRIAL | PARTNER | STUDENT.

#[global] Instance SubscriptionActivityType_eq_dec : EqDecision SubscriptionActivityType.
Proof. solve_decision. Defined.
#[global] Instance SubscriptionInterval_eq_dec : EqDecision SubscriptionInterval.
Proof. solve_decision. Defined.
#[global] Instance SubscriptionType_eq_dec : EqDecision SubscriptionType.
Proof. solve_decision. Defined.

(** The [value] of a member of the enum. *)
Definition SubscriptionType_value (t : SubscriptionType) : string :=
  match t with
  | FREE => "free"
  | FINAID => "finaid"
  | INDIVIDUAL => "individual"
  | TRIAL => "trial"
  | PARTNER => "partner"
  | STUDENT => "student"
  end.

(** [for subscription_type in SubscriptionType], in definition order. *)
Definition SubscriptionType_members : list SubscriptionType :=
  [FREE; FINAID; INDIVIDUAL; TRIAL; PARTNER; STUDENT].

(** Modelled from the spec: [month_range] of [juniorguru.lib.charts] is not
    among the sources. It is used as [from_date, to_date = month_range(date)]
    and compared between two dates to tell whether they fall in the same
    month (the spec's cutoff month): the first and the last day of the
    month of the date. *)
Definition is_leap (y : Z) : bool :=
  ((y mod 4 =? 0) && (negb (y mod 100 =? 0) || (y mod 400 =? 0)))%Z.

Definition days_in_month (y m : Z) : Z :=
  (if m =? 2 then (if is_leap y then 29 else 28)
   else if (m =? 4) || (m =? 6) || (m =? 9) || (m =? 11) then 30
   else 31)%Z.

Definition month_range (d : date) : date * date :=
  ({| year := year d; month := month d; day := 1 |},
   {| year := year d; month := month d; day := days_in_month (year d) (month d) |}).

Definition is_missing_subscriptions_data (month : date) : bool :=
  if date_ltb month LEGACY_PLANS_DELETED_ON then true
  else if bool_decide (month_range month = month_range LEGACY_PLANS_DELETED_ON) then true
  else false.

(** ** The table of subscription activities

    A row of the table, and also the keyword arguments of [add]: the columns
    declared without [null=True] are always given. [happened_at] is a point
    in time, in seconds. The primary key [id] of the base model is left out:
    the unique index on (type, account_id, happened_on) identifies a row. *)

Record SubscriptionActivity :=
  { type : SubscriptionActivityType;
    account_id : string;
    account_has_feminine_name : bool;
    happened_on : date;
    happened_at : Z;
    order_coupon : option string;
    subscription_interval : option SubscriptionInterval;
    subscription_type : option SubscriptionType }.

#[global] Instance SubscriptionActivity_eq_dec : EqDecision SubscriptionActivity.
Proof. solve_decision. Defined.

Abbreviation Table := (list SubscriptionActivity).

(** [cls._meta.indexes[0][0]] *)
Definition unique_key (r : SubscriptionActivity)
    : SubscriptionActivityType * string * date :=
  (type r, account_id r, happened_on r).

Definition conflicts (kwargs r : SubscriptionActivity) : bool :=
  bool_decide (unique_key r = unique_key kwargs).

(** [value if value is not None else stored]: a field of [kwargs] that is
    [None] is not in [update]. *)
Definition overwrite {A} (incoming stored : option A) : option A :=
  match incoming with
  | Some v => Some v
  | None => stored
  end.

(** The [DO UPDATE SET ...] of the upsert, on the row in conflict. The dict
    [update] holds [happened_at] twice, under the name and under the field;
    SQLite keeps the rightmost assignment of a column, the [CASE]. *)
Definition on_conflict_update (stored kwargs : SubscriptionActivity)
    : SubscriptionActivity :=
  {| type := type stored;
     account_id := account_id stored;
     happened_on := happened_on stored;
     account_has_feminine_name := account_has_feminine_name kwargs;
     happened_at :=
       (if (happened_at stored <? happened_at kwargs)%Z
        then happened_at kwargs else happened_at stored);
     order_coupon := overwrite (order_coupon kwargs) (order_coupon stored);
     subscription_interval :=
       overwrite (subscription_interval kwargs) (subscription_interval stored);
     subscription_type :=
       overwrite (subscription_type kwargs) (subscription_type stored) |}.

(** [SubscriptionActivity.add], called with keyword arguments: [INSERT ... ON CONFLICT (type,
    account_id, happened_on) DO UPDATE]. *)
Definition add (kwargs : SubscriptionActivity) (cls : Table) : Table :=
  if existsb (conflicts kwargs) cls
  then map (fun r => if conflicts kwargs r then on_conflict_update r kwargs else r) cls
  else cls ++ [kwargs].

(** A batch of records, added one after the other. *)
Definition add_all (batch : list SubscriptionActivity) (cls : Table) : Table :=
  foldl (fun t kwargs => add kwargs t) cls batch.

(** The row stored under a unique key. *)
Definition stored (key : SubscriptionActivityType * string * date) (cls : Table)
    : option SubscriptionActivity :=
  find (fun r => bool_decide (unique_key r = key)) cls.

(** The unique index of the table. *)
Definition unique_index (cls : Table) : Prop := NoDup (map unique_key cls).

(** ** mark_trials *)

Definition set_subscription_type (v : option SubscriptionType)
    (r : SubscriptionActivity) : SubscriptionActivity :=
  {| type := type r;
     account_id := account_id r;
     account_has_feminine_name := account_has_feminine_name r;
     happened_on := happened_on r;
     happened_at := happened_at r;
     order_coupon := order_coupon r;
     subscription_interval := subscription_interval r;
     subscription_type := v |}.

(** A row of the common table expression [new_subscription_type]. *)
Record new_subscription_type :=
  { nst_account_id : string;
    nst_happened_on : date;
    nst_subscription_type : option SubscriptionType }.

(** [cls JOIN also_cls ON account_id and happened_on WHERE cls.type = 'order'
    AND also_cls.type = 'trial_end'] *)
Definition new_subscription_types (cls : Table) : list new_subscription_type :=
  flat_map (fun r =>
    flat_map (fun also =>
      if bool_decide (account_id r = account_id also)
         && bool_decide (happened_on r = happened_on also)
         && bool_decide (type r = ORDER)
         && bool_decide (type also = TRIAL_END)
      then [{| nst_account_id := account_id r;
               nst_happened_on := happened_on r;
               nst_subscription_type := subscription_type r |}]
      else []) cls) cls.

(** The [WHERE] of the first [UPDATE ... FROM]. *)
Definition pass1_matches (r : SubscriptionActivity) (c : new_subscription_type) : bool :=
  bool_decide (account_id r = nst_account_id c)
  && date_leb (happened_on r) (nst_happened_on c).

Section MarkTrials.

(** When several rows of the common table expression match one row of the
    table, SQLite updates it from one of them, and does not say which:
    [pick] is that choice. *)
Variable pick : SubscriptionActivity -> new_subscription_type ->
                list new_subscription_type -> new_subscription_type.

Definition pass1 (cls : Table) : Table :=
  let cte := new_subscription_types cls in
  map (fun r =>
         match filter (fun c => pass1_matches r c) cte with
         | [] => r
         | c :: cs => set_subscription_type (nst_subscription_type (pick r c cs)) r
         end) cls.

(** The subquery [to_update]; [cls.id.in_(to_update)] holds of the rows it
    selects, [id] being the primary key. *)
Definition to_update (cls : Table) (r : SubscriptionActivity) : bool :=
  existsb (fun also =>
    bool_decide (account_id r = account_id also)
    && bool_decide (type also = TRIAL_END)
    && bool_decide (subscription_type also = Some INDIVIDUAL)
    && ((bool_decide (type r = ORDER) && date_ltb (happened_on r) (happened_on also))
        || (bool_decide (type r = TRIAL_END) && bool_decide (happened_on r = happened_on also))
        || (bool_decide (type r = TRIAL_START) && date_ltb (happened_on r) (happened_on also))))
    cls.

Definition pass2 (cls : Table) : Table :=
  map (fun r => if to_update cls r then set_subscription_type (Some TRIAL) r else r) cls.

Definition mark_trials (cls : Table) : Table := pass2 (pass1 cls).

End MarkTrials.

(** ** Queries *)

(** [cls.select().count()] *)
Definition total_count (cls : Table) : Z := Z.of_nat (length cls).

(** [max(happened_at) ... WHERE happened_on <= date GROUP BY account_id],
    for one account; [None] when the account has no such row. *)
Definition latest_at (cls : Table) (d : date) (account : string) : option Z :=
  foldr (fun r acc =>
           if bool_decide (account_id r = account) && date_leb (happened_on r) d
           then Some (match acc with Some m => Z.max (happened_at r) m | None => happened_at r end)
           else acc) None cls.

Definition listing (cls : Table) (d : date) : Table :=
  filter (fun r => latest_at cls d (account_id r) = Some (happened_at r)) cls.

Definition active_listing (cls : Table) (d : date) : Table :=
  filter (fun r => type r <> DEACTIVATION) (listing cls d).

Definition active_count (cls : Table) (d : date) : Z :=
  Z.of_nat (length (active_listing cls d)).

(** What the decorated methods return: [None], a number or a dict. *)
Inductive Value :=
  | VNone
  | VInt (n : Z)
  | VDict (d : list (string * Z)).

Definition uses_data_from_subscriptions (default : option (unit -> Value))
    (class_method : Table -> date -> Exception + Value)
    : Table -> date -> Exception + Value :=
  fun cls d =>
    if is_missing_subscriptions_data d
    then inr (match default with Some f => f tt | None => VNone end)
    else class_method cls d.

(** [dict], called without arguments. *)
Definition dict (_ : unit) : Value := VDict [].

Definition active_individuals_count : Table -> date -> Exception + Value :=
  uses_data_from_subscriptions None (fun cls d =>
    inr (VInt (Z.of_nat (length
      (filter (fun r => subscription_type r = Some INDIVIDUAL)
              (active_listing cls d)))))).

Definition active_individuals_yearly_count : Table -> date -> Exception + Value :=
  uses_data_from_subscriptions None (fun cls d =>
    inr (VInt (Z.of_nat (length
      (filter (fun r => subscription_type r = Some INDIVIDUAL
                        /\ subscription_interval r = Some YEAR)
              (active_listing cls d)))))).

(** [Counter(...)[key]] *)
Definition count_of (key : option SubscriptionType) (cls : Table) : Z :=
  Z.of_nat (length (filter (fun r => subscription_type r = key) cls)).

Definition active_subscription_type_breakdown : Table -> date -> Exception + Value :=
  uses_data_from_subscriptions (Some dict) (fun cls d =>
    let active := active_listing cls d in
    if bool_decide (None ∈ map subscription_type active)
    then inl (ValueError "There are members whose latest activity is without subscription type")
    else inr (VDict (map (fun t => (SubscriptionType_value t, count_of (Some t) active))
                         SubscriptionType_members))).

Definition active_women_count (cls : Table) (d : date) : Z :=
  Z.of_nat (length (filter (fun r => account_has_feminine_name r = true)
                           (active_listing cls d))).

(** ** Floating point: [int / int], [float * int] and [math.ceil]

    Python floats are IEEE 754 binary64, as are Rocq's primitive floats.
    [a / b] on integers is the quotient rounded once, which is the quotient
    of the two floats for integers below 2^53. *)
Definition float_of_int (n : Z) : float := PrimFloat.of_uint63 (Uint63.of_Z n).

Definition truediv (a b : Z) : float :=
  PrimFloat.div (float_of_int a) (float_of_int b).

(** [math.ceil(x)]: the least integer not below [x], exactly. *)
Definition ceil (x : float) : Exception + Z :=
  match Prim2SF x with
  | S754_zero _ => inr 0%Z
  | S754_finite s m e =>
      let q := (if 0 <=? e then Z.pos m * 2 ^ e else Z.pos m / 2 ^ (- e))%Z in
      let exact := (if 0 <=? e then true else Z.pos m mod 2 ^ (- e) =? 0)%Z in
      inr (if s then (- q)%Z else if exact then q else (q + 1)%Z)
  | S754_infinity _ => inl (OverflowError "cannot convert float infinity to integer")
  | S754_nan => inl (ValueError "cannot convert float NaN to integer")
  end.

Definition active_women_ptc (cls : Table) (d : date) : Exception + Z :=
  let count := active_count cls d in
  if (count =? 0)%Z then inr 0%Z
  else ceil (PrimFloat.mul (truediv (active_women_count cls d) count)
                           (float_of_int 100)).

(** ** Signups *)

(** The row of a group that holds [min(happened_at)]: SQLite reads the bare
    columns of the query from it. Among rows of one account with the same
    [happened_at] the first of the table is taken. *)
Definition earliest (rows : Table) : option SubscriptionActivity :=
  foldr (fun r acc =>
           match acc with
           | Some m => if (happened_at r <=? happened_at m)%Z then Some r else Some m
           | None => Some r
           end) None rows.

Definition accounts (cls : Table) : list string :=
  remove_dups (map account_id cls).

(** [SELECT min(happened_at) ... WHERE <where> GROUP BY account_id
    HAVING happened_on >= from_date], one row for each group kept. *)
Definition signups_where (where_ : SubscriptionActivity -> bool) (cls : Table)
    (d : date) : list SubscriptionActivity :=
  let '(from_date, to_date) := month_range d in
  let rows := List.filter (fun r => date_leb (happened_on r) to_date && where_ r) cls in
  omap (fun account =>
          match earliest (List.filter (fun r => bool_decide (account_id r = account)) rows) with
          | Some r => if date_leb from_date (happened_on r) then Some r else None
          | None => None
          end) (accounts rows).

Definition signups (cls : Table) (d : date) : list SubscriptionActivity :=
  signups_where (fun _ => true) cls d.

Definition signups_count (cls : Table) (d : date) : Z :=
  Z.of_nat (length (signups cls d)).

Definition individuals_signups_count : Table -> date -> Exception + Value :=
  uses_data_from_subscriptions None (fun cls d =>
    inr (VInt (Z.of_nat (length
      (signups_where (fun r => bool_decide (subscription_type r = Some INDIVIDUAL)) cls d))))).

End Subscription.

(* ===================================================================== *)
(** * Properties of the GraphQL client                                   *)
(* ===================================================================== *)

Module APIFacts.
Import Python Memberful.
Local Open Scope Z_scope.
Local Open Scope string_scope.
Local Open Scope list_scope.

Definition initial_world (api : MemberfulAPI) : World := {| self := api; trace := [] |}.

Definition page_info_of (f : Result → Exception + PageInfo) (r : Result)
    : M World PageInfo :=
  match f r with inl e => raise e | inr p => ret p end.

Definition collect (r : Result) (acc : list Result) : M World (list Result) :=
  ret (acc ++ [r]).

(** ** Concrete runs *)

Definition hash_node (n : Node) : string := "#" ++ default "" (id n).
Definition hash_request (query : string) (vv : VariableValues) : string :=
  query ++ "?" ++ default "" (vv !! "cursor").
Definition search_members (query : string) : option string := Some "members".

Definition members (total : Z) (next : bool) (cursor : option string)
    (nodes : list Node) : Result :=
  {[ "members" :=
       {| totalCount := total;
          pageInfo := {| hasNextPage := next; endCursor := cursor |};
          edges := (fun n => {| node := n |}) <$> nodes |} ]}.

Definition page_info_members (r : Result) : Exception + PageInfo :=
  match r !! "members" with
  | Some coll => inr (pageInfo coll)
  | None => inl (KeyError "members")
  end.

Definition node_A : Node := {| id := Some "A"; fields := [] |}.
Definition node_B : Node := {| id := Some "B"; fields := [] |}.
Definition node_C : Node := {| id := Some "C"; fields := [] |}.

(** One page that says there is a next page and gives no cursor. *)
Definition no_cursor_transport : Transport :=
  fun _ _ _ => inr (members 1 true None [node_A]).

(** One page that declares three nodes and holds one. *)
Definition short_transport : Transport :=
  fun _ _ _ => inr (members 3 false None [node_A]).

(** Two pages, [A, B, A] then [C], declaring three nodes. *)
Definition two_pages_transport : Transport :=
  fun _ _ vv =>
    match vv !! "cursor" with
    | Some "" => inr (members 3 true (Some "c1") [node_A; node_B; node_A])
    | Some "c1" => inr (members 3 false None [node_C])
    | _ => inl (RequestException "unknown cursor")
    end.

Definition no_cache (t : Transport) : MemberfulAPI :=
  {| cache := None; clear_cache := false; client := t |}.

(** ** What the cache saw *)

Definition evictions (t : list Event) : list string :=
  omap (fun e => match e with CacheEvict tag => Some tag | _ => None end) t.

Definition cache_writes (t : list Event) : list string :=
  omap (fun e => match e with CacheSet k _ _ => Some k | _ => None end) t.

(** A transport that is down. *)
Definition failing_transport : Transport :=
  fun _ _ _ => inl (RequestException "connection refused").

(** A cache shared with another kind of client, which has stored an
    entry under its own tag. *)
Definition shared_cache : Cache Result :=
  {[ "export.csv" := (∅, "memberfulcsv") ]}.

Definition with_cache (c : Cache Result) (flag : bool) (t : Transport) : MemberfulAPI :=
  {| cache := Some c; clear_cache := flag; client := t |}.

Definition first_cursor : VariableValues := {[ "cursor" := "" ]}.

(** The first call of a client that shares its cache and has the clear flag
    up. *)
Definition first_call : Outcome Result * World :=
  _execute_query hash_request "q" first_cursor
    (initial_world (with_cache shared_cache true two_pages_transport)).

Section APIProps.
Variable hash_data : Node -> string.
Variable hash_data_request : string -> VariableValues -> string.
Variable COLLECTION_NAME_RE_search : string -> option string.

Lemma bind_run {S A B} (c : M S A) (k : A -> M S B) s :
  (c ≫= k) s =
  match c s with
  | (Return a, s') => k a s'
  | (Raise e, s') => (Raise e, s')
  | (Diverge, s') => (Diverge, s')
  end.
Proof. reflexivity. Qed.

Definition received_of (o : Outcome Result) : list Result :=
  match o with Return r => [r] | _ => [] end.

Lemma _execute_query_trace query vv w :
  ∃ evs, trace (_execute_query hash_data_request query vv w).2 = trace w ++ evs
         ∧ yielded evs = [] ∧ cursors_sent evs = []
         ∧ results_received evs = received_of (_execute_query hash_data_request query vv w).1
         ∧ (_execute_query hash_data_request query vv w).1 ≠ Diverge.
Proof.
  unfold _execute_query, load_from_cache, save_to_cache, cache_lookup, client_execute, mbind, M_bind, bind, gets,
    when, emit, set_cache, set_clear_cache, modify, mret, M_ret, ret.
  simpl.
  repeat case_match; simplify_eq/=;
    (eexists; split; [rewrite <- ?app_assoc; try reflexivity | done]).
Qed.

Definition identities (t : list Event) : list string :=
  node_identity hash_data <$> yielded t.

(** The loop invariant of [get_nodes] *)
Record inv (l : Locals) (t : list Event) : Prop :=
  { inv_nodup : NoDup (identities t);
    inv_seen : ∀ x, x ∈ seen_node_ids l ↔ x ∈ identities t;
    inv_count : nodes_count l = Z.of_nat (length (yielded t)) + duplicates_count l;
    inv_dups : 0 <= duplicates_count l }.

Definition same_requests (w w' : World) : Prop :=
  self w' = self w
  ∧ cursors_sent (trace w') = cursors_sent (trace w)
  ∧ results_received (trace w') = results_received (trace w).

Lemma yielded_snoc_yield t n : yielded (t ++ [Yield n]) = yielded t ++ [n].
Proof. unfold yielded. by rewrite omap_app. Qed.

Lemma visit_edge_inv l e w :
  inv l (trace w) →
  ∃ l' w', visit_edge hash_data l e w = (Return l', w')
           ∧ inv l' (trace w')
           ∧ declared_count l' = declared_count l
           ∧ same_requests w w'.
Proof.
  intros [Hnd Hseen Hcnt Hd]. unfold visit_edge.
  destruct (decide _) as [Hin|Hnin].
  - eexists _, w. split; [reflexivity|]. split; [|done].
    split; simpl; try done; lia.
  - eexists _, _. split; [reflexivity|]. simpl.
    split; [|split; [done|]].
    + split; simpl.
      * unfold identities. rewrite yielded_snoc_yield, fmap_app. simpl.
        apply NoDup_app. split; [done|]. split.
        -- intros x Hx Hx'. apply list_elem_of_singleton in Hx'. subst x.
           apply Hnin, Hseen. done.
        -- apply NoDup_singleton.
      * intros x. unfold identities. rewrite yielded_snoc_yield, fmap_app. simpl.
        rewrite elem_of_union, elem_of_singleton, elem_of_app, list_elem_of_singleton.
        rewrite Hseen. unfold identities. tauto.
      * rewrite yielded_snoc_yield, length_app. simpl. lia.
      * done.
    + unfold same_requests. simpl. unfold cursors_sent, results_received.
      rewrite !omap_app. simpl. by rewrite !app_nil_r.
Qed.

Lemma same_requests_trans w1 w2 w3 :
  same_requests w1 w2 → same_requests w2 w3 → same_requests w1 w3.
Proof. unfold same_requests. intros (?&?&?) (?&?&?). split_and!; congruence. Qed.

Lemma visit_edges_inv es : ∀ l w,
  inv l (trace w) →
  ∃ l' w', visit_edges hash_data es l w = (Return l', w')
           ∧ inv l' (trace w')
           ∧ declared_count l' = declared_count l
           ∧ same_requests w w'.
Proof.
  induction es as [|e es IH]; intros l w Hinv.
  - eexists l, w. split; [reflexivity|]. split; [done|]. split; [done|].
    by unfold same_requests.
  - destruct (visit_edge_inv l e w Hinv) as (l1 & w1 & Hrun & Hinv1 & Hd1 & Hs1).
    destruct (IH l1 w1 Hinv1) as (l2 & w2 & Hrun2 & Hinv2 & Hd2 & Hs2).
    exists l2, w2. split.
    + simpl. unfold mbind, M_bind, bind. by rewrite Hrun.
    + split; [done|]. split; [congruence|]. by eapply same_requests_trans.
Qed.

(** The body of the loop over the pages: it keeps the invariant, and does not
    yield an identity twice even when it fails. *)
Lemma visit_result_inv cn r l w :
  inv l (trace w) →
  match visit_result hash_data cn r l w with
  | (Return l', w') =>
      inv l' (trace w') ∧ same_requests w w'
      ∧ ∃ coll, r !! cn = Some coll
                ∧ declared_count l' = Some (totalCount coll)
                ∧ (declared_count l = None ∨ declared_count l = Some (totalCount coll))
  | (_, w') => w' = w
  end.
Proof.
  intros Hinv. unfold visit_result, getitem, assert, mbind, M_bind, bind.
  destruct (r !! cn) as [coll|] eqn:Hr; simpl; [|done].
  destruct (Z.eqb_spec
    match declared_count l with Some d => d | None => totalCount coll end
    (totalCount coll)) as [Heq|Hne]; simpl; [|done].
  set (l0 := {| declared_count := _ |}).
  destruct (visit_edges_inv (edges coll) l0 w) as (l' & w' & Hrun & Hinv' & Hd & Hs).
  { destruct Hinv. split; done. }
  rewrite Hrun. split; [done|]. split; [done|].
  exists coll. split; [done|]. rewrite Hd. simpl. rewrite Heq. split; [done|].
  destruct (declared_count l); [right; congruence | by left].
Qed.

(** ** Pagination *)

Definition pagination (f : Result → Exception + PageInfo) (fuel : nat) (c0 : string)
    (out : Outcome (list Result)) (acc : list Result)
    (cs : list string) (rs : list Result) : Prop :=
  (cs !! 0%nat = Some c0 ∨ (fuel = 0%nat ∧ out = Diverge ∧ cs = [] ∧ rs = []))
  ∧ (∀ n c, cs !! S n = Some c →
       ∃ r p, rs !! n = Some r ∧ f r = inr p
              ∧ hasNextPage p = true ∧ endCursor p = Some c)
  ∧ (∀ n r p c, rs !! n = Some r → f r = inr p →
       hasNextPage p = true → endCursor p = Some c →
       cs !! S n = Some c ∨ (S n = fuel ∧ out = Diverge))
  ∧ (∀ a, out = Return a →
       a = acc ++ rs ∧ length cs = length rs
       ∧ ∃ r p, last rs = Some r ∧ f r = inr p
                ∧ (hasNextPage p = false ∨ endCursor p = None))
  ∧ (out = Diverge → length cs = fuel ∧ length rs = fuel).

Lemma cursors_sent_app t1 t2 :
  cursors_sent (t1 ++ t2) = cursors_sent t1 ++ cursors_sent t2.
Proof. apply omap_app. Qed.
Lemma results_received_app t1 t2 :
  results_received (t1 ++ t2) = results_received t1 ++ results_received t2.
Proof. apply omap_app. Qed.
Lemma yielded_app t1 t2 : yielded (t1 ++ t2) = yielded t1 ++ yielded t2.
Proof. apply omap_app. Qed.

Lemma _query_None {A} fuel query gpi vv (body : Result → A → M World A) acc :
  _query_while hash_data_request fuel query gpi vv body None acc = ret acc.
Proof. by destruct fuel. Qed.

Lemma _query_pagination f query vv fuel : ∀ c0 acc w out w',
  _query_while hash_data_request fuel query (page_info_of f) vv collect
    (Some c0) acc w = (out, w') →
  ∃ evs, trace w' = trace w ++ evs
         ∧ pagination f fuel c0 out acc (cursors_sent evs) (results_received evs).
Proof.
  induction fuel as [|fuel IH]; intros c0 acc w out w' Hrun.
  { injection Hrun as <- <-. exists []. split; [by rewrite app_nil_r|]. simpl.
    unfold pagination. split_and!; try done. by right. }
  cbn [_query_while] in Hrun.
  unfold mbind, M_bind, bind, emit, modify, dict_cursor in Hrun.
  cbn [fst snd] in Hrun.
  set (w1 := {| self := self w; trace := trace w ++ [SendingQuery c0] |}) in Hrun.
  destruct (vv !! "cursor") as [x|] eqn:Hvv.
  { injection Hrun as <- <-.
    exists [SendingQuery c0]. split; [done|]. unfold pagination. simpl.
    split_and!; try done. by left. }
  unfold ret at 1 in Hrun. cbn beta iota in Hrun.
  destruct (_execute_query_trace query (<["cursor":=c0]> vv) w1)
    as (evs1 & Ht1 & _ & Hc1 & Hr1 & Hnd).
  destruct (_execute_query hash_data_request query (<["cursor":=c0]> vv) w1)
    as [[r|e|] w2] eqn:Hexec; simpl in Ht1, Hr1, Hnd; [| |done].
  2: (injection Hrun as <- <-; exists (SendingQuery c0 :: evs1); split;
         [rewrite Ht1; subst w1; simpl; by rewrite <- app_assoc|];
        unfold pagination; change (SendingQuery c0 :: evs1) with ([SendingQuery c0] ++ evs1);
        rewrite cursors_sent_app, results_received_app, Hc1, Hr1; simpl;
        split_and!; try done; by left).
  unfold collect at 1, ret at 1 in Hrun. cbn beta iota in Hrun.
  unfold page_info_of at 1 in Hrun.
  destruct (f r) as [e|p] eqn:Hf.
  { injection Hrun as <- <-. exists (SendingQuery c0 :: evs1). split.
    { rewrite Ht1. subst w1. simpl. by rewrite <- app_assoc. }
    unfold pagination. change (SendingQuery c0 :: evs1) with ([SendingQuery c0] ++ evs1).
    rewrite cursors_sent_app, results_received_app, Hc1, Hr1. simpl.
    split_and!; try done.
    - by left.
    - intros [|n] r' p c H; [|done].
      simpl in H. injection H as <-. congruence. }
  unfold ret at 1 in Hrun. cbn beta iota in Hrun.
  destruct (if hasNextPage p then endCursor p else None) as [c1|] eqn:Hnext.
  - destruct (IH c1 (acc ++ [r]) w2 out w' Hrun) as (evs2 & Ht2 & Hspec).
    exists (SendingQuery c0 :: evs1 ++ evs2). split.
    { rewrite Ht2, Ht1. subst w1. simpl. by rewrite <- !app_assoc. }
    change (SendingQuery c0 :: evs1 ++ evs2) with ([SendingQuery c0] ++ evs1 ++ evs2).
    rewrite !cursors_sent_app, !results_received_app, Hc1, Hr1. simpl.
    destruct Hspec as (H0 & H1 & H2 & H3 & H4).
    assert (Hp : hasNextPage p = true ∧ endCursor p = Some c1).
    { destruct (hasNextPage p); [done|discriminate]. }
    destruct Hp as [Hp1 Hp2].
    unfold pagination. split_and!.
    + by left.
    + intros [|n] c H; simpl in H.
      * exists r, p. split_and!; try done.
        destruct H0 as [H0|(?&?&H0&?)]; [congruence|]. rewrite H0 in H. done.
      * apply H1 in H. done.
    + intros [|n] r' p' c Hr Hf' Hh He; simpl in Hr.
      * injection Hr as <-. rewrite Hf in Hf'. injection Hf' as <-.
        rewrite Hp2 in He. injection He as <-.
        destruct H0 as [H0|(?&?&?&?)]; [left; done | right; split; [lia|done]].
      * destruct (H2 n r' p' c Hr Hf' Hh He) as [?|[? ?]]; [by left|right].
        split; [lia|done].
    + intros a Ha. destruct (H3 a Ha) as (Ha1 & Hlen & r' & p' & Hl & Hf' & Hstop).
      split; [by rewrite Ha1, <- app_assoc|]. split; [simpl; lia|].
      exists r', p'. split; [|done].
      destruct (results_received evs2) as [|x xs]; [done|].
      by rewrite last_cons, Hl.
    + intros Hd. destruct (H4 Hd). simpl. split; lia.
  - rewrite _query_None in Hrun. injection Hrun as <- <-.
    exists (SendingQuery c0 :: evs1). split.
    { rewrite Ht1. subst w1. simpl. by rewrite <- app_assoc. }
    unfold pagination. change (SendingQuery c0 :: evs1) with ([SendingQuery c0] ++ evs1).
    rewrite cursors_sent_app, results_received_app, Hc1, Hr1. simpl.
    split_and!; try done.
    + by left.
    + intros [|n] r' p' c H Hf' Hh He; [|done].
      simpl in H. injection H as <-. rewrite Hf in Hf'. injection Hf' as <-.
      rewrite Hh, He in Hnext. done.
    + intros a Ha. injection Ha as <-. split; [done|]. split; [done|].
      exists r, p. split; [done|]. split; [done|].
      destruct (hasNextPage p); [by right | by left].
Qed.

(** ** The deduplicating stream *)

Definition page_info_in (cn : string) (result : Result) : M World PageInfo :=
  coll ← getitem result cn; ret (pageInfo coll).

(** Every page received so far declares the total count that was saved. *)
Definition declared (cn : string) (l : Locals) (t : list Event) : Prop :=
  ∀ r, r ∈ results_received t →
    ∃ coll, r !! cn = Some coll ∧ declared_count l = Some (totalCount coll).

Lemma inv_same_yield l t t' : yielded t' = yielded t → inv l t → inv l t'.
Proof.
  intros Hy [H1 H2 H3 H4]. split; unfold identities in *; rewrite ?Hy; done.
Qed.

Lemma get_nodes_loop cn query vv fuel : ∀ c acc w out w',
  inv acc (trace w) → declared cn acc (trace w) →
  _query_while hash_data_request fuel query (page_info_in cn) vv
    (visit_result hash_data cn) c acc w = (out, w') →
  NoDup (identities (trace w'))
  ∧ ∀ l, out = Return l →
      inv l (trace w') ∧ declared cn l (trace w')
      ∧ ∃ rs, results_received (trace w') = results_received (trace w) ++ rs
              ∧ (c ≠ None → rs ≠ []).
Proof.
  induction fuel as [|fuel IH]; intros c acc w out w' Hinv Hdecl Hrun.
  { destruct c; injection Hrun as <- <-; (split; [by destruct Hinv|]);
      intros l Hl; [done|]. injection Hl as <-. split_and!; try done.
      exists []. by rewrite app_nil_r. }
  destruct c as [c|].
  2: { injection Hrun as <- <-; split; [by destruct Hinv|].
       intros l Hl; injection Hl as <-. split_and!; try done.
       exists []. by rewrite app_nil_r. }
  cbn [_query_while] in Hrun.
  unfold mbind, M_bind, bind, emit, modify, dict_cursor in Hrun.
  cbn [fst snd] in Hrun.
  remember {| self := self w; trace := trace w ++ [SendingQuery c] |} as w1 eqn:Hw1.
  assert (Hy1 : yielded (trace w1) = yielded (trace w)).
  { subst w1. simpl. rewrite yielded_app. simpl. by rewrite app_nil_r. }
  assert (Hr1 : results_received (trace w1) = results_received (trace w)).
  { subst w1. simpl. rewrite results_received_app. simpl. by rewrite app_nil_r. }
  clear Hw1.
  destruct (vv !! "cursor") as [x|] eqn:Hvv.
  { injection Hrun as <- <-. split; [|done]. unfold identities. rewrite Hy1.
    by destruct Hinv. }
  unfold ret at 1 in Hrun. cbn beta iota in Hrun.
  destruct (_execute_query_trace query (<["cursor":=c]> vv) w1)
    as (evs & Ht2 & Hy2 & _ & Hr2 & Hnd).
  destruct (_execute_query hash_data_request query (<["cursor":=c]> vv) w1)
    as [[r|e|] w2] eqn:Hexec; simpl in Ht2, Hr2, Hnd; [| |done].
  2: { injection Hrun as <- <-. split; [|done]. unfold identities.
       rewrite Ht2, yielded_app, Hy2, app_nil_r, Hy1. by destruct Hinv. }
  assert (Hyw2 : yielded (trace w2) = yielded (trace w)).
  { by rewrite Ht2, yielded_app, Hy2, app_nil_r, Hy1. }
  assert (Hrw2 : results_received (trace w2) = results_received (trace w) ++ [r]).
  { by rewrite Ht2, results_received_app, Hr2, Hr1. }
  pose proof (visit_result_inv cn r acc w2 (inv_same_yield _ _ _ Hyw2 Hinv)) as Hbody.
  destruct (visit_result hash_data cn r acc w2) as [[l1|e|] w3] eqn:Hvis.
  2,3: (subst w3; injection Hrun as <- <-; split; [|done]; unfold identities;
        rewrite Hyw2; by destruct Hinv).
  destruct Hbody as (Hinv1 & (Hself & Hcs & Hrs) & coll & Hcoll & Hd1 & Hd0).
  unfold page_info_in at 1, getitem, mbind, M_bind, bind in Hrun.
  rewrite Hcoll in Hrun. unfold ret at 1 2 in Hrun. cbn beta iota in Hrun.
  assert (Hdecl1 : declared cn l1 (trace w3)).
  { intros r0. rewrite Hrs, Hrw2, elem_of_app, list_elem_of_singleton.
    intros [Hr0 | ->].
    - destruct (Hdecl r0 Hr0) as (coll0 & Hc0 & Hd). exists coll0. split; [done|].
      destruct Hd0 as [Hd0|Hd0]; congruence.
    - by exists coll. }
  destruct (IH _ l1 w3 out w' Hinv1 Hdecl1 Hrun) as [Hnodup Hret].
  split; [done|]. intros l Hl. destruct (Hret l Hl) as (Hi & Hde & rs & Hrs' & _).
  split; [done|]. split; [done|]. exists (r :: rs). split.
  - rewrite Hrs', Hrs, Hrw2, <- app_assoc. done.
  - done.
Qed.

Lemma inv_initial : inv initial [].
Proof.
  split; simpl; try done.
  - apply NoDup_nil_2.
  - intros x. unfold identities. simpl. set_solver.
Qed.

Lemma declared_initial cn : declared cn initial [].
Proof. intros r Hr. simpl in Hr. by apply elem_of_nil in Hr. Qed.

(** Claim C1, as the code has it. In a drain of [get_nodes] no node identity
    (the [id] of the node, or the hash of the node when it has none) is
    yielded twice. A drain that ends without an error has received at least
    one page, and every page it received declares as total count the
    number of nodes yielded. Once the pages are exhausted the number of
    nodes seen is the number yielded plus the duplicate counter; a counter
    above zero raises the assertion error that names it; with the counter at
    zero the drain either ends normally, the declared count being the
    number of nodes yielded, or raises the assertion error for a wrong
    count. *)
Theorem get_nodes_dedup api fuel query variable_values out w' :
  get_nodes hash_data hash_data_request COLLECTION_NAME_RE_search
    fuel query variable_values (initial_world api) = (out, w') →
  NoDup (node_identity hash_data <$> yielded (trace w'))
  ∧ (out = Return tt →
       ∃ cn, COLLECTION_NAME_RE_search query = Some cn
             ∧ results_received (trace w') ≠ []
             ∧ ∀ r, r ∈ results_received (trace w') →
                 ∃ coll, r !! cn = Some coll
                         ∧ totalCount coll = Z.of_nat (length (yielded (trace w'))))
  ∧ (∀ cn l w1,
       COLLECTION_NAME_RE_search query = Some cn →
       get_nodes_pages hash_data hash_data_request fuel cn query variable_values
         (initial_world api) = (Return l, w1) →
       w' = w1
       ∧ nodes_count l = Z.of_nat (length (yielded (trace w1))) + duplicates_count l
       ∧ (0 < duplicates_count l →
            out = Raise (AssertionError (DuplicateNodes (duplicates_count l))))
       ∧ (duplicates_count l = 0 →
            (out = Return tt
             ∧ declared_count l = Some (Z.of_nat (length (yielded (trace w1)))))
            ∨ (out = Raise (AssertionError
                              (WrongNodesCount (nodes_count l) (declared_count l)))
               ∧ declared_count l ≠ Some (Z.of_nat (length (yielded (trace w1))))))).
Proof.
  unfold get_nodes. intros Hrun.
  destruct (COLLECTION_NAME_RE_search query) as [cn|] eqn:Hcn.
  2: { injection Hrun as <- <-. split; [apply NoDup_nil_2|]. done. }
  unfold mbind, M_bind, bind in Hrun.
  destruct (get_nodes_pages _ _ _ _ _ _ _) as [o w1] eqn:Hpages.
  pose proof (get_nodes_loop cn query (default ∅ variable_values) fuel (Some "")
                initial (initial_world api) o w1 inv_initial (declared_initial cn) Hpages)
    as [Hnodup Hret].
  destruct o as [l|e|].
  2,3: (injection Hrun as <- <-; split; [done|]; split; [done|];
        intros cn' l w2 Hcn' Heq; congruence).
  destruct (Hret l eq_refl) as ([_ _ Hcount Hdups] & Hdecl & rs & Hrs & Hne).
  simpl in Hrs. unfold final_checks, assert, mbind, M_bind, bind in Hrun.
  assert (Hfinal :
    w' = w1
    ∧ (0 < duplicates_count l →
         out = Raise (AssertionError (DuplicateNodes (duplicates_count l))))
    ∧ (duplicates_count l = 0 →
         (out = Return tt
          ∧ declared_count l = Some (Z.of_nat (length (yielded (trace w1)))))
         ∨ (out = Raise (AssertionError
                           (WrongNodesCount (nodes_count l) (declared_count l)))
            ∧ declared_count l ≠ Some (Z.of_nat (length (yielded (trace w1))))))).
  { destruct (Z.eqb_spec (duplicates_count l) 0) as [H0|H0]; simpl in Hrun.
    - destruct (bool_decide_reflect (declared_count l = Some (nodes_count l)))
        as [Hd|Hd]; simpl in Hrun; injection Hrun as <- <-.
      + split; [done|]. split; [lia|]. intros _. left. split; [done|].
        rewrite Hd. f_equal. lia.
      + split; [done|]. split; [lia|]. intros _. right. split; [done|].
        intros Hd'. apply Hd. rewrite Hd'. f_equal. lia.
    - injection Hrun as <- <-. split; [done|]. split; [done|]. lia. }
  destruct Hfinal as (-> & Hpos & Hzero).
  split; [done|]. split.
  - intros ->. exists cn. split; [done|]. split.
    { rewrite Hrs. simpl. intros ->. by apply Hne. }
    intros r Hr. destruct (Hdecl r Hr) as (coll & Hcoll & Hd).
    exists coll. split; [done|].
    destruct (Z_lt_le_dec 0 (duplicates_count l)) as [Hlt|Hle].
    { specialize (Hpos Hlt). done. }
    destruct Hzero as [[_ Hd']|[? _]]; [lia| |done]. congruence.
  - intros cn' l' w2 Hcn' Hpages'. injection Hcn' as <-.
    rewrite Hpages in Hpages'. injection Hpages' as <- <-. done.
Qed.

(** ** The two-page scenario *)

(** More fuel does not change a run that has ended. *)
Lemma _query_fuel_mono {A} query gpi vv (body : Result → A → M World A) fuel :
  ∀ c acc w out w',
    out ≠ Diverge →
    _query_while hash_data_request fuel query gpi vv body c acc w = (out, w') →
    _query_while hash_data_request (S fuel) query gpi vv body c acc w = (out, w').
Proof.
  induction fuel as [|fuel IH]; intros c acc w out w' Hout Hrun.
  { destruct c; simpl in Hrun; injection Hrun as <- <-; done. }
  destruct c as [c|]; [|done].
  cbn [_query_while] in Hrun |- *.
  unfold mbind, M_bind, bind in Hrun |- *.
  destruct (emit (SendingQuery c) w) as [[[]| |] w0]; [|done|done].
  destruct (dict_cursor c vv w0) as [[vv'| |] w1]; [|done|done].
  destruct (_execute_query hash_data_request query vv' w1) as [[r| |] w2]; [|done|done].
  destruct (body r acc w2) as [[acc'| |] w3]; [|done|done].
  destruct (gpi r w3) as [[p| |] w4]; [|done|done].
  by apply IH.
Qed.

Lemma _query_fuel_le {A} query gpi vv (body : Result → A → M World A) fuel fuel' :
  ∀ c acc w out w',
    (fuel ≤ fuel')%nat → out ≠ Diverge →
    _query_while hash_data_request fuel query gpi vv body c acc w = (out, w') →
    _query_while hash_data_request fuel' query gpi vv body c acc w = (out, w').
Proof.
  intros c acc w out w' Hle Hout Hrun. induction Hle as [|m Hle IH]; [done|].
  by apply _query_fuel_mono.
Qed.

Lemma two_pages_run query :
  get_nodes_pages hash_data hash_data_request 2 "members" query None
    (initial_world (no_cache two_pages_transport))
  = (Return {| declared_count := Some 3; nodes_count := 4; duplicates_count := 1;
               seen_node_ids := {["C"]} ∪ ({["B"]} ∪ ({["A"]} ∪ ∅)) |},
     {| self := no_cache two_pages_transport;
        trace := [SendingQuery "";
                  Executed query {["cursor" := ""]}
                    (inr (members 3 true (Some "c1") [node_A; node_B; node_A]));
                  Yield node_A; Yield node_B;
                  SendingQuery "c1";
                  Executed query {["cursor" := "c1"]}
                    (inr (members 3 false None [node_C]));
                  Yield node_C] |}).
Proof. reflexivity. Qed.

Lemma get_nodes_pages_fuel_le fuel fuel' cn query vv w out w' :
  (fuel ≤ fuel')%nat → out ≠ Diverge →
  get_nodes_pages hash_data hash_data_request fuel cn query vv w = (out, w') →
  get_nodes_pages hash_data hash_data_request fuel' cn query vv w = (out, w').
Proof. unfold get_nodes_pages, _query. apply _query_fuel_le. Qed.

(** Claim C7, as the code has it. Two pages declaring three nodes, [A, B, A]
    then [C]: the stream yields [A, B, C] and then raises the assertion
    error for one duplicate node. *)
Theorem two_pages_with_duplicate query fuel :
  COLLECTION_NAME_RE_search query = Some "members" →
  (2 ≤ fuel)%nat →
  let run := get_nodes hash_data hash_data_request COLLECTION_NAME_RE_search
               fuel query None (initial_world (no_cache two_pages_transport)) in
  yielded (trace run.2) = [node_A; node_B; node_C]
  ∧ run.1 = Raise (AssertionError (DuplicateNodes 1)).
Proof.
  intros Hcn Hfuel.
  pose proof (two_pages_run query) as Hrun.
  (apply (get_nodes_pages_fuel_le 2 fuel) in Hrun; [|done|done]).
  (unfold get_nodes; rewrite Hcn; unfold mbind, M_bind, bind).
  rewrite Hrun.
  (split; vm_compute; reflexivity).
Qed.
(** ** The cache *)

Lemma truthy_lookup {V} (c : Cache V) k x : c !! k = Some x → truthy (Some c) = true.
Proof.
  intros Hk. unfold truthy, cache_len.
  destruct (Nat.eqb_spec (size c) 0) as [H0|H0]; [|done].
  apply map_size_empty_iff in H0. subst c. by rewrite lookup_empty in Hk.
Qed.

Lemma lookup_evict {V} tag (c : Cache V) k v t :
  evict tag c !! k = Some (v, t) ↔ c !! k = Some (v, t) ∧ t ≠ tag.
Proof. unfold evict. by rewrite map_lookup_filter_Some. Qed.

(** A cache that is false in Python is neither read nor written. *)
Lemma _execute_query_falsy query vv w :
  truthy (cache (self w)) = false →
  _execute_query hash_data_request query vv w
  = (match client (self w) (trace w) query vv with
     | inl e => Raise e
     | inr r => Return r
     end,
     {| self := self w;
        trace := trace w ++ [Executed query vv (client (self w) (trace w) query vv)] |}).
Proof.
  intros Hf.
  unfold _execute_query, load_from_cache, save_to_cache, client_execute, mbind, M_bind, bind, gets, when, mret, M_ret, ret.
  rewrite Hf. simpl.
  destruct (client (self w) (trace w) query vv) as [e|r]; simpl; [done|].
  by rewrite Hf.
Qed.

Lemma network_calls_snoc_executed t q vv r :
  network_calls (t ++ [Executed q vv r]) = S (network_calls t).
Proof.
  unfold network_calls, executed. rewrite omap_app, length_app. simpl. lia.
Qed.

(** Claim C5, at an empty cache. A client given a cache with no entry in it
    runs the same query twice over the network and leaves the cache empty
    and the clear flag as it was. *)
Theorem empty_cache_never_filled transport flag query variable_values :
  let api := {| cache := Some ∅; clear_cache := flag; client := transport |} in
  let first := _execute_query hash_data_request query variable_values
                 (initial_world api) in
  let second := _execute_query hash_data_request query variable_values first.2 in
  network_calls (trace second.2) = 2%nat
  ∧ cache (self second.2) = Some ∅
  ∧ clear_cache (self second.2) = flag.
Proof.
  intros api first second. subst first second.
  rewrite (_execute_query_falsy query variable_values (initial_world api)) by done.
  cbn [snd].
  rewrite _execute_query_falsy by done.
  cbn [snd trace self]. rewrite !network_calls_snoc_executed. done.
Qed.

(** A cache that is true in Python and holds the key: the result comes from
    it, after the pending clear if there is one. *)
Lemma _execute_query_hit query vv w c r tag :
  cache (self w) = Some c → clear_cache (self w) = false →
  c !! hash_data_request query vv = Some (r, tag) →
  _execute_query hash_data_request query vv w
  = (Return r,
     {| self := self w;
        trace := trace w ++ [CacheHit (hash_data_request query vv) r] |}).
Proof.
  destruct w as [[c0 f cl] t]. simpl. intros -> -> Hk.
  unfold _execute_query, load_from_cache, cache_lookup, mbind, M_bind, bind, gets,
    when, emit, modify, mret, M_ret, ret.
  cbn [self cache clear_cache trace client].
  rewrite (truthy_lookup c _ _ Hk).
  cbn [self cache clear_cache trace client option_bind]. unfold cache_getitem.
  rewrite Hk. reflexivity.
Qed.

Lemma truthy_foreign {V} (c : Cache V) k0 v0 t0 flag :
  c !! k0 = Some (v0, t0) → t0 ≠ cache_tag →
  truthy (Some (if flag : bool then evict cache_tag c else c)) = true.
Proof.
  intros Hk Ht. destruct flag; [|by eapply truthy_lookup].
  eapply truthy_lookup. apply lookup_evict. done.
Qed.

(** The first call, on a cache that holds an entry of another kind of
    client: it returns with the result stored under the key and the flag
    down, after at most one call over the network. *)
Lemma _execute_query_stores query vv w c k0 v0 t0 r w' :
  cache (self w) = Some c → c !! k0 = Some (v0, t0) → t0 ≠ cache_tag →
  _execute_query hash_data_request query vv w = (Return r, w') →
  clear_cache (self w') = false
  ∧ (∃ c' tag, cache (self w') = Some c'
               ∧ c' !! hash_data_request query vv = Some (r, tag))
  ∧ (network_calls (trace w') ≤ S (network_calls (trace w)))%nat.
Proof.
  destruct w as [[c0 f cl] t]. simpl. intros -> Hk Ht.
  pose proof (truthy_foreign c k0 v0 t0 f Hk Ht) as Htr.
  pose proof (truthy_lookup c _ _ Hk) as Htr0.
  unfold _execute_query, load_from_cache, save_to_cache, cache_lookup, client_execute,
    mbind, M_bind, bind, gets, when, emit, set_cache, set_clear_cache, modify, mret,
    M_ret, ret.
  cbn [self cache clear_cache trace client]. rewrite Htr0.
  destruct f; cbn [self cache clear_cache trace client fmap option_fmap option_map
                   option_bind] in Htr |- *.
  - destruct (cache_getitem (hash_data_request query vv) (evict cache_tag c))
      as [r0|] eqn:Hg.
    + cbn [self cache clear_cache trace client].
      intros [= <- <-]. cbn [self cache clear_cache trace]. split; [done|]. split.
      * unfold cache_getitem in Hg.
        destruct (evict cache_tag c !! hash_data_request query vv) as [[r1 t1]|] eqn:Hl;
          [|done].
        simpl in Hg. injection Hg as ->. by eexists _, _.
      * unfold network_calls, executed. rewrite !omap_app. simpl.
        rewrite !app_nil_r. lia.
    + cbn [self cache clear_cache trace client].
      match goal with |- context [cl ?a ?b ?d] => destruct (cl a b d) as [e|r1] end;
        [done|].
      cbn [self cache clear_cache trace]. rewrite Htr.
      intros [= <- <-]. cbn [self cache clear_cache trace fmap option_fmap option_map].
      split; [done|]. split.
      * eexists _, _. split; [done|]. unfold cache_set. apply lookup_insert_eq.
      * unfold network_calls, executed. rewrite !omap_app, !length_app. simpl. lia.
  - destruct (cache_getitem (hash_data_request query vv) c) as [r0|] eqn:Hg.
    + cbn [self cache clear_cache trace client].
      intros [= <- <-]. cbn [self cache clear_cache trace]. split; [done|]. split.
      * unfold cache_getitem in Hg.
        destruct (c !! hash_data_request query vv) as [[r1 t1]|] eqn:Hl; [|done].
        simpl in Hg. injection Hg as ->. by eexists _, _.
      * unfold network_calls, executed. rewrite !omap_app. simpl.
        rewrite !app_nil_r. lia.
    + cbn [self cache clear_cache trace client].
      match goal with |- context [cl ?a ?b ?d] => destruct (cl a b d) as [e|r1] end;
        [done|].
      cbn [self cache clear_cache trace]. rewrite Htr0.
      intros [= <- <-]. cbn [self cache clear_cache trace fmap option_fmap option_map].
      split; [done|]. split.
      * eexists _, _. split; [done|]. unfold cache_set. apply lookup_insert_eq.
      * unfold network_calls, executed. rewrite !omap_app, !length_app. simpl. lia.
Qed.

(** The same query twice, with a cache that holds an entry of another kind
    of client: the second call is served from the cache. *)
Theorem same_query_twice api c k0 v0 t0 query vv r w1 :
  cache api = Some c → c !! k0 = Some (v0, t0) → t0 ≠ cache_tag →
  _execute_query hash_data_request query vv (initial_world api) = (Return r, w1) →
  _execute_query hash_data_request query vv w1
  = (Return r, {| self := self w1;
                  trace := trace w1 ++ [CacheHit (hash_data_request query vv) r] |})
  ∧ (network_calls (trace w1 ++ [CacheHit (hash_data_request query vv) r]) ≤ 1)%nat.
Proof.
  intros Hc Hk Ht Hrun.
  destruct (_execute_query_stores query vv (initial_world api) c k0 v0 t0 r w1
              Hc Hk Ht Hrun) as (Hf & (c' & tag & Hc' & Hl) & Hn).
  split; [by eapply _execute_query_hit|].
  unfold network_calls, executed in *. rewrite omap_app, length_app. simpl in *. lia.
Qed.

(** A call that fails writes nothing to the cache, and a write follows a
    call over the network that was answered. *)
Theorem failed_query_not_stored query vv w e w' :
  _execute_query hash_data_request query vv w = (Raise e, w') →
  (cache (self w') = cache (self w)
   ∨ cache (self w') = evict cache_tag <$> cache (self w))
  ∧ ∃ evs, trace w' = trace w ++ evs ∧ cache_writes evs = [].
Proof.
  unfold _execute_query, load_from_cache, save_to_cache, cache_lookup, client_execute,
    mbind, M_bind, bind, gets, when, emit, set_cache, set_clear_cache, modify, mret,
    M_ret, ret.
  simpl. intros H.
  repeat case_match; simplify_eq/=;
    (split; [auto|eexists; split; [rewrite <- ?app_assoc; reflexivity|reflexivity]]).
Qed.

(** The clear flag: one eviction of the tag of this kind of client, right
    before the lookup, by the first call that finds the cache true; the
    flag is down from then on. *)
Theorem clear_flag_consumed query vv w o w' :
  _execute_query hash_data_request query vv w = (o, w') →
  ∃ evs, trace w' = trace w ++ evs
    ∧ evictions evs
      = (if truthy (cache (self w)) && clear_cache (self w) then [cache_tag] else [])
    ∧ clear_cache (self w')
      = (if truthy (cache (self w)) then false else clear_cache (self w))
    ∧ (truthy (cache (self w)) && clear_cache (self w) = true →
         ∃ hit rest,
           evs = CacheEvict cache_tag :: hit :: rest
           ∧ (hit = CacheMiss (hash_data_request query vv)
              ∨ ∃ r, hit = CacheHit (hash_data_request query vv) r)).
Proof.
  unfold _execute_query, load_from_cache, save_to_cache, cache_lookup, client_execute,
    mbind, M_bind, bind, gets, when, emit, set_cache, set_clear_cache, modify, mret,
    M_ret, ret.
  simpl. intros H.
  destruct (truthy (cache (self w))) eqn:Htr; simpl in H |- *.
  - destruct (clear_cache (self w)) eqn:Hf; simpl in H |- *.
    + repeat case_match; simplify_eq/=;
        (eexists; split; [rewrite <- ?app_assoc; reflexivity|]);
        (split; [reflexivity|]; split; [reflexivity|]; intros _;
         eexists _, _; split; [reflexivity|]; eauto).
    + repeat case_match; simplify_eq/=;
        (eexists; split; [rewrite <- ?app_assoc; reflexivity|]);
        (split; [reflexivity|]; split; [done|]; done).
  - repeat case_match; simplify_eq/=;
      (eexists; split; [rewrite <- ?app_assoc; reflexivity|]);
      (split; [reflexivity|]; split; [done|]; done).
Qed.

End APIProps.

Lemma get_nodes_dedup_witness :
  let run := get_nodes hash_node hash_request search_members 3 "q" None
               (initial_world (no_cache two_pages_transport)) in
  NoDup (node_identity hash_node <$> yielded (trace run.2)).
Proof.
  exact (proj1 (get_nodes_dedup hash_node hash_request search_members
                  (no_cache two_pages_transport) 3 "q" None _ _ eq_refl)).
Defined.

Lemma get_nodes_short_of_total :
  let run := get_nodes_pages hash_node hash_request 3 "members" "q" None
               (initial_world (no_cache short_transport)) in
  ∃ l, run.1 = Return l
       ∧ duplicates_count l = 0
       ∧ declared_count l = Some 3
       ∧ length (yielded (trace run.2)) = 1%nat.
Proof. eexists. split_and!; reflexivity. Qed.

Lemma two_pages_with_duplicate_witness :
  search_members "q" = Some "members" ∧ (2 ≤ 2)%nat
  ∧ let run := get_nodes hash_node hash_request search_members 2 "q" None
                 (initial_world (no_cache two_pages_transport)) in
    yielded (trace run.2) = [node_A; node_B; node_C]
    ∧ run.1 = Raise (AssertionError (DuplicateNodes 1)).
Proof.
  split; [reflexivity|]. split; [lia|].
  apply (two_pages_with_duplicate hash_node hash_request search_members "q" 2);
    [reflexivity | lia].
Defined.

Lemma two_pages_raise :
  let run := get_nodes hash_node hash_request search_members 2 "q" None
               (initial_world (no_cache two_pages_transport)) in
  yielded (trace run.2) = [node_A; node_B; node_C]
  ∧ run.1 = Raise (AssertionError (DuplicateNodes 1))
  ∧ run.1 ≠ Return tt.
Proof. split_and!; [reflexivity | reflexivity | discriminate]. Qed.

Lemma same_query_twice_witness :
  let r := members 3 true (Some "c1") [node_A; node_B; node_A] in
  let w1 := first_call.2 in
  _execute_query hash_request "q" first_cursor w1
  = (Return r, {| self := self w1;
                  trace := trace w1 ++ [CacheHit (hash_request "q" first_cursor) r] |})
  ∧ (network_calls (trace w1 ++ [CacheHit (hash_request "q" first_cursor) r]) ≤ 1)%nat.
Proof.
  intros r w1.
  apply (same_query_twice hash_request
           (with_cache shared_cache true two_pages_transport)
           shared_cache "export.csv" ∅ "memberfulcsv" "q" first_cursor r w1);
    [reflexivity | vm_compute; reflexivity | discriminate | vm_compute; reflexivity].
Defined.

Lemma failed_query_not_stored_witness :
  let run := _execute_query hash_request "q" first_cursor
               (initial_world (with_cache shared_cache false failing_transport)) in
  (cache (self run.2) = Some shared_cache
   ∨ cache (self run.2) = evict cache_tag <$> Some shared_cache)
  ∧ ∃ evs, trace run.2 = [] ++ evs ∧ cache_writes evs = [].
Proof.
  exact (failed_query_not_stored hash_request "q" first_cursor
           (initial_world (with_cache shared_cache false failing_transport))
           _ _ eq_refl).
Defined.

Lemma clear_flag_consumed_witness :
  let run := _execute_query hash_request "q" first_cursor
               (initial_world (with_cache shared_cache true two_pages_transport)) in
  ∃ evs, trace run.2 = [] ++ evs
    ∧ evictions evs = [cache_tag]
    ∧ clear_cache (self run.2) = false.
Proof.
  destruct (clear_flag_consumed hash_request "q" first_cursor
              (initial_world (with_cache shared_cache true two_pages_transport))
              _ _ eq_refl) as (evs & H1 & H2 & H3 & _).
  exists evs. split; [exact H1|]. split; [exact H2|exact H3].
Defined.

(** ** Runs seen as a world and the events added to it *)

Definition extend (w : World) (evs : list Event) : World :=
  {| self := self w; trace := trace w ++ evs |}.

(** Events that are no request, no answer and no cursor: what the consumer
    of the pages adds. *)
Definition silent (evs : list Event) : Prop :=
  executed evs = [] ∧ results_received evs = [] ∧ cursors_sent evs = [].

(** A computation that does not look at the world: it gives the same
    outcome and adds the same events wherever it runs, and leaves the
    client as it is. *)
Definition blind {A} (c : M World A) : Prop :=
  ∃ o evs, silent evs ∧ ∀ w, c w = (o, extend w evs).

(** The cache holds [r] under [k]. *)
Definition holds (w : World) (k : string) (r : Result) : Prop :=
  ∃ c tag, cache (self w) = Some c ∧ c !! k = Some (r, tag).

Definition grows (w w' : World) : Prop := ∀ k r, holds w k r → holds w' k r.

Definition cursor_twice : Exception :=
  TypeError "dict() got multiple values for keyword argument 'cursor'".

Lemma extend_nil w : extend w [] = w.
Proof. destruct w. unfold extend. simpl. by rewrite app_nil_r. Qed.

Lemma extend_extend w e1 e2 : extend (extend w e1) e2 = extend w (e1 ++ e2).
Proof. unfold extend. simpl. by rewrite app_assoc. Qed.

Lemma executed_app t1 t2 : executed (t1 ++ t2) = executed t1 ++ executed t2.
Proof. apply omap_app. Qed.

Lemma silent_nil : silent [].
Proof. done. Qed.

Lemma silent_app e1 e2 : silent e1 → silent e2 → silent (e1 ++ e2).
Proof.
  intros (H1 & H2 & H3) (G1 & G2 & G3). unfold silent.
  by rewrite executed_app, results_received_app, cursors_sent_app, H1, H2, H3, G1, G2, G3.
Qed.

Lemma blind_ret {A} (a : A) : blind (ret a : M World A).
Proof. exists (Return a), []. split; [done|]. intros w. by rewrite extend_nil. Qed.

Lemma blind_raise {A} e : blind (raise e : M World A).
Proof. exists (Raise e), []. split; [done|]. intros w. by rewrite extend_nil. Qed.

Lemma blind_bind {A B} (c : M World A) (k : A → M World B) :
  blind c → (∀ a, blind (k a)) → blind (c ≫= k).
Proof.
  intros (o & evs & Hs & Hc) Hk. destruct o as [a|e|].
  - destruct (Hk a) as (o' & evs' & Hs' & Hk').
    exists o', (evs ++ evs'). split; [by apply silent_app|].
    intros w. rewrite bind_run, Hc, Hk'. by rewrite extend_extend.
  - exists (Raise e), evs. split; [done|]. intros w. by rewrite bind_run, Hc.
  - exists Diverge, evs. split; [done|]. intros w. by rewrite bind_run, Hc.
Qed.

Lemma blind_yield n : blind (emit (Yield n)).
Proof. exists (Return tt), [Yield n]. split; [done|]. done. Qed.


(** ** What the stream has to yield *)

(** The nodes of a page. *)
Definition nodes_in (cn : string) (r : Result) : list Node :=
  match r !! cn with
  | Some coll => node <$> edges coll
  | None => []
  end.

(** A list without the elements whose key is in [seen] or occurred earlier
    in the list. *)
Fixpoint first_occurrences {A} (key : A → string) (seen : gset string) (l : list A)
    : list A :=
  match l with
  | [] => []
  | x :: l' =>
      if decide (key x ∈ seen) then first_occurrences key seen l'
      else x :: first_occurrences key ({[key x]} ∪ seen) l'
  end.

(** The page declares [d] nodes in all. *)
Definition page_counts (cn : string) (d : Z) (r : Result) : Prop :=
  ∃ coll, r !! cn = Some coll ∧ totalCount coll = d.

Lemma union_seen_already (x : string) (s seen : gset string) :
  x ∈ seen → s ∪ seen = ({[x]} ∪ s) ∪ seen.
Proof.
  intros Hx. apply set_eq. intros y. rewrite !elem_of_union, elem_of_singleton.
  split; [tauto|]. intros [[->|?]|?]; tauto.
Qed.

Lemma union_seen_now (x : string) (s seen : gset string) :
  s ∪ ({[x]} ∪ seen) = ({[x]} ∪ s) ∪ seen.
Proof.
  apply set_eq. intros y. rewrite !elem_of_union, elem_of_singleton. tauto.
Qed.

Lemma first_occurrences_app {A} (key : A → string) l1 : ∀ seen l2,
  first_occurrences key seen (l1 ++ l2)
  = first_occurrences key seen l1
    ++ first_occurrences key (list_to_set (key <$> l1) ∪ seen) l2.
Proof.
  induction l1 as [|x l1 IH]; intros seen l2.
  - simpl. by rewrite (left_id_L ∅ (∪)).
  - rewrite fmap_cons, list_to_set_cons. simpl.
    destruct (decide (key x ∈ seen)) as [Hin|Hin].
    + rewrite IH. do 2 f_equal. by apply union_seen_already.
    + simpl. rewrite IH. do 3 f_equal. apply union_seen_now.
Qed.

Lemma first_occurrences_sublist {A} (key : A → string) l : ∀ seen,
  sublist (first_occurrences key seen l) l.
Proof.
  induction l as [|x l IH]; intros seen; [done|]. simpl.
  destruct (decide _); [by apply sublist_cons|by apply sublist_skip].
Qed.

Lemma first_occurrences_complete {A} (key : A → string) l : ∀ seen x,
  x ∈ l → key x ∈ seen ∨ key x ∈ key <$> first_occurrences key seen l.
Proof.
  induction l as [|y l IH]; intros seen x Hx; [by apply elem_of_nil in Hx|].
  simpl. apply elem_of_cons in Hx as [->|Hx].
  - destruct (decide (key y ∈ seen)); [by left|right]. rewrite fmap_cons. by left.
  - destruct (decide (key y ∈ seen)); [by apply IH|].
    destruct (IH ({[key y]} ∪ seen) x Hx) as [H|H].
    + apply elem_of_union in H as [H|H]; [|by left].
      apply elem_of_singleton in H. right. rewrite fmap_cons, H. by left.
    + right. rewrite fmap_cons. by right.
Qed.

Lemma sublist_same_length {A} (l1 l2 : list A) :
  sublist l1 l2 → length l1 = length l2 → l1 = l2.
Proof.
  induction 1 as [|x l1 l2 Hs IH|x l1 l2 Hs IH]; intros Hlen; [done| |].
  - f_equal. apply IH. simpl in Hlen. lia.
  - apply sublist_length in Hs. simpl in Hlen. lia.
Qed.

Section APIMore.
Variable hash_data : Node -> string.
Variable hash_data_request : string -> VariableValues -> string.
Variable COLLECTION_NAME_RE_search : string -> option string.
Local Set Default Proof Using "Type".

Lemma blind_visit_edge l e : blind (visit_edge hash_data l e).
Proof.
  unfold visit_edge. destruct (decide _); [apply blind_ret|].
  apply blind_bind; [apply blind_yield|]. intros _. apply blind_ret.
Qed.

Lemma blind_visit_edges es : ∀ l, blind (visit_edges hash_data es l).
Proof.
  induction es as [|e es IH]; intros l; [apply blind_ret|].
  simpl. apply blind_bind; [apply blind_visit_edge|done].
Qed.

Lemma blind_getitem r cn : blind (getitem r cn).
Proof. unfold getitem. destruct (r !! cn); [apply blind_ret|apply blind_raise]. Qed.

Lemma blind_visit_result cn r l : blind (visit_result hash_data cn r l).
Proof.
  unfold visit_result. apply blind_bind; [apply blind_getitem|]. intros coll.
  apply blind_bind; [|intros _; apply blind_visit_edges].
  unfold assert. destruct (_ =? _)%Z; [apply blind_ret|apply blind_raise].
Qed.

Lemma blind_page_info_in cn r : blind (page_info_in cn r).
Proof.
  unfold page_info_in. apply blind_bind; [apply blind_getitem|]. intros coll.
  apply blind_ret.
Qed.

(** One iteration of [while cursor is not None]. *)
Lemma _query_step {A} fuel query gpi vv (body : Result → A → M World A) c acc w :
  _query_while hash_data_request (S fuel) query gpi vv body (Some c) acc w
  = match vv !! "cursor" with
    | Some _ => (Raise cursor_twice, extend w [SendingQuery c])
    | None =>
        match _execute_query hash_data_request query (<["cursor" := c]> vv)
                (extend w [SendingQuery c]) with
        | (Return r, w1) =>
            match body r acc w1 with
            | (Return acc', w2) =>
                match gpi r w2 with
                | (Return p, w3) =>
                    _query_while hash_data_request fuel query gpi vv body
                      (if hasNextPage p then endCursor p else None) acc' w3
                | (Raise e, w3) => (Raise e, w3)
                | (Diverge, w3) => (Diverge, w3)
                end
            | (Raise e, w2) => (Raise e, w2)
            | (Diverge, w2) => (Diverge, w2)
            end
        | (Raise e, w1) => (Raise e, w1)
        | (Diverge, w1) => (Diverge, w1)
        end
    end.
Proof.
  cbn [_query_while]. unfold mbind, M_bind, bind, emit, modify, dict_cursor, raise, ret.
  cbn [fst snd]. by destruct (vv !! "cursor").
Qed.

(** ** A drain answered from the cache *)

Lemma holds_truthy w k r : holds w k r → truthy (cache (self w)) = true.
Proof. intros (c & tag & Hc & Hk). rewrite Hc. by eapply truthy_lookup. Qed.

Lemma _execute_query_held query vv w r :
  holds w (hash_data_request query vv) r → clear_cache (self w) = false →
  _execute_query hash_data_request query vv w
  = (Return r, extend w [CacheHit (hash_data_request query vv) r]).
Proof. intros (c & tag & Hc & Hk) Hf. by eapply _execute_query_hit. Qed.

(** With the clear flag down and a cache that is true in Python, a call
    that returns leaves its result in the cache and takes nothing out. *)
Lemma _execute_query_fills query vv w r w' :
  truthy (cache (self w)) = true → clear_cache (self w) = false →
  _execute_query hash_data_request query vv w = (Return r, w') →
  holds w' (hash_data_request query vv) r ∧ grows w w'
  ∧ clear_cache (self w') = false ∧ truthy (cache (self w')) = true.
Proof.
  destruct w as [[c0 f cl] t]. simpl. intros Htr ->.
  destruct c0 as [c|]; [|done].
  unfold _execute_query, load_from_cache, save_to_cache, cache_lookup, client_execute,
    mbind, M_bind, bind, gets, when, emit, set_cache, set_clear_cache, modify, mret,
    M_ret, ret.
  cbn [self cache clear_cache trace client]. rewrite Htr.
  cbn [self cache clear_cache trace client fmap option_fmap option_map option_bind].
  unfold cache_getitem.
  destruct (c !! hash_data_request query vv) as [[r0 tag]|] eqn:Hk;
    cbn [fmap option_fmap option_map fst self cache clear_cache trace client].
  - intros [= <- <-]. cbn [self cache clear_cache]. split_and!; try done.
    + by exists c, tag.
    + by intros k r1.
  - match goal with |- context [cl ?a ?b ?d] => destruct (cl a b d) as [e|r1] end;
      [done|].
    cbn [self cache clear_cache trace]. rewrite Htr.
    cbn [self cache clear_cache trace fmap option_fmap option_map].
    intros [= <- <-]. cbn [self cache clear_cache]. split_and!.
    + eexists _, _. split; [done|]. unfold cache_set. apply lookup_insert_eq.
    + intros k r0 (c1 & tag1 & [= <-] & Hk1). eexists _, tag1. split; [done|].
      unfold cache_set. rewrite lookup_insert_ne; [done|]. congruence.
    + done.
    + eapply truthy_lookup. unfold cache_set. apply lookup_insert_eq.
Qed.

Lemma grows_refl w : grows w w.
Proof. by intros k r. Qed.

Lemma grows_trans w1 w2 w3 : grows w1 w2 → grows w2 w3 → grows w1 w3.
Proof. intros H1 H2 k r H. by apply H2, H1. Qed.

Lemma grows_extend w evs : grows w (extend w evs) ∧ grows (extend w evs) w.
Proof. split; by intros k r. Qed.

(** What a second run adds to the trace, against the first. *)
Record replayed (evs evs2 : list Event) : Prop :=
  { replayed_offline : executed evs2 = [];
    replayed_yields : yielded evs2 = yielded evs;
    replayed_pages : results_received evs2 = results_received evs;
    replayed_cursors : cursors_sent evs2 = cursors_sent evs }.

Lemma replayed_silent evs : silent evs → yielded evs = yielded evs → replayed evs evs.
Proof. intros (H1 & H2 & H3) _. by split. Qed.

Lemma _query_replay {A} query gpi vv (body : Result → A → M World A) :
  (∀ r acc, blind (body r acc)) → (∀ r, blind (gpi r)) →
  ∀ fuel c acc w a w',
    truthy (cache (self w)) = true → clear_cache (self w) = false →
    _query_while hash_data_request fuel query gpi vv body c acc w = (Return a, w') →
    grows w w' ∧ clear_cache (self w') = false
    ∧ ∃ evs, trace w' = trace w ++ evs
        ∧ ∀ w2, grows w' w2 → clear_cache (self w2) = false →
            ∃ evs2, _query_while hash_data_request fuel query gpi vv body c acc w2
                    = (Return a, extend w2 evs2)
                    ∧ replayed evs evs2.
Proof.
  intros Hbody Hgpi. induction fuel as [|fuel IH]; intros c acc w a w' Htr Hf Hrun.
  { destruct c; [done|]. injection Hrun as <- <-.
    split; [apply grows_refl|]. split; [done|]. exists []. split; [by rewrite app_nil_r|].
    intros w2 _ _. exists []. by rewrite extend_nil. }
  destruct c as [c|].
  { rewrite _query_step in Hrun.
    destruct (vv !! "cursor") eqn:Hvv; [done|].
    set (w0 := extend w [SendingQuery c]) in Hrun.
    destruct (_execute_query_trace hash_data_request query (<["cursor":=c]> vv) w0)
      as (evs1 & Ht1 & Hy1 & Hc1 & Hr1 & _).
    destruct (_execute_query hash_data_request query (<["cursor":=c]> vv) w0)
      as [[r|e|] w1] eqn:Hexec; [|done|done].
    simpl in Ht1, Hr1.
    destruct (_execute_query_fills query _ w0 r w1 Htr Hf Hexec)
      as (Hheld & Hg1 & Hf1 & Htr1).
    destruct (Hbody r acc) as (ob & evsb & Hsb & Hb). rewrite Hb in Hrun.
    destruct ob as [acc'|e|]; [|done|done].
    destruct (Hgpi r) as (op & evsp & Hsp & Hp). rewrite Hp in Hrun.
    destruct op as [p|e|]; [|done|done].
    rewrite extend_extend in Hrun.
    destruct (IH _ acc' (extend w1 (evsb ++ evsp)) a w' Htr1 Hf1 Hrun)
      as (Hg & Hf' & evs & Ht & Hreplay).
    split; [by eapply grows_trans|]. split; [done|].
    exists ([SendingQuery c] ++ evs1 ++ (evsb ++ evsp) ++ evs). split.
    { rewrite Ht. simpl. rewrite Ht1. subst w0. simpl. by rewrite <- !app_assoc. }
    intros w2 Hg2 Hf2.
    rewrite _query_step, Hvv.
    rewrite (_execute_query_held query (<["cursor":=c]> vv) (extend w2 [SendingQuery c]) r);
      [|by apply Hg2, Hg|done].
    rewrite Hb, Hp, !extend_extend.
    destruct (Hreplay (extend w2 ([SendingQuery c]
                ++ [CacheHit (hash_data_request query (<["cursor":=c]> vv)) r]
                ++ evsb ++ evsp)))
      as (evs2 & Hrun2 & [R1 R2 R3 R4]); [done|done|].
    rewrite Hrun2, extend_extend. eexists. split; [reflexivity|].
    destruct Hsb as (Sb1 & Sb2 & Sb3), Hsp as (Sp1 & Sp2 & Sp3).
    split.
    - rewrite !executed_app, R1, Sb1, Sp1. done.
    - rewrite !yielded_app, R2, Hy1. done.
    - rewrite !results_received_app, R3, Hr1. done.
    - rewrite !cursors_sent_app, R4, Hc1. done. }
  rewrite _query_None in Hrun. injection Hrun as <- <-.
  split; [apply grows_refl|]. split; [done|]. exists []. split; [by rewrite app_nil_r|].
  intros w2 _ _. exists []. by rewrite _query_None, extend_nil.
Qed.

(** ** What a drain yields *)

(** The local variables of [get_nodes] against the nodes seen so far. *)
Record tally (l : Locals) (t : list Event) (seen : list Node) : Prop :=
  { tally_yielded :
      yielded t = first_occurrences (node_identity hash_data) ∅ seen;
    tally_seen :
      seen_node_ids l = list_to_set (node_identity hash_data <$> seen);
    tally_nodes : nodes_count l = Z.of_nat (length seen);
    tally_duplicates :
      duplicates_count l = Z.of_nat (length seen) - Z.of_nat (length (yielded t)) }.

(** The count saved from the first page, against the pages seen so far. *)
Definition counted (cn : string) (l : Locals) (pages : list Result) : Prop :=
  match declared_count l with
  | None => pages = []
  | Some d => pages ≠ [] ∧ ∀ r, r ∈ pages → page_counts cn d r
  end.

(** Why the body of the loop gave up on a page. *)
Definition gave_up (cn : string) (pages : list Result) (r : Result)
    (out : Outcome Locals) : Prop :=
  (r !! cn = None ∧ out = Raise (KeyError cn))
  ∨ ∃ coll d, r !! cn = Some coll ∧ d ≠ totalCount coll
              ∧ pages ≠ [] ∧ (∀ r0, r0 ∈ pages → page_counts cn d r0)
              ∧ out = Raise (AssertionError (DifferentTotalCount (totalCount coll) d)).

Lemma visit_edge_tally l e w seen :
  tally l (trace w) seen →
  ∃ l' w', visit_edge hash_data l e w = (Return l', w')
           ∧ tally l' (trace w') (seen ++ [node e])
           ∧ declared_count l' = declared_count l
           ∧ results_received (trace w') = results_received (trace w).
Proof.
  clear hash_data_request COLLECTION_NAME_RE_search.
  intros [Hy Hs Hn Hd]. unfold visit_edge.
  destruct (decide _) as [Hin|Hnin].
  - eexists _, w. split; [reflexivity|]. split; [|done].
    split; simpl.
    + rewrite Hy, first_occurrences_app. simpl.
      destruct (decide _) as [?|Hn']; [by rewrite app_nil_r|].
      exfalso. apply Hn'. apply elem_of_union. left. by rewrite <- Hs.
    + rewrite Hs, fmap_app, list_to_set_app_L. simpl.
      apply set_eq. intros y. rewrite Hs in Hin.
      rewrite !elem_of_union, elem_of_singleton, elem_of_empty.
      split; [tauto|]. intros [?|[->|[]]]; done.
    + rewrite length_app. simpl. lia.
    + rewrite length_app. simpl. lia.
  - eexists _, _. split; [reflexivity|]. simpl. split; [|split; [done|]].
    + split; simpl.
      * rewrite yielded_snoc_yield, Hy, first_occurrences_app. simpl.
        destruct (decide _) as [Hin'|?]; [|done].
        exfalso. apply Hnin. rewrite (right_id_L ∅ (∪)), <- Hs in Hin'. done.
      * rewrite Hs, fmap_app, list_to_set_app_L. simpl.
        apply set_eq. intros y.
        rewrite !elem_of_union, elem_of_singleton, elem_of_empty. tauto.
      * rewrite length_app. simpl. lia.
      * rewrite yielded_snoc_yield, !length_app. simpl. lia.
    + rewrite results_received_app. simpl. by rewrite app_nil_r.
Qed.

Lemma visit_edges_tally es : ∀ l w seen,
  tally l (trace w) seen →
  ∃ l' w', visit_edges hash_data es l w = (Return l', w')
           ∧ tally l' (trace w') (seen ++ (node <$> es))
           ∧ declared_count l' = declared_count l
           ∧ results_received (trace w') = results_received (trace w).
Proof.
  induction es as [|e es IH]; intros l w seen Ht.
  - eexists l, w. split; [reflexivity|]. simpl. by rewrite app_nil_r.
  - destruct (visit_edge_tally l e w seen Ht) as (l1 & w1 & Hrun & Ht1 & Hd1 & Hr1).
    destruct (IH l1 w1 _ Ht1) as (l2 & w2 & Hrun2 & Ht2 & Hd2 & Hr2).
    exists l2, w2. split.
    + simpl. by rewrite bind_run, Hrun.
    + rewrite fmap_cons, (cons_middle _ seen), app_assoc.
      split; [done|]. split; congruence.
Qed.

Lemma visit_result_tally cn r l w pages :
  tally l (trace w) (pages ≫= nodes_in cn) → counted cn l pages →
  match visit_result hash_data cn r l w with
  | (Return l', w') =>
      tally l' (trace w') ((pages ++ [r]) ≫= nodes_in cn)
      ∧ counted cn l' (pages ++ [r])
      ∧ results_received (trace w') = results_received (trace w)
      ∧ is_Some (r !! cn)
  | (out, w') => w' = w ∧ gave_up cn pages r out
  end.
Proof.
  intros Ht Hc. unfold visit_result, getitem. rewrite bind_run.
  destruct (r !! cn) as [coll|] eqn:Hr; [|split; [done|by left]].
  unfold ret at 1. cbv beta iota. rewrite bind_run. unfold assert.
  destruct (Z.eqb_spec
    match declared_count l with Some d => d | None => totalCount coll end
    (totalCount coll)) as [Heq|Hne].
  2: { split; [done|]. right. unfold counted in Hc.
       destruct (declared_count l) as [d|]; [|done]. destruct Hc as [Hne' Hall].
       by exists coll, d. }
  unfold ret at 1. cbv beta iota.
  set (l0 := {| declared_count := _ |}).
  destruct (visit_edges_tally (edges coll) l0 w (pages ≫= nodes_in cn))
    as (l' & w' & Hrun & Ht' & Hd & Hrr).
  { destruct Ht. split; done. }
  rewrite Hrun. split_and!; [| |done|done].
  - rewrite bind_app. simpl. rewrite app_nil_r. unfold nodes_in at 2. by rewrite Hr.
  - unfold counted. rewrite Hd. simpl. split; [by destruct pages|].
    intros r0 Hr0. apply elem_of_app in Hr0 as [Hr0|Hr0].
    + unfold counted in Hc. destruct (declared_count l) as [d|].
      * by apply Hc.
      * subst pages. by apply elem_of_nil in Hr0.
    + apply list_elem_of_singleton in Hr0 as ->. exists coll. split; [done|].
      by destruct (declared_count l).
Qed.

(** What the run has made of the pages it received: all of them went
    through the body of the loop, or all but the last, on which the body
    gave up. *)
Definition drained (cn : string) (out : Outcome Locals) (w' : World) : Prop :=
  ∃ pages,
    yielded (trace w')
    = first_occurrences (node_identity hash_data) ∅ (pages ≫= nodes_in cn)
    ∧ (∀ r r' d, r ∈ pages → r' ∈ pages → page_counts cn d r → page_counts cn d r')
    ∧ (∀ r, r ∈ pages → is_Some (r !! cn))
    ∧ ((results_received (trace w') = pages
        ∧ ∀ l, out = Return l →
            tally l (trace w') (pages ≫= nodes_in cn) ∧ counted cn l pages)
       ∨ ∃ r, results_received (trace w') = pages ++ [r] ∧ gave_up cn pages r out).

Lemma counted_agree cn l pages r r' d :
  counted cn l pages → r ∈ pages → r' ∈ pages →
  page_counts cn d r → page_counts cn d r'.
Proof.
  unfold counted. destruct (declared_count l) as [d0|].
  - intros [_ Hall] Hr Hr' (coll & Hc & Hd).
    destruct (Hall r Hr) as (coll0 & Hc0 & Hd0). apply Hall in Hr'. congruence.
  - intros ->. intros Hr. by apply elem_of_nil in Hr.
Qed.

Lemma counted_have cn l pages r :
  counted cn l pages → r ∈ pages → is_Some (r !! cn).
Proof.
  unfold counted. destruct (declared_count l) as [d0|].
  - intros [_ Hall] Hr. destruct (Hall r Hr) as (coll & Hc & _). by exists coll.
  - intros ->. intros Hr. by apply elem_of_nil in Hr.
Qed.

Lemma get_nodes_loop_tally cn query vv fuel : ∀ c acc w out w',
  tally acc (trace w) (results_received (trace w) ≫= nodes_in cn) →
  counted cn acc (results_received (trace w)) →
  _query_while hash_data_request fuel query (page_info_in cn) vv
    (visit_result hash_data cn) c acc w = (out, w') →
  drained cn out w'.
Proof.
  assert (Hstay : ∀ acc w out,
    tally acc (trace w) (results_received (trace w) ≫= nodes_in cn) →
    counted cn acc (results_received (trace w)) →
    (∀ l, out = Return l → l = acc) → drained cn out w).
  { intros acc w out Ht Hc Hout. exists (results_received (trace w)).
    split; [by destruct Ht|]. split.
    - intros r r' d. by eapply counted_agree.
    - split; [intros r; by eapply counted_have|].
      left. split; [done|]. intros l Hl. by rewrite (Hout l Hl). }
  induction fuel as [|fuel IH]; intros c acc w out w' Ht Hc Hrun.
  { destruct c; injection Hrun as <- <-; eapply Hstay; try done. by intros l [= ->]. }
  destruct c as [c|].
  2: { rewrite _query_None in Hrun. injection Hrun as <- <-.
       eapply Hstay; try done. by intros l [= ->]. }
  rewrite _query_step in Hrun.
  set (w0 := extend w [SendingQuery c]) in Hrun.
  assert (Hy0 : yielded (trace w0) = yielded (trace w)).
  { subst w0. simpl. rewrite yielded_app. simpl. by rewrite app_nil_r. }
  assert (Hr0 : results_received (trace w0) = results_received (trace w)).
  { subst w0. simpl. rewrite results_received_app. simpl. by rewrite app_nil_r. }
  assert (Ht0 : tally acc (trace w0) (results_received (trace w0) ≫= nodes_in cn)).
  { destruct Ht. split; by rewrite ?Hy0, ?Hr0. }
  rewrite <- Hr0 in Hc. clearbody w0. clear Ht Hy0 Hr0 w.
  destruct (vv !! "cursor") as [x|] eqn:Hvv.
  { injection Hrun as <- <-. by eapply Hstay. }
  destruct (_execute_query_trace hash_data_request query (<["cursor":=c]> vv) w0)
    as (evs & Ht1 & Hy1 & _ & Hr1 & Hnd).
  destruct (_execute_query hash_data_request query (<["cursor":=c]> vv) w0)
    as [[r|e|] w1] eqn:Hexec; simpl in Ht1, Hr1, Hnd; [| |done].
  2: { injection Hrun as <- <-.
       apply (Hstay acc); [ |by rewrite Ht1, results_received_app, Hr1, app_nil_r|done].
       destruct Ht0. rewrite Ht1, results_received_app, Hr1, app_nil_r.
       split; rewrite ?yielded_app, ?Hy1, ?app_nil_r; done. }
  assert (Hyw1 : yielded (trace w1) = yielded (trace w0)).
  { by rewrite Ht1, yielded_app, Hy1, app_nil_r. }
  assert (Hrw1 : results_received (trace w1) = results_received (trace w0) ++ [r]).
  { by rewrite Ht1, results_received_app, Hr1. }
  set (pages := results_received (trace w0)) in *.
  assert (Ht1' : tally acc (trace w1) (pages ≫= nodes_in cn)).
  { destruct Ht0. split; by rewrite ?Hyw1. }
  pose proof (visit_result_tally cn r acc w1 pages Ht1' Hc) as Hbody.
  destruct (visit_result hash_data cn r acc w1) as [[l1|e|] w2] eqn:Hvis.
  2,3: (destruct Hbody as [-> Hg]; injection Hrun as <- <-; exists pages;
        split; [by destruct Ht1'|]; split;
        [intros ? ? ?; by eapply counted_agree|];
        split; [intros ?; by eapply counted_have|right; by exists r]).
  destruct Hbody as (Ht2 & Hc2 & Hrr2 & [coll Hcoll]).
  unfold page_info_in at 1, getitem in Hrun. rewrite bind_run, Hcoll in Hrun.
  unfold ret at 1 2 in Hrun. cbv beta iota in Hrun.
  eapply (IH _ l1 w2 out w'); [| |exact Hrun].
  - by rewrite Hrr2, Hrw1.
  - by rewrite Hrr2, Hrw1.
Qed.

Lemma drained_pages api fuel cn query variable_values out w' :
  get_nodes_pages hash_data hash_data_request fuel cn query variable_values
    (initial_world api) = (out, w') →
  drained cn out w'.
Proof.
  unfold get_nodes_pages, _query. apply get_nodes_loop_tally; [|done].
  split; simpl; done.
Qed.

(** When the loop over the pages ends, the nodes yielded are the nodes of
    the pages received, in their order, without those whose identity
    occurred earlier: none is yielded out of order, and none is lost but as
    a duplicate. The two counters are the number of nodes received and the
    number dropped. *)
Theorem duplicates_dropped_first_kept api fuel cn query variable_values l w' :
  get_nodes_pages hash_data hash_data_request fuel cn query variable_values
    (initial_world api) = (Return l, w') →
  let received := results_received (trace w') ≫= nodes_in cn in
  yielded (trace w') = first_occurrences (node_identity hash_data) ∅ received
  ∧ sublist (yielded (trace w')) received
  ∧ (∀ n, n ∈ received →
       node_identity hash_data n ∈ node_identity hash_data <$> yielded (trace w'))
  ∧ nodes_count l = Z.of_nat (length received)
  ∧ duplicates_count l
    = Z.of_nat (length received) - Z.of_nat (length (yielded (trace w'))).
Proof.
  intros Hrun received. apply drained_pages in Hrun as (pages & Hy & _ & _ & Hcase).
  destruct Hcase as [(Hp & Hl)|(r & _ & [[_ ?]|(? & ? & _ & _ & _ & _ & ?)])];
    [|done..].
  destruct (Hl l eq_refl) as [[_ _ Hn Hd] _]. subst received. rewrite Hp.
  split; [done|]. split; [rewrite Hy; apply first_occurrences_sublist|].
  split; [|done]. intros n Hn'. rewrite Hy.
  destruct (first_occurrences_complete (node_identity hash_data) _ ∅ n Hn') as [H|H];
    [by apply elem_of_empty in H|done].
Qed.

(** A drain that ends without an error has yielded every node of every page
    it received, in the order received. *)
Theorem get_nodes_yields_every_node api fuel query variable_values w' :
  get_nodes hash_data hash_data_request COLLECTION_NAME_RE_search fuel query
    variable_values (initial_world api) = (Return tt, w') →
  ∃ cn, COLLECTION_NAME_RE_search query = Some cn
        ∧ yielded (trace w') = results_received (trace w') ≫= nodes_in cn.
Proof.
  unfold get_nodes. destruct (COLLECTION_NAME_RE_search query) as [cn|]; [|done].
  rewrite bind_run.
  destruct (get_nodes_pages _ _ _ _ _ _ _) as [[l|e|] w1] eqn:Hpages; [|done..].
  intros Hfinal. exists cn. split; [done|].
  assert (w' = w1 ∧ duplicates_count l = 0) as [-> Hzero].
  { unfold final_checks, assert in Hfinal. rewrite bind_run in Hfinal.
    destruct (Z.eqb_spec (duplicates_count l) 0); [|done].
    unfold ret at 1 in Hfinal. destruct (bool_decide _); [|done].
    by injection Hfinal as <-. }
  apply drained_pages in Hpages as (pages & Hy & _ & _ & Hcase).
  destruct Hcase as [(Hp & Hl)|(r & _ & [[_ ?]|(? & ? & _ & _ & _ & _ & ?)])];
    [|done..].
  destruct (Hl l eq_refl) as [[_ _ Hn Hd] _]. rewrite Hp.
  apply sublist_same_length; [rewrite Hy; apply first_occurrences_sublist|]. lia.
Qed.

(** A page that declares another total count than the first page ends the
    drain: the assertion error names the two counts, the page is the last
    one received, and none of its nodes is yielded. *)
Theorem recount_stops_the_drain api fuel cn query variable_values out w' i r0 r coll0 coll :
  get_nodes_pages hash_data hash_data_request fuel cn query variable_values
    (initial_world api) = (out, w') →
  results_received (trace w') !! 0%nat = Some r0 → r0 !! cn = Some coll0 →
  results_received (trace w') !! i = Some r → r !! cn = Some coll →
  totalCount coll ≠ totalCount coll0 →
  out = Raise (AssertionError (DifferentTotalCount (totalCount coll) (totalCount coll0)))
  ∧ length (results_received (trace w')) = S i
  ∧ yielded (trace w')
    = first_occurrences (node_identity hash_data) ∅
        (take i (results_received (trace w')) ≫= nodes_in cn).
Proof.
  intros Hrun H0 Hc0 Hi Hc Hne.
  apply drained_pages in Hrun as (pages & Hy & Hagree & _ & Hcase).
  assert (Hold : ∀ x, x ∈ pages → r0 ∈ pages → page_counts cn (totalCount coll0) x).
  { intros x Hx Hr0. apply (Hagree r0 x); [done..|]. by exists coll0. }
  destruct Hcase as [(Hp & _)|(r' & Hp & Hg)].
  { exfalso. rewrite Hp in H0, Hi. apply list_elem_of_lookup_2 in H0, Hi.
    destruct (Hold r Hi H0) as (coll' & Hc' & Hd'). congruence. }
  rewrite Hp in H0, Hi |- *.
  assert (i = length pages ∧ r' = r) as [-> ->].
  { destruct (decide (i < length pages)%nat) as [Hlt|Hge].
    - exfalso. rewrite lookup_app_l in Hi by done.
      assert (r0 ∈ pages) as Hr0.
      { destruct pages as [|p pages]; [simpl in Hlt; lia|].
        simpl in H0. injection H0 as ->. by left. }
      apply list_elem_of_lookup_2 in Hi.
      destruct (Hold r Hi Hr0) as (coll' & Hc' & Hd'). congruence.
    - apply lookup_lt_Some in Hi as Hi'. rewrite length_app in Hi'. simpl in Hi'.
      assert (i = length pages) as -> by lia. split; [done|].
      rewrite lookup_app_r, Nat.sub_diag in Hi by done. simpl in Hi. congruence. }
  destruct Hg as [[Hnone _]|(coll' & d & Hc' & Hd & Hne' & Hall & ->)]; [congruence|].
  assert (coll' = coll) as -> by congruence.
  assert (d = totalCount coll0) as ->.
  { destruct pages as [|p pages]; [done|]. simpl in H0. injection H0 as ->.
    destruct (Hall r0) as (c' & Hc'' & <-); [by left|]. congruence. }
  split; [done|]. rewrite length_app. simpl. split; [lia|].
  by rewrite take_app_length.
Qed.

(** A page that lacks the collection the query names ends the drain with
    a [KeyError] for that name: the page is the last one received, and the
    nodes yielded are those of the pages before it. *)
Theorem missing_collection_stops_the_drain api fuel cn query variable_values out w' i r :
  get_nodes_pages hash_data hash_data_request fuel cn query variable_values
    (initial_world api) = (out, w') →
  results_received (trace w') !! i = Some r → r !! cn = None →
  out = Raise (KeyError cn)
  ∧ length (results_received (trace w')) = S i
  ∧ yielded (trace w')
    = first_occurrences (node_identity hash_data) ∅
        (take i (results_received (trace w')) ≫= nodes_in cn).
Proof.
  intros Hrun Hi Hnone.
  apply drained_pages in Hrun as (pages & Hy & _ & Hhave & Hcase).
  assert (Hnot : r ∉ pages).
  { intros Hr. apply Hhave in Hr as [coll Hc]. congruence. }
  destruct Hcase as [(Hp & _)|(r' & Hp & Hg)].
  { exfalso. rewrite Hp in Hi. by apply list_elem_of_lookup_2 in Hi. }
  rewrite Hp in Hi |- *.
  assert (i = length pages ∧ r' = r) as [-> ->].
  { destruct (decide (i < length pages)%nat) as [Hlt|Hge].
    - exfalso. rewrite lookup_app_l in Hi by done.
      by apply list_elem_of_lookup_2 in Hi.
    - apply lookup_lt_Some in Hi as Hi'. rewrite length_app in Hi'. simpl in Hi'.
      assert (i = length pages) as -> by lia. split; [done|].
      rewrite lookup_app_r, Nat.sub_diag in Hi by done. simpl in Hi. congruence. }
  destruct Hg as [[_ ->]|(coll' & d & Hc' & _)]; [|congruence].
  split; [done|]. rewrite length_app. simpl. split; [lia|].
  by rewrite take_app_length.
Qed.

(** Offline again: with the clear flag down and a cache that is true in
    Python, a drain that ended without an error can be repeated; the second
    drain ends the same way and yields the same nodes without one call over
    the network. *)
Theorem drained_again_offline api fuel query variable_values w1 :
  truthy (cache api) = true → clear_cache api = false →
  get_nodes hash_data hash_data_request COLLECTION_NAME_RE_search fuel query
    variable_values (initial_world api) = (Return tt, w1) →
  ∃ evs, get_nodes hash_data hash_data_request COLLECTION_NAME_RE_search fuel query
           variable_values w1 = (Return tt, extend w1 evs)
         ∧ executed evs = []
         ∧ yielded evs = yielded (trace w1).
Proof.
  intros Htr Hf. unfold get_nodes.
  destruct (COLLECTION_NAME_RE_search query) as [cn|]; [|done].
  rewrite !bind_run. unfold get_nodes_pages, _query.
  destruct (_query_while _ _ _ _ _ _ _ _ (initial_world api)) as [[l|e|] w'] eqn:Hrun;
    [|done|done].
  intros Hfinal.
  assert (Hpure : ∀ w, final_checks l w = ((final_checks l w').1, w)).
  { intros w. unfold final_checks, assert, mbind, M_bind, bind, ret, raise.
    destruct (_ =? _)%Z; [|done]. by destruct (bool_decide _). }
  rewrite Hpure in Hfinal. injection Hfinal as Hout <-.
  destruct (_query_replay query _ (default ∅ variable_values)
              (visit_result hash_data cn)
              (blind_visit_result cn) (blind_page_info_in cn)
              fuel (Some "") initial (initial_world api) l w' Htr Hf Hrun)
    as (_ & Hf' & evs & Ht & Hreplay).
  destruct (Hreplay w' (grows_refl w') Hf') as (evs2 & Hrun2 & [R1 R2 R3 R4]).
  exists evs2. unfold page_info_in in Hrun2. rewrite Hrun2, Hpure, Hout.
  split; [done|]. split; [done|]. rewrite R2, Ht. done.
Qed.

(** ** Mutations and the cache *)

(** A mutation is one call over the network, and leaves the client and its
    cache as they are: a query that was cached before it is still
    answered from the cache after it. *)
Theorem mutation_keeps_cache query vv w r mutation mutation_values :
  holds w (hash_data_request query vv) r → clear_cache (self w) = false →
  let after := mutate mutation mutation_values w in
  after.2 = extend w [Executed mutation mutation_values
                        (client (self w) (trace w) mutation mutation_values)]
  ∧ _execute_query hash_data_request query vv after.2
    = (Return r, extend after.2 [CacheHit (hash_data_request query vv) r]).
Proof.
  intros Hh Hf after.
  assert (Hafter : after.2 = extend w [Executed mutation mutation_values
                     (client (self w) (trace w) mutation mutation_values)]).
  { subst after. unfold mutate, client_execute.
    by destruct (client (self w) (trace w) mutation mutation_values). }
  split; [done|]. apply _execute_query_held; rewrite Hafter; done.
Qed.

(** ** The requests of a drain *)

Lemma _execute_query_executed query vv w :
  ∃ evs, trace (_execute_query hash_data_request query vv w).2 = trace w ++ evs
         ∧ cursors_sent evs = []
         ∧ (executed evs = [] ∨ executed evs = [(query, vv)]).
Proof.
  unfold _execute_query, load_from_cache, save_to_cache, cache_lookup, client_execute,
    mbind, M_bind, bind, gets, when, emit, set_cache, set_clear_cache, modify, mret,
    M_ret, ret.
  simpl.
  repeat case_match; simplify_eq/=;
    (eexists; split; [rewrite <- ?app_assoc; reflexivity|split; [reflexivity|auto]]).
Qed.

(** What the requests of a run are made of. *)
Definition carried (query : string) (vv : VariableValues) (evs : list Event) : Prop :=
  Forall (λ x, x.1 = query ∧ ∃ c, c ∈ cursors_sent evs ∧ x.2 = <["cursor" := c]> vv)
         (executed evs)
  ∧ (length (executed evs) ≤ length (cursors_sent evs))%nat.

Lemma carried_app query vv e1 e2 :
  carried query vv e1 → carried query vv e2 → carried query vv (e1 ++ e2).
Proof.
  intros [H1 L1] [H2 L2]. unfold carried.
  rewrite executed_app, cursors_sent_app, !length_app. split; [|lia].
  apply Forall_app. split; eapply Forall_impl; try done.
  - intros x (? & c & ? & ?). split; [done|]. exists c. split; [|done].
    apply elem_of_app. by left.
  - intros x (? & c & ? & ?). split; [done|]. exists c. split; [|done].
    apply elem_of_app. by right.
Qed.

Lemma carried_silent query vv evs : silent evs → carried query vv evs.
Proof. intros (H1 & _ & _). unfold carried. rewrite H1. split; [constructor|simpl; lia]. Qed.

Lemma _query_carried {A} query gpi vv (body : Result → A → M World A) :
  (∀ r acc, blind (body r acc)) → (∀ r, blind (gpi r)) →
  ∀ fuel c acc w,
    ∃ evs, trace (_query_while hash_data_request fuel query gpi vv body c acc w).2
           = trace w ++ evs
           ∧ carried query vv evs.
Proof.
  intros Hbody Hgpi. induction fuel as [|fuel IH]; intros c acc w.
  { exists []. destruct c; simpl; rewrite app_nil_r; (split; [done|]);
      by apply carried_silent. }
  destruct c as [c|].
  2: { exists []. rewrite _query_None. simpl. rewrite app_nil_r. split; [done|].
       by apply carried_silent. }
  rewrite _query_step.
  assert (Hsent : carried query vv [SendingQuery c]).
  { split; [constructor|simpl; lia]. }
  destruct (vv !! "cursor") eqn:Hvv; [by eexists|].
  destruct (_execute_query_executed query (<["cursor":=c]> vv) (extend w [SendingQuery c]))
    as (evs1 & Ht1 & Hc1 & Hx1).
  assert (Hstep : carried query vv ([SendingQuery c] ++ evs1)).
  { unfold carried. rewrite executed_app, cursors_sent_app, Hc1. simpl.
    destruct Hx1 as [->| ->]; simpl; (split; [|lia]); [constructor|].
    constructor; [|constructor]. simpl. split; [done|]. exists c. split; [|done]. by left. }
  destruct (_execute_query _ _ _ _) as [[r|e|] w1]; simpl in Ht1;
    rewrite <- app_assoc in Ht1; [|by eexists..].
  destruct (Hbody r acc) as (ob & evsb & Hsb & ->).
  destruct ob as [acc'|e|].
  2,3: (exists (([SendingQuery c] ++ evs1) ++ evsb);
        split; [simpl; rewrite Ht1; by rewrite <- !app_assoc|];
        apply carried_app; [done|by apply carried_silent]).
  destruct (Hgpi r) as (op & evsp & Hsp & ->).
  destruct op as [p|e|].
  2,3: (exists ((([SendingQuery c] ++ evs1) ++ evsb) ++ evsp);
        split; [simpl; rewrite Ht1; by rewrite <- !app_assoc|];
        apply carried_app; [apply carried_app; [exact Hstep|]|]; by apply carried_silent).
  destruct (IH (if hasNextPage p then endCursor p else None) acc'
              (extend (extend w1 evsb) evsp))
    as (evs & Ht & Hcar).
  exists (((([SendingQuery c] ++ evs1) ++ evsb) ++ evsp) ++ evs). split.
  - rewrite Ht. simpl. rewrite Ht1. by rewrite <- !app_assoc.
  - apply carried_app; [|exact Hcar].
    apply carried_app; [apply carried_app; [exact Hstep|]|]; by apply carried_silent.
Qed.

(** Every request a drain makes over the network is the query it was given,
    with the variable values it was given and a cursor it logged; it makes
    no more requests than it logged cursors. *)
Theorem requests_carry_variables api fuel query variable_values :
  let run := get_nodes hash_data hash_data_request COLLECTION_NAME_RE_search fuel
               query variable_values (initial_world api) in
  (∀ q vv, (q, vv) ∈ executed (trace run.2) →
     q = query
     ∧ ∃ c, c ∈ cursors_sent (trace run.2)
            ∧ vv = <["cursor" := c]> (default ∅ variable_values))
  ∧ (network_calls (trace run.2) ≤ length (cursors_sent (trace run.2)))%nat.
Proof.
  intros run.
  assert (∃ evs, trace run.2 = evs
                 ∧ carried query (default ∅ variable_values) evs) as (evs & -> & Hc & Hl).
  { subst run. unfold get_nodes.
    destruct (COLLECTION_NAME_RE_search query) as [cn|].
    2: { exists []. split; [done|]. by apply carried_silent. }
    rewrite bind_run. unfold get_nodes_pages, _query.
    destruct (_query_carried query (page_info_in cn) (default ∅ variable_values)
                (visit_result hash_data cn)
                (blind_visit_result cn) (blind_page_info_in cn)
                fuel (Some "") initial (initial_world api)) as (evs & Hevs & Hcar).
    unfold page_info_in in Hevs.
    destruct (_query_while _ _ _ _ _ _ _ _ _) as [[l|e|] w']; simpl in Hevs;
      [|by eexists..].
    exists evs. split; [|done]. rewrite <- Hevs.
    unfold final_checks, assert, mbind, M_bind, bind, ret, raise.
    destruct (_ =? _)%Z; [|done]. by destruct (bool_decide _). }
  split; [|done]. intros q vv Hin.
  rewrite Forall_forall in Hc. by destruct (Hc _ Hin).
Qed.

(** A variable named [cursor] among the variable values: the drain raises
    [TypeError] when it builds its first request, and sends nothing. *)
Theorem cursor_variable_is_refused api fuel query vv cn x :
  COLLECTION_NAME_RE_search query = Some cn → vv !! "cursor" = Some x →
  get_nodes hash_data hash_data_request COLLECTION_NAME_RE_search (S fuel) query
    (Some vv) (initial_world api)
  = (Raise cursor_twice, extend (initial_world api) [SendingQuery ""]).
Proof.
  intros Hcn Hvv. unfold get_nodes. rewrite Hcn, bind_run. unfold get_nodes_pages, _query.
  rewrite _query_step. simpl. by rewrite Hvv.
Qed.

(** ** The requests of a pagination *)

(** The events of a run, cut at each cursor logged: the events before the
    first cursor, then each cursor with the events up to the next one. *)
Fixpoint by_cursor (t : list Event) : list Event * list (string * list Event) :=
  match t with
  | [] => ([], [])
  | SendingQuery c :: t' => ([], (c, (by_cursor t').1) :: (by_cursor t').2)
  | e :: t' => (e :: (by_cursor t').1, (by_cursor t').2)
  end.

(** [e] is an event of the call [_execute_query(query, variable_values)]:
    a request to the client is this request, and a key of the cache is the
    key of this request. *)
Definition of_request (query : string) (variable_values : VariableValues)
    (e : Event) : Prop :=
  match e with
  | Executed q vv _ => q = query ∧ vv = variable_values
  | CacheHit k _ | CacheMiss k | CacheSet k _ _ =>
      k = hash_data_request query variable_values
  | CacheEvict _ => True
  | SendingQuery _ | Yield _ => False
  end.

(** The events in which a request is made: it is looked up in the cache or
    sent to the client. *)
Definition asks (e : Event) : bool :=
  match e with
  | Executed _ _ _ | CacheHit _ _ | CacheMiss _ => true
  | _ => false
  end.

(** What the calls of a pagination are: call [n] is made with the cursor
    logged before it, and what it receives is page [n]. *)
Definition calls_of (query : string) (vv : VariableValues) (evs : list Event) : Prop :=
  (by_cursor evs).1 = []
  ∧ ∀ n c es, (by_cursor evs).2 !! n = Some (c, es) →
      Forall (of_request query (<["cursor" := c]> vv)) es
      ∧ results_received es = option_list (results_received evs !! n)
      ∧ (vv !! "cursor" = None → Exists (λ e, asks e = true) es).

Lemma by_cursor_quiet evs t :
  cursors_sent evs = [] →
  by_cursor (evs ++ t) = (evs ++ (by_cursor t).1, (by_cursor t).2).
Proof.
  induction evs as [|e evs IH]; simpl; [by destruct (by_cursor t)|].
  destruct e; try discriminate; intros H; by rewrite (IH H).
Qed.

Lemma by_cursor_cursors t : (by_cursor t).2.*1 = cursors_sent t.
Proof.
  induction t as [|e t IH]; [done|].
  unfold cursors_sent in *. destruct e; simpl; try exact IH. f_equal. exact IH.
Qed.

Lemma calls_of_nil query vv : calls_of query vv [].
Proof. split; [done|]. intros n c es H. done. Qed.

Lemma calls_of_call query vv c evs1 evs2 :
  cursors_sent evs1 = [] →
  Forall (of_request query (<["cursor" := c]> vv)) evs1 →
  (vv !! "cursor" = None → Exists (λ e, asks e = true) evs1) →
  (∃ r, results_received evs1 = [r]) ∨ (results_received evs1 = [] ∧ evs2 = []) →
  calls_of query vv evs2 →
  calls_of query vv (SendingQuery c :: evs1 ++ evs2).
Proof.
  intros Hc Hf Hx Hr [H2 Hcalls]. unfold calls_of. simpl.
  rewrite (by_cursor_quiet _ _ Hc), H2, app_nil_r. simpl. split; [done|].
  intros [|n] c' es Hn; simpl in Hn.
  - injection Hn as <- <-. split; [done|]. split; [|done].
    rewrite results_received_app.
    destruct Hr as [[r ->]|[-> ->]]; done.
  - destruct (Hcalls n c' es Hn) as (Hf' & Hr' & Hx'). split; [done|]. split; [|done].
    rewrite Hr', results_received_app.
    destruct Hr as [[r ->]|[_ ->]]; [done|]. simpl in Hn. done.
Qed.

Lemma _execute_query_asks query vv w :
  ∃ evs, trace (_execute_query hash_data_request query vv w).2 = trace w ++ evs
         ∧ cursors_sent evs = []
         ∧ Forall (of_request query vv) evs
         ∧ Exists (λ e, asks e = true) evs
         ∧ results_received evs
           = received_of (_execute_query hash_data_request query vv w).1.
Proof.
  unfold _execute_query, load_from_cache, save_to_cache, cache_lookup, client_execute,
    mbind, M_bind, bind, gets, when, emit, set_cache, set_clear_cache, modify, mret,
    M_ret, ret.
  simpl.
  repeat case_match; simplify_eq/=;
    (eexists; split; [rewrite <- ?app_assoc; reflexivity|]);
    (split; [done|]); (split; [by repeat constructor|]); (split; [|done]);
    repeat first [by apply Exists_cons_hd | apply Exists_cons_tl].
Qed.

Lemma _query_calls f query vv fuel : ∀ c0 acc w out w',
  _query_while hash_data_request fuel query (page_info_of f) vv collect
    (Some c0) acc w = (out, w') →
  ∃ evs, trace w' = trace w ++ evs ∧ calls_of query vv evs.
Proof.
  induction fuel as [|fuel IH]; intros c0 acc w out w' Hrun.
  { injection Hrun as <- <-. exists []. split; [by rewrite app_nil_r|].
    apply calls_of_nil. }
  rewrite _query_step in Hrun.
  destruct (vv !! "cursor") as [x|] eqn:Hvv.
  { injection Hrun as <- <-. exists (SendingQuery c0 :: [] ++ []). split; [done|].
    apply calls_of_call; [done|constructor|congruence|by right|apply calls_of_nil]. }
  destruct (_execute_query_asks query (<["cursor":=c0]> vv) (extend w [SendingQuery c0]))
    as (evs1 & Ht1 & Hc1 & Hf1 & Hx1 & Hr1).
  assert (Hend : ∀ w1, trace w1 = trace (extend w [SendingQuery c0]) ++ evs1 →
            (∃ r, results_received evs1 = [r]) ∨ results_received evs1 = [] →
            ∃ evs, trace w1 = trace w ++ evs ∧ calls_of query vv evs).
  { intros w1 Hw1 Hr. exists (SendingQuery c0 :: evs1 ++ []). split.
    { rewrite Hw1. simpl. by rewrite app_nil_r, <- app_assoc. }
    apply calls_of_call; [done|done|done| |apply calls_of_nil].
    destruct Hr as [?|?]; [by left|by right]. }
  destruct (_execute_query hash_data_request query (<["cursor":=c0]> vv) _)
    as [[r|e|] w1] eqn:Hexec; simpl in Ht1, Hr1.
  2,3: (injection Hrun as <- <-; apply Hend; [done|by right]).
  unfold collect at 1, ret at 1 in Hrun.
  unfold page_info_of at 1 in Hrun.
  destruct (f r) as [e|p] eqn:Hfr.
  { injection Hrun as <- <-. apply Hend; [done|]. left. by exists r. }
  unfold ret at 1 in Hrun.
  destruct (if hasNextPage p then endCursor p else None) as [c1|] eqn:Hnext.
  - destruct (IH c1 (acc ++ [r]) w1 out w' Hrun) as (evs2 & Ht2 & Hcalls).
    exists (SendingQuery c0 :: evs1 ++ evs2). split.
    { rewrite Ht2, Ht1. simpl. by rewrite <- !app_assoc. }
    apply calls_of_call; [done|done|done| |done]. left. by exists r.
  - rewrite _query_None in Hrun. injection Hrun as <- <-.
    apply Hend; [done|]. left. by exists r.
Qed.

(** Claim C4, as the code has it. A run of [_query] does nothing before it
    logs its first cursor, and that cursor is the empty string. Call [n] is
    made with the query and with the caller's variable values to which the
    cursor logged before it is added, whether it goes to the client or is
    answered from the cache, and what it receives is page [n]. The cursor of
    call [n+1] is the [endCursor] of page [n], whose [hasNextPage] is true;
    a page with [hasNextPage] true and an [endCursor] is followed by the
    next call (unless the iterations allowed are used up); and a run that
    returns has made as many calls as it received pages, the last page
    having [hasNextPage] false or no [endCursor]. *)
Theorem query_pagination f api fuel query variable_values out w' :
  _query hash_data_request fuel query (page_info_of f) variable_values collect []
    (initial_world api) = (out, w') →
  let vv := default ∅ variable_values in
  let calls := (by_cursor (trace w')).2 in
  let cs := cursors_sent (trace w') in
  let rs := results_received (trace w') in
  (by_cursor (trace w')).1 = [] ∧ calls.*1 = cs
  ∧ (∀ n c evs, calls !! n = Some (c, evs) →
       Forall (of_request query (<["cursor" := c]> vv)) evs
       ∧ results_received evs = option_list (rs !! n)
       ∧ (vv !! "cursor" = None → Exists (λ e, asks e = true) evs))
  ∧ (∀ c, cs !! 0%nat = Some c → c = "")
  ∧ (fuel ≠ 0%nat → cs !! 0%nat = Some "")
  ∧ (∀ n c, cs !! S n = Some c →
       ∃ r p, rs !! n = Some r ∧ f r = inr p
              ∧ hasNextPage p = true ∧ endCursor p = Some c)
  ∧ (∀ n r p c, rs !! n = Some r → f r = inr p →
       hasNextPage p = true → endCursor p = Some c →
       cs !! S n = Some c ∨ (S n = fuel ∧ out = Diverge))
  ∧ (∀ pages, out = Return pages →
       pages = rs ∧ length cs = length rs
       ∧ ∃ r p, last rs = Some r ∧ f r = inr p
                ∧ (hasNextPage p = false ∨ endCursor p = None))
  ∧ (out = Diverge → length rs = fuel).
Proof.
  unfold _query. intros Hrun.
  destruct (_query_pagination hash_data_request f query (default ∅ variable_values)
              fuel "" [] (initial_world api) out w' Hrun)
    as (evs & Ht & H0 & H1 & H2 & H3 & H4).
  destruct (_query_calls f query (default ∅ variable_values)
              fuel "" [] (initial_world api) out w' Hrun)
    as (evs' & Ht' & Hfirst & Hcalls).
  simpl in Ht, Ht'. subst evs evs'. simpl. split_and!.
  - done.
  - apply by_cursor_cursors.
  - done.
  - intros c Hc. destruct H0 as [H0|(_&_&H0&_)]; [congruence|].
    rewrite H0 in Hc. done.
  - intros Hf. destruct H0 as [H0|(?&_)]; done.
  - done.
  - done.
  - intros pages Hp. destruct (H3 pages Hp) as (? & ? & ?). done.
  - intros Hd. by destruct (H4 Hd).
Qed.

End APIMore.

(** ** More concrete runs *)

(** One page, holding the one node it declares. *)
Definition one_page_transport : Transport :=
  fun _ _ _ => inr (members 1 false None [node_A]).

(** Two pages, the second of which declares three nodes where the first
    declared two. *)
Definition recount_transport : Transport :=
  fun _ _ vv =>
    match vv !! "cursor" with
    | Some "" => inr (members 2 true (Some "c1") [node_A])
    | _ => inr (members 3 false None [node_B])
    end.

Definition first_drain : Outcome unit * World :=
  get_nodes hash_node hash_request search_members 2 "q" None
    (initial_world (with_cache shared_cache false one_page_transport)).

(** A client that has the first page in its cache and cannot reach the
    network. *)
Definition warm_world : World :=
  initial_world
    (with_cache {[ hash_request "q" first_cursor
                   := (members 1 false None [node_A], "memberfulapi") ]}
       false failing_transport).

Definition recount_run : Outcome Locals * World :=
  get_nodes_pages hash_node hash_request 3 "members" "q" None
    (initial_world (no_cache recount_transport)).

Lemma drained_again_offline_witness :
  ∃ evs, get_nodes hash_node hash_request search_members 2 "q" None first_drain.2
         = (Return tt, extend first_drain.2 evs)
         ∧ executed evs = []
         ∧ yielded evs = yielded (trace first_drain.2).
Proof.
  apply (drained_again_offline hash_node hash_request search_members
           (with_cache shared_cache false one_page_transport) 2 "q" None first_drain.2).
  - vm_compute. reflexivity.
  - reflexivity.
  - vm_compute. reflexivity.
Defined.

Lemma mutation_keeps_cache_witness :
  let after := mutate "m" ∅ warm_world in
  _execute_query hash_request "q" first_cursor after.2
  = (Return (members 1 false None [node_A]),
     extend after.2 [CacheHit (hash_request "q" first_cursor)
                       (members 1 false None [node_A])]).
Proof.
  apply (mutation_keeps_cache hash_request "q" first_cursor warm_world
           (members 1 false None [node_A]) "m" ∅).
  - eexists _, _. split; [reflexivity|]. apply lookup_singleton_eq.
  - reflexivity.
Defined.

Lemma cursor_variable_is_refused_witness :
  get_nodes hash_node hash_request search_members 1 "q" (Some {[ "cursor" := "c9" ]})
    (initial_world (no_cache one_page_transport))
  = (Raise cursor_twice,
     extend (initial_world (no_cache one_page_transport)) [SendingQuery ""]).
Proof.
  apply (cursor_variable_is_refused hash_node hash_request search_members
           (no_cache one_page_transport) 0 "q" {[ "cursor" := "c9" ]} "members" "c9").
  - reflexivity.
  - apply lookup_singleton_eq.
Defined.

Lemma duplicates_dropped_first_kept_witness :
  let run := get_nodes_pages hash_node hash_request 2 "members" "q" None
               (initial_world (no_cache two_pages_transport)) in
  yielded (trace run.2)
  = first_occurrences (node_identity hash_node) ∅
      (results_received (trace run.2) ≫= nodes_in "members").
Proof.
  exact (proj1 (duplicates_dropped_first_kept hash_node hash_request
                  (no_cache two_pages_transport) 2 "members" "q" None _ _ eq_refl)).
Defined.

Lemma get_nodes_yields_every_node_witness :
  ∃ cn, search_members "q" = Some cn
        ∧ yielded (trace first_drain.2)
          = results_received (trace first_drain.2) ≫= nodes_in cn.
Proof.
  apply (get_nodes_yields_every_node hash_node hash_request search_members
           (with_cache shared_cache false one_page_transport) 2 "q" None first_drain.2).
  vm_compute. reflexivity.
Defined.

Lemma recount_stops_the_drain_witness :
  recount_run.1 = Raise (AssertionError (DifferentTotalCount 3 2))
  ∧ length (results_received (trace recount_run.2)) = 2%nat
  ∧ yielded (trace recount_run.2)
    = first_occurrences (node_identity hash_node) ∅
        (take 1 (results_received (trace recount_run.2)) ≫= nodes_in "members").
Proof.
  apply (recount_stops_the_drain hash_node hash_request
           (no_cache recount_transport) 3 "members" "q" None
           recount_run.1 recount_run.2 1
           (members 2 true (Some "c1") [node_A]) (members 3 false None [node_B])
           {| totalCount := 2;
              pageInfo := {| hasNextPage := true; endCursor := Some "c1" |};
              edges := [{| node := node_A |}] |}
           {| totalCount := 3;
              pageInfo := {| hasNextPage := false; endCursor := None |};
              edges := [{| node := node_B |}] |}).
  - apply surjective_pairing.
  - vm_compute. reflexivity.
  - vm_compute. reflexivity.
  - vm_compute. reflexivity.
  - vm_compute. reflexivity.
  - simpl. lia.
Defined.

(** Two pages, the second of which comes back under another name than the
    query asks for. *)
Definition other_name : Result :=
  {[ "people" :=
       {| totalCount := 2;
          pageInfo := {| hasNextPage := false; endCursor := None |};
          edges := [{| node := node_B |}] |} ]}.

Definition renamed_transport : Transport :=
  fun _ _ vv =>
    match vv !! "cursor" with
    | Some "" => inr (members 2 true (Some "c1") [node_A])
    | _ => inr other_name
    end.

Definition renamed_run : Outcome Locals * World :=
  get_nodes_pages hash_node hash_request 3 "members" "q" None
    (initial_world (no_cache renamed_transport)).

Lemma missing_collection_stops_the_drain_witness :
  renamed_run.1 = Raise (KeyError "members")
  ∧ length (results_received (trace renamed_run.2)) = 2%nat
  ∧ yielded (trace renamed_run.2)
    = first_occurrences (node_identity hash_node) ∅
        (take 1 (results_received (trace renamed_run.2)) ≫= nodes_in "members").
Proof.
  apply (missing_collection_stops_the_drain hash_node hash_request
           (no_cache renamed_transport) 3 "members" "q" None
           renamed_run.1 renamed_run.2 1 other_name).
  - apply surjective_pairing.
  - vm_compute. reflexivity.
  - vm_compute. reflexivity.
Defined.

(** *** The two pages, and the page without a cursor *)

Lemma query_pagination_witness :
  let run := _query hash_request 3 "q" (page_info_of page_info_members) None collect []
               (initial_world (no_cache two_pages_transport)) in
  (by_cursor (trace run.2)).1 = []
  ∧ cursors_sent (trace run.2) !! 0%nat = Some ""
  ∧ (∀ n c evs, (by_cursor (trace run.2)).2 !! n = Some (c, evs) →
       Forall (of_request hash_request "q" (<["cursor" := c]> ∅)) evs)
  ∧ ∀ pages, run.1 = Return pages → pages = results_received (trace run.2).
Proof.
  pose proof (query_pagination hash_request page_info_members
                (no_cache two_pages_transport) 3 "q" None _ _ eq_refl)
    as (H0 & _ & Hcalls & _ & H1 & _ & _ & H4 & _).
  split; [exact H0|]. split; [by apply H1|]. split.
  - intros n c evs Hn. by destruct (Hcalls n c evs Hn).
  - intros pages Hp. by destruct (H4 pages Hp).
Defined.

Lemma query_stops_without_cursor :
  let run := _query hash_request 3 "q" (page_info_of page_info_members) None collect []
               (initial_world (no_cache no_cursor_transport)) in
  ∃ page p, run.1 = Return [page]
            ∧ cursors_sent (trace run.2) = [""]
            ∧ page_info_members page = inr p
            ∧ hasNextPage p = true.
Proof. eexists _, _. split_and!; reflexivity. Qed.

(** ** The address of a member *)

Lemma length_append (a t : string) :
  String.length (a ++ t)%string = (String.length a + String.length t)%nat.
Proof. induction a as [|c a IH]; simpl; [done|]. by rewrite IH. Qed.

Lemma append_inj_r (a b t : string) : (a ++ t = b ++ t)%string → a = b.
Proof.
  intros H.
  assert (Hlen : String.length a = String.length b).
  { apply (f_equal String.length) in H. rewrite !length_append in H. lia. }
  revert b H Hlen. induction a as [|c a IH]; intros [|c' b] H Hlen; try done.
  simpl in H, Hlen. injection H as -> H. f_equal. apply IH; [done|lia].
Qed.

Lemma decimal_inj n m :
  DecimalString.NilZero.string_of_int (Z.to_int n)
  = DecimalString.NilZero.string_of_int (Z.to_int m) → n = m.
Proof.
  intros H. apply DecimalZ.to_int_inj.
  assert (Hok : ∀ z, DecimalString.NilZero.int_of_string
                       (DecimalString.NilZero.string_of_int (Z.to_int z))
                     = Some (Z.to_int z)).
  { intros z. apply DecimalString.NilZero.isi; destruct z; simpl; try discriminate;
      intros [= Hp]; by apply DecimalPos.Unsigned.to_uint_nonnil in Hp. }
  pose proof (Hok n) as Hn. rewrite H, Hok in Hn. congruence.
Qed.

(** The account can be read back from the address: two ids that are
    formatted differently have different addresses, two numbers that
    differ have different addresses, and a number and the string of its
    digits have the same. *)
Theorem memberful_url_inj :
  (∀ a b, memberful_url a = memberful_url b →
          format_account_id a = format_account_id b)
  ∧ (∀ n m, memberful_url (IntId n) = memberful_url (IntId m) → n = m)
  ∧ (∀ s t, memberful_url (StrId s) = memberful_url (StrId t) → s = t)
  ∧ memberful_url (IntId 52463) = memberful_url (StrId "52463").
Proof.
  assert (Hinj : ∀ a b, memberful_url a = memberful_url b →
                        format_account_id a = format_account_id b).
  { intros a b H. unfold memberful_url in H.
    apply (inj (String.append _)) in H. by apply append_inj_r in H. }
  split; [done|]. split; [|split; [|reflexivity]].
  - intros n m H. by apply decimal_inj, (Hinj (IntId n) (IntId m)).
  - intros s t H. by apply (Hinj (StrId s) (StrId t)).
Qed.

End APIFacts.

(* ===================================================================== *)
(** * Properties of the CSV export client                                *)
(* ===================================================================== *)

Module CSVFacts.
Import Python Memberful Memberful.CSV.
Local Open Scope Z_scope.
Local Open Scope string_scope.
Local Open Scope list_scope.

(** A poll that ends in an HTTP error: the exception that is logged. *)
Definition http_failure (response : Exception + Response) : option Exception :=
  match response with
  | inl (HTTPError s) => Some (HTTPError s)
  | inl _ => None
  | inr r =>
      if ((400 <=? status_code r) && (status_code r <? 600))%Z
      then Some (HTTPError (status_code r)) else None
  end.

(** One failed attempt: the wait, the request, the log record. *)
Definition failed_attempt (download_url : string)
    (f : (Exception + Response) * Exception) : list Event :=
  [Slept DOWNLOAD_POLLING_WAIT_SEC; Requested GET download_url f.1; Debug f.2].

Definition failed_attempts (download_url : string)
    (fs : list ((Exception + Response) * Exception)) : list Event :=
  fs ≫= failed_attempt download_url.

(** Events of the steps around the polling loop: no wait, no log record. *)
Definition quiet (evs : list Event) : Prop := waits evs = [] ∧ debugs evs = [].

(** The events of the polling loop: the failed attempts, then the attempt
    that ended it, if one did. *)
Definition polled (download_url : string)
    (fs : list ((Exception + Response) * Exception))
    (last : option (Exception + Response)) : list Event :=
  failed_attempts download_url fs
  ++ match last with
     | Some response =>
         [Slept DOWNLOAD_POLLING_WAIT_SEC; Requested GET download_url response]
     | None => []
     end.

Definition attempts_made (fs : list ((Exception + Response) * Exception))
    (last : option (Exception + Response)) : nat :=
  (length fs + match last with Some _ => 1 | None => 0 end)%nat.

Section CSVProps.
Variable hash_data_url : string -> string.
Variable urlencode : list (string * string) -> string.
Variable splitlines : string -> list string.
Variable sign_in_form_action : string -> string -> string -> Exception + string.
Variable csrf_token_meta : string -> Exception + option string.

Lemma waits_app t1 t2 : waits (t1 ++ t2) = waits t1 ++ waits t2.
Proof. apply omap_app. Qed.
Lemma debugs_app t1 t2 : debugs (t1 ++ t2) = debugs t1 ++ debugs t2.
Proof. apply omap_app. Qed.
Lemma cache_sets_app t1 t2 : cache_sets (t1 ++ t2) = cache_sets t1 ++ cache_sets t2.
Proof. apply omap_app. Qed.

Lemma quiet_nil : quiet [].
Proof. done. Qed.
Lemma quiet_app t1 t2 : quiet t1 → quiet t2 → quiet (t1 ++ t2).
Proof.
  unfold quiet. intros [H1 H2] [H3 H4].
  by rewrite waits_app, debugs_app, H1, H2, H3, H4.
Qed.

(** What a step leaves of the client: the cache and its flag as they were,
    the session still there if it was. *)
Record keeps (w w' : World) (evs : list Event) : Prop :=
  { keeps_trace : trace w' = trace w ++ evs;
    keeps_quiet : quiet evs;
    keeps_no_set : cache_sets evs = [];
    keeps_session : is_Some (_session (self w)) → is_Some (_session (self w')) }.

Lemma keeps_refl w : keeps w w [].
Proof. split; try done. by rewrite app_nil_r. Qed.

Lemma keeps_trans w1 w2 w3 e1 e2 :
  keeps w1 w2 e1 → keeps w2 w3 e2 → keeps w1 w3 (e1 ++ e2).
Proof.
  intros [H1 H2 H3 H5] [G1 G2 G3 G5]. split.
  - by rewrite G1, H1, app_assoc.
  - by apply quiet_app.
  - by rewrite cache_sets_app, H3, G3.
  - auto.
Qed.

Lemma request_keeps m u w o w' :
  request m u w = (o, w') → ∃ evs, keeps w w' evs ∧ o ≠ Diverge.
Proof.
  unfold request. intros H. exists [Requested m u (web (self w) (trace w) m u)].
  destruct (web (self w) (trace w) m u); simplify_eq;
    (split; [split; try done; by cbv|done]).
Qed.

Lemma raise_for_status_keeps r w o w' :
  raise_for_status r w = (o, w') → w' = w ∧ o ≠ Diverge.
Proof.
  unfold raise_for_status, raise, ret.
  destruct (_ && _); intros H; simplify_eq; done.
Qed.

Lemma lift_result_keeps {A} (r : Exception + A) w o w' :
  lift_result r w = (o, w') → w' = w ∧ o ≠ Diverge.
Proof. unfold lift_result, raise, ret. destruct r; intros H; simplify_eq; done. Qed.

Ltac step H x w' Hx :=
  unfold mbind at 1, M_bind at 1, bind at 1 in H;
  match type of H with
  | (let (_, _) := ?c ?w in _) = _ =>
      destruct (c w) as [[x| |] w'] eqn:Hx; cbv beta iota in H
  end.

Ltac close_with e :=
  simplify_eq; exists e; (split; [first [done | by eapply keeps_trans] | done]).

Ltac step_gets H :=
  unfold mbind at 1, M_bind at 1, bind at 1, gets at 1 in H; cbv beta iota in H.

Lemma _auth_keeps w o w' :
  _auth sign_in_form_action csrf_token_meta w = (o, w') →
  ∃ evs, keeps w w' evs ∧ o ≠ Diverge.
Proof.
  unfold _auth. intros H.
  step H r1 w1 H1; destruct (request_keeps _ _ _ _ _ H1) as (e1 & K1 & Hn1);
    [|close_with e1..].
  step H u1 w2 H2; destruct (raise_for_status_keeps _ _ _ _ H2) as (-> & Hn2);
    [|close_with e1..].
  step_gets H. step_gets H.
  step H action w5 H5; destruct (lift_result_keeps _ _ _ _ H5) as (-> & Hn5);
    [|close_with e1..].
  step H r2 w6 H6; destruct (request_keeps _ _ _ _ _ H6) as (e2 & K2 & Hn6);
    [|close_with (e1 ++ e2)..].
  step H u2 w7 H7; destruct (raise_for_status_keeps _ _ _ _ H7) as (-> & Hn7);
    [|close_with (e1 ++ e2)..].
  step H tok w8 H8; destruct (lift_result_keeps _ _ _ _ H8) as (-> & Hn8);
    [|close_with (e1 ++ e2)..].
  unfold ret in H. simplify_eq. exists (e1 ++ e2). split; [by eapply keeps_trans|done].
Qed.

Lemma session_keeps w o w' :
  session sign_in_form_action csrf_token_meta w = (o, w') →
  ∃ evs, keeps w w' evs ∧ o ≠ Diverge
         ∧ (∀ s, o = Return s → is_Some (_session (self w'))).
Proof.
  unfold session. intros H. step_gets H.
  destruct (_session (self w)) as [s|] eqn:Hs.
  { unfold ret in H. simplify_eq. exists []. split; [apply keeps_refl|].
    split; [done|]. intros _ _. by rewrite Hs. }
  step H a w1 H1; destruct (_auth_keeps _ _ _ H1) as (e1 & K1 & Hn1);
    [|simplify_eq; exists e1; done..].
  unfold mbind, M_bind, bind, set_auth, modify, ret in H. simplify_eq.
  exists e1. split; [|split; [done|by intros; simpl]].
  destruct K1. split; simpl; try done.
Qed.

Lemma csrf_token_keeps w o w' :
  csrf_token sign_in_form_action csrf_token_meta w = (o, w') →
  ∃ evs, keeps w w' evs ∧ o ≠ Diverge.
Proof.
  assert (Hauth : ∀ w o w',
    (_auth sign_in_form_action csrf_token_meta
       ≫= λ a, set_auth a ≫= λ _, ret a.2) w = (o, w') →
    ∃ evs, keeps w w' evs ∧ o ≠ Diverge).
  { clear. intros w o w' H.
    step H a w1 H1; destruct (_auth_keeps _ _ _ H1) as (e1 & K1 & Hn1);
      [|simplify_eq; exists e1; done..].
    unfold mbind, M_bind, bind, set_auth, modify, ret in H. simplify_eq.
    exists e1. split; [|done]. destruct K1. split; simpl; try done. }
  unfold csrf_token. intros H. step_gets H.
  destruct (_csrf_token (self w)) as [t|] eqn:Ht; [|by apply Hauth].
  destruct (String.eqb t ""); [by apply Hauth|].
  unfold ret in H. simplify_eq. exists []. split; [apply keeps_refl|done].
Qed.


Lemma save_to_cache_spec key data w o w' :
  save_to_cache key data w = (o, w') →
  o = Return tt ∧ ∃ evs, trace w' = trace w ++ evs ∧ quiet evs.
Proof.
  unfold save_to_cache, mbind, M_bind, bind, gets, when, emit,
    set_cache, modify, mret, M_ret, ret.
  intros H. simpl in H.
  repeat case_match; simplify_eq/=; (split; [done|]).
  - by eexists.
  - exists []. by rewrite app_nil_r.
Qed.

Definition is_failure (f : (Exception + Response) * Exception) : Prop :=
  http_failure f.1 = Some f.2.

Definition not_failure (last : option (Exception + Response)) : Prop :=
  ∀ r, last = Some r → http_failure r = None.

Lemma polled_cons url f fs last :
  polled url (f :: fs) last = failed_attempt url f ++ polled url fs last.
Proof. unfold polled, failed_attempts. simpl. done. Qed.

(** The polling loop, once the session is there. *)
Lemma poll_spec url attempts : ∀ w o w',
  is_Some (_session (self w)) →
  poll sign_in_form_action csrf_token_meta attempts url w = (o, w') →
  self w' = self w
  ∧ ∃ fs last,
      trace w' = trace w ++ polled url fs last
      ∧ Forall is_failure fs ∧ not_failure last
      ∧ (attempts_made fs last ≤ length attempts)%nat
      ∧ match o with
        | Return None => last = None ∧ length fs = length attempts
        | Return (Some r) => last = Some (inr r)
        | Raise e => last = Some (inl e)
        | Diverge => False
        end.
Proof.
  induction attempts as [|attempt_no rest IH]; intros w o w' [s Hs] H.
  { unfold poll, ret in H. simplify_eq. split; [done|]. exists [], None.
    unfold polled, failed_attempts, not_failure, attempts_made. simpl.
    rewrite app_nil_r. done. }
  cbn [poll] in H.
  unfold mbind at 1, M_bind at 1, bind at 1, emit at 1, modify at 1 in H.
  cbv beta iota in H.
  set (w1 := {| self := self w; trace := trace w ++ [Slept DOWNLOAD_POLLING_WAIT_SEC] |}) in *.
  unfold mbind at 1, M_bind at 1, bind at 1, try_except at 1 in H.
  unfold mbind at 1, M_bind at 1, bind at 1, session at 1 in H.
  unfold mbind at 1, M_bind at 1, bind at 1, gets at 1 in H.
  cbv beta iota in H. change (self w1) with (self w) in H. rewrite Hs in H.
  unfold ret at 1 in H. cbv beta iota in H.
  unfold mbind at 1, M_bind at 1, bind at 1, request at 1 in H.
  cbv beta iota zeta in H.
  set (resp := web (self w1) (trace w1) GET url) in *.
  set (w2 := {| self := self w1; trace := trace w1 ++ [Requested GET url resp] |}) in *.
  assert (Hrec : ∀ e, http_failure resp = Some e →
            poll sign_in_form_action csrf_token_meta rest url
              {| self := self w; trace := trace w2 ++ [Debug e] |} = (o, w') →
            self w' = self w
            ∧ ∃ fs last,
                trace w' = trace w ++ polled url fs last
                ∧ Forall is_failure fs ∧ not_failure last
                ∧ (attempts_made fs last ≤ length (attempt_no :: rest))%nat
                ∧ match o with
                  | Return None => last = None ∧ length fs = length (attempt_no :: rest)
                  | Return (Some r) => last = Some (inr r)
                  | Raise e => last = Some (inl e)
                  | Diverge => False
                  end).
  { intros e He Hp. apply IH in Hp; [|by exists s].
    destruct Hp as (Hself & fs & last & Ht & Hfs & Hl & Hn & Ho).
    split; [done|]. exists ((resp, e) :: fs), last. split.
    { rewrite Ht, polled_cons. subst w2 w1. simpl. by rewrite <- !app_assoc. }
    split; [by constructor|]. split; [done|].
    split; [unfold attempts_made in *; simpl; lia|].
    destruct o as [[r|]| |]; try done. destruct Ho. split; [done|simpl; lia]. }
  assert (Hstop : ∀ r, http_failure r = None → resp = r →
            self w2 = self w ∧ trace w2 = trace w ++ polled url [] (Some r)).
  { intros r _ <-. split; [done|]. subst w2 w1. unfold polled, failed_attempts.
    simpl. by rewrite <- app_assoc. }
  destruct resp as [e|r] eqn:Hresp.
  - cbv beta iota in H. destruct (is_HTTPError e) eqn:He.
    + destruct e; try discriminate.
      unfold mbind, M_bind, bind, emit, modify, ret in H.
      cbv beta iota in H. eapply Hrec; [reflexivity|exact H].
    + simplify_eq. destruct (Hstop (inl e)) as [Hs2 Ht2]; [by destruct e|done|].
      split; [done|]. exists [], (Some (inl e)). split; [done|].
      split; [constructor|]. split; [intros ? [= <-]; by destruct e|].
      unfold attempts_made. simpl. split; [lia|done].
  - cbv beta iota in H.
    unfold mbind at 1, M_bind at 1, bind at 1, raise_for_status at 1 in H.
    destruct ((400 <=? status_code r) && (status_code r <? 600))%Z eqn:Hst.
    + unfold raise at 1 in H. cbv beta iota in H. simpl is_HTTPError in H.
      cbv beta iota in H.
      unfold mbind, M_bind, bind, emit, modify, ret in H.
      cbv beta iota in H. eapply Hrec; [|exact H].
      simpl. by rewrite Hst.
    + unfold mbind, M_bind, bind, ret in H. cbv beta iota in H. simplify_eq.
      destruct (Hstop (inr r)) as [Hs2 Ht2]; [simpl; by rewrite Hst|done|].
      split; [done|]. exists [], (Some (inr r)). split; [done|].
      split; [constructor|]. split; [intros ? [= <-]; simpl; by rewrite Hst|].
      unfold attempts_made. simpl. split; [lia|done].
Qed.

Lemma header_location_keeps r w o w' :
  header_location r w = (o, w') → w' = w ∧ o ≠ Diverge.
Proof.
  unfold header_location, raise, ret. destruct (location r); intros H; simplify_eq; done.
Qed.


End CSVProps.

(** ** Concrete runs *)


Definition export_url : string :=
  "https://juniorguru.memberful.com/admin/csv_exports?".









(** ** A client that is signed in, and a client with a cache *)

Definition extend (w : World) (evs : list Event) : World :=
  {| self := self w; trace := trace w ++ evs |}.

(** The client holds a session and a CSRF token that is true in Python. *)
Definition logged_in (w : World) : Prop :=
  is_Some (_session (self w))
  ∧ ∃ t, _csrf_token (self w) = Some t ∧ t ≠ "".

(** [response.raise_for_status()] raises. *)
Definition is_error (r : Response) : bool :=
  ((400 <=? status_code r) && (status_code r <? 600))%Z.

(** The cache and the clear flag are what they were. *)
Definition same_cache (w w' : World) : Prop :=
  cache (self w') = cache (self w) ∧ clear_cache (self w') = clear_cache (self w).

Section CSVMore.
Variable hash_data_url : string -> string.
Variable urlencode : list (string * string) -> string.
Variable splitlines : string -> list string.
Variable sign_in_form_action : string -> string -> string -> Exception + string.
Variable csrf_token_meta : string -> Exception + option string.

(** The address [download_csv] asks for the export at. *)
Definition export_address (params : list (string * string)) : string :=
  ("https://juniorguru.memberful.com/admin/csv_exports?" ++ urlencode params)%string.

Ltac run H x w' Hx :=
  unfold mbind at 1, M_bind at 1, bind at 1 in H;
  match type of H with
  | (let (_, _) := ?c ?w in _) = _ =>
      destruct (c w) as [[x| |] w'] eqn:Hx; cbv beta iota in H
  end.

Ltac run_as H L :=
  unfold mbind at 1, M_bind at 1, bind at 1 in H; rewrite L in H; cbv beta iota in H.

Lemma request_self m u w o w' : request m u w = (o, w') → self w' = self w.
Proof. unfold request. destruct (web _ _ _ _); by intros [= <- <-]. Qed.

Lemma _auth_self w o w' :
  _auth sign_in_form_action csrf_token_meta w = (o, w') → self w' = self w.
Proof.
  unfold _auth. intros H.
  run H r1 w1 H1; apply request_self in H1; [|by simplify_eq..].
  run H u1 w2 H2; apply raise_for_status_keeps in H2 as [-> _]; [|by simplify_eq..].
  unfold mbind at 1, M_bind at 1, bind at 1, gets at 1 in H; cbv beta iota in H.
  unfold mbind at 1, M_bind at 1, bind at 1, gets at 1 in H; cbv beta iota in H.
  run H action w5 H5; apply lift_result_keeps in H5 as [-> _]; [|by simplify_eq..].
  run H r2 w6 H6; apply request_self in H6; [|simplify_eq; congruence..].
  run H u2 w7 H7; apply raise_for_status_keeps in H7 as [-> _];
    [|simplify_eq; congruence..].
  run H tok w8 H8; apply lift_result_keeps in H8 as [-> _];
    [|simplify_eq; congruence..].
  unfold ret in H. simplify_eq. congruence.
Qed.

Lemma sign_in_same_cache {A} (f : Session * option string → A) w o w' :
  (_auth sign_in_form_action csrf_token_meta ≫= λ a, set_auth a ≫= λ _, ret (f a)) w
  = (o, w') →
  same_cache w w'.
Proof.
  intros H. run H a w1 H1; apply _auth_self in H1.
  - unfold mbind, M_bind, bind, set_auth, modify, ret in H. simplify_eq.
    split; simpl; by rewrite H1.
  - simplify_eq. split; by rewrite H1.
  - simplify_eq. split; by rewrite H1.
Qed.

Lemma session_same_cache w o w' :
  session sign_in_form_action csrf_token_meta w = (o, w') → same_cache w w'.
Proof.
  unfold session. intros H.
  unfold mbind at 1, M_bind at 1, bind at 1, gets at 1 in H; cbv beta iota in H.
  destruct (_session (self w)); [unfold ret in H; by simplify_eq|].
  by apply (sign_in_same_cache fst) in H.
Qed.

Lemma csrf_token_same_cache w o w' :
  csrf_token sign_in_form_action csrf_token_meta w = (o, w') → same_cache w w'.
Proof.
  unfold csrf_token. intros H.
  unfold mbind at 1, M_bind at 1, bind at 1, gets at 1 in H; cbv beta iota in H.
  destruct (_csrf_token (self w)) as [t|]; [|by apply (sign_in_same_cache snd) in H].
  destruct (String.eqb t ""); [by apply (sign_in_same_cache snd) in H|].
  unfold ret in H. by simplify_eq.
Qed.

(** ** The export, read from the cache the second time *)

Lemma truthy_csv_lookup (c : Cache string) k x : c !! k = Some x → truthy (Some c) = true.
Proof.
  intros Hk. unfold truthy, cache_len.
  destruct (Nat.eqb_spec (size c) 0) as [H0|H0]; [|done].
  apply map_size_empty_iff in H0. subst c. by rewrite lookup_empty in Hk.
Qed.

(** The cache holds [data] under [k]. *)
Definition holds (w : World) (k : string) (data : string) : Prop :=
  ∃ c tag, cache (self w) = Some c ∧ c !! k = Some (data, tag).

(** A download that finds the export in the cache, with the clear flag
    down: no request, no wait, no sign-in. *)
Lemma download_csv_held params w data :
  let url := export_address params in
  holds w (hash_data_url url) data → clear_cache (self w) = false →
  download_csv hash_data_url urlencode splitlines sign_in_form_action csrf_token_meta
    params w
  = (Return (_parse_csv splitlines data), extend w [CacheHit (hash_data_url url) data]).
Proof.
  intros url (c & tag & Hc & Hk) Hf.
  destruct w as [[c0 f em pw se tok wb] t]. simpl in Hc, Hf. subst c0 f.
  unfold download_csv, load_from_cache, cache_lookup, mbind, M_bind, bind, gets, when,
    emit, modify, mret, M_ret, ret.
  cbn [self cache clear_cache trace]. rewrite (truthy_csv_lookup c _ _ Hk).
  cbn [self cache clear_cache trace option_bind]. unfold cache_getitem.
  fold (export_address params). fold url. rewrite Hk. reflexivity.
Qed.

(** The first block of [download_csv], on a cache that holds an entry of
    another kind of client. *)
Lemma load_from_cache_shared key w c k0 v0 t0 o w' :
  cache (self w) = Some c → c !! k0 = Some (v0, t0) → t0 ≠ cache_tag →
  load_from_cache key w = (o, w') →
  clear_cache (self w') = false
  ∧ truthy (cache (self w')) = true
  ∧ ∃ cached, o = Return cached
      ∧ match cached with
        | Some data => holds w' key data
        | None => ∃ c', cache (self w') = Some c' ∧ c' !! key = None
        end.
Proof.
  destruct w as [[c0 f em pw se tok wb] t]. simpl. intros -> Hk Ht.
  assert (Htr : truthy (Some c) = true) by by eapply truthy_csv_lookup.
  assert (Htr' : truthy (Some (evict cache_tag c)) = true).
  { eapply truthy_csv_lookup. unfold evict. apply map_lookup_filter_Some. done. }
  unfold load_from_cache, cache_lookup, mbind, M_bind, bind, gets, when, emit,
    set_cache, set_clear_cache, modify, mret, M_ret, ret.
  cbn [self cache clear_cache trace]. rewrite Htr.
  destruct f; cbn [self cache clear_cache trace fmap option_fmap option_map option_bind];
    unfold cache_getitem.
  - destruct (evict cache_tag c !! key) as [[data tag]|] eqn:Hl;
      cbn [fmap option_fmap option_map fst self cache clear_cache trace];
      intros [= <- <-]; cbn [self cache clear_cache]; (split; [done|]); (split; [done|]);
      eexists; (split; [reflexivity|]).
    + by exists (evict cache_tag c), tag.
    + by exists (evict cache_tag c).
  - destruct (c !! key) as [[data tag]|] eqn:Hl;
      cbn [fmap option_fmap option_map fst self cache clear_cache trace];
      intros [= <- <-]; cbn [self cache clear_cache]; (split; [done|]); (split; [done|]);
      eexists; (split; [reflexivity|]).
    + by exists c, tag.
    + by exists c.
Qed.

Lemma save_to_cache_holds key data w o w' :
  truthy (cache (self w)) = true →
  save_to_cache key data w = (o, w') →
  o = Return tt ∧ holds w' key data ∧ clear_cache (self w') = clear_cache (self w).
Proof.
  destruct w as [[c0 f em pw se tok wb] t]. simpl. intros Htr.
  unfold save_to_cache, mbind, M_bind, bind, gets, when, emit, set_cache, modify,
    mret, M_ret, ret.
  cbn [self cache clear_cache trace]. rewrite Htr.
  destruct c0 as [c|]; [|done].
  cbn [self cache clear_cache trace fmap option_fmap option_map].
  intros [= <- <-]. split; [done|]. split; [|done].
  eexists _, _. split; [reflexivity|]. unfold cache_set. apply lookup_insert_eq.
Qed.

(** The same export asked for twice, with a cache that holds an entry of
    another kind of client: the second download returns what the first
    returned, from the cache, without a request, a wait or a sign-in. *)
Theorem export_cached_twice params w c k0 v0 t0 rows w1 :
  cache (self w) = Some c → c !! k0 = Some (v0, t0) → t0 ≠ cache_tag →
  download_csv hash_data_url urlencode splitlines sign_in_form_action csrf_token_meta
    params w = (Return rows, w1) →
  ∃ data,
    rows = _parse_csv splitlines data
    ∧ download_csv hash_data_url urlencode splitlines sign_in_form_action
        csrf_token_meta params w1
      = (Return rows,
         extend w1
           [CacheHit (hash_data_url (export_address params)) data]).
Proof.
  intros Hc Hk Ht H.
  assert (∃ data, rows = _parse_csv splitlines data
                  ∧ holds w1 (hash_data_url (export_address params)) data
                  ∧ clear_cache (self w1) = false) as (data & -> & Hh & Hf).
  { unfold download_csv in H. cbv zeta in H. fold (export_address params) in H.
    run H cached w2 H2;
      destruct (load_from_cache_shared _ _ _ _ _ _ _ _ Hc Hk Ht H2)
        as (Hf2 & Htr2 & cached' & Hc' & Hcached); simplify_eq.
    destruct cached' as [data|].
    { unfold ret in H. simplify_eq. by exists data. }
    run H s w3 H3; [|done..]. pose proof (session_same_cache _ _ _ H3) as S3.
    destruct (session_keeps _ _ _ _ _ H3) as (_ & _ & _ & Hs3). specialize (Hs3 s eq_refl).
    run H token w4 H4; [|done..]. pose proof (csrf_token_same_cache _ _ _ H4) as S4.
    destruct (csrf_token_keeps _ _ _ _ _ H4) as (_ & [_ _ _ K4] & _).
    run H response w5 H5; [|done..]. pose proof (request_self _ _ _ _ _ H5) as S5.
    run H u w6 H6; [|done..]. apply raise_for_status_keeps in H6 as [-> _].
    run H loc w7 H7; [|done..]. apply header_location_keeps in H7 as [-> _].
    run H polled_ w8 H8; [|done..].
    assert (Hsess : is_Some (_session (self w5))) by (rewrite S5; auto).
    destruct (poll_spec _ _ _ _ _ _ _ Hsess H8) as (S8 & _).
    destruct polled_ as [r|]; [|done]. cbv beta iota in H.
    run H u2 w9 H9; [|done..].
    assert (Hsame : cache (self w8) = cache (self w2)
                    ∧ clear_cache (self w8) = clear_cache (self w2)).
    { destruct S3, S4. rewrite S8, S5. split; congruence. }
    destruct Hsame as [Hc8 Hf8].
    destruct (save_to_cache_holds _ _ _ _ _ ltac:(by rewrite Hc8) H9) as (_ & Hh & Hf9).
    unfold ret in H. simplify_eq. exists (content r). split; [done|]. split; [done|].
    congruence. }
  exists data. split; [done|]. by apply download_csv_held.
Qed.

(** ** The requests of a client that is signed in *)

Lemma session_logged_in w :
  logged_in w →
  ∃ s, session sign_in_form_action csrf_token_meta w = (Return s, w).
Proof. intros [[s Hs] _]. exists s. unfold session, mbind, M_bind, bind, gets. by rewrite Hs. Qed.

Lemma csrf_token_logged_in w :
  logged_in w →
  ∃ t, csrf_token sign_in_form_action csrf_token_meta w = (Return (Some t), w).
Proof.
  intros [_ (t & Ht & Hne)]. exists t.
  unfold csrf_token, mbind, M_bind, bind, gets. rewrite Ht.
  by apply String.eqb_neq in Hne as ->.
Qed.

Lemma load_from_cache_falsy key w :
  truthy (cache (self w)) = false → load_from_cache key w = (Return None, w).
Proof.
  intros Htr. unfold load_from_cache, mbind, M_bind, bind, gets. by rewrite Htr.
Qed.

Lemma save_to_cache_falsy key data w :
  truthy (cache (self w)) = false → save_to_cache key data w = (Return tt, w).
Proof.
  intros Htr. unfold save_to_cache, mbind, M_bind, bind, gets. by rewrite Htr.
Qed.

(** How the polling ended, and what [download_csv] made of it. *)
Definition settled (fs : list ((Exception + Response) * Exception))
    (last : option (Exception + Response)) (out : Outcome (list string)) : Prop :=
  match last with
  | None =>
      length fs = 9%nat ∧ out = Raise (DownloadError "Failed to download the CSV export")
  | Some (inr r) => out = Return (_parse_csv splitlines (content r))
  | Some (inl e) => out = Raise e
  end.

(** A client that is signed in and has no cache that is true in Python
    asks for the export, then polls the address it was given, and nothing
    else: it does not sign in again. A failure of the first request, an HTTP
    error status or a missing [Location] header ends the download before
    the first wait. *)
Theorem signed_in_download params w out w' :
  logged_in w → truthy (cache (self w)) = false →
  download_csv hash_data_url urlencode splitlines sign_in_form_action csrf_token_meta
    params w = (out, w') →
  let url := export_address params in
  let answer := web (self w) (trace w) POST url in
  match answer with
  | inl e => out = Raise e ∧ w' = extend w [Requested POST url answer]
  | inr r =>
      if is_error r
      then out = Raise (HTTPError (status_code r))
           ∧ w' = extend w [Requested POST url answer]
      else match location r with
           | None => out = Raise (KeyError "location")
                     ∧ w' = extend w [Requested POST url answer]
           | Some loc =>
               ∃ fs last,
                 w' = extend w ([Requested POST url answer]
                                ++ polled (loc ++ "/download")%string fs last)
                 ∧ Forall is_failure fs ∧ not_failure last
                 ∧ (attempts_made fs last ≤ 9)%nat
                 ∧ settled fs last out
           end
  end.
Proof.
  intros Hin Htr H url answer.
  unfold download_csv in H. cbv zeta in H. fold (export_address params) in H.
  fold url in H.
  run_as H (load_from_cache_falsy (hash_data_url url) w Htr).
  destruct (session_logged_in w Hin) as (s & Hs).
  destruct (csrf_token_logged_in w Hin) as (t & Ht).
  run_as H Hs. run_as H Ht.
  unfold mbind at 1, M_bind at 1, bind at 1, request at 1 in H. cbv zeta in H.
  fold answer in H.
  destruct answer as [e|r]; [by injection H as <- <-|].
  set (w1 := {| self := self w; trace := trace w ++ [Requested POST url (inr r)] |}) in *.
  unfold mbind at 1, M_bind at 1, bind at 1, raise_for_status at 1 in H.
  fold (is_error r) in H.
  destruct (is_error r); [unfold raise in H; by injection H as <- <-|].
  unfold ret at 1 in H. cbv beta iota in H.
  unfold mbind at 1, M_bind at 1, bind at 1, header_location at 1 in H.
  destruct (location r) as [loc|]; [|unfold raise in H; by injection H as <- <-].
  unfold ret at 1 in H. cbv beta iota in H.
  run H polled_ w2 H2.
  all: destruct (poll_spec sign_in_form_action csrf_token_meta _ _ w1 _ _
                   (proj1 Hin) H2) as (Hself & fs & last & Htrace & Hfs & Hlast & Hn & Ho).
  all: change (length (range 1 10)) with 9%nat in *.
  all: assert (Hw2 : w2 = extend w ([Requested POST url (inr r)]
                                     ++ polled (loc ++ "/download")%string fs last))
         by (destruct w2 as [s2 t2]; simpl in Hself, Htrace; subst s2 t2;
             unfold extend; subst w1; simpl; by rewrite <- app_assoc).
  - destruct polled_ as [r'|].
    + subst last. cbv beta iota in H.
      run_as H (save_to_cache_falsy (hash_data_url url) (content r') w2).
      2: by rewrite Hself.
      unfold ret in H. injection H as <- <-.
      exists fs, (Some (inr r')). done.
    + destruct Ho as [-> Hlen]. unfold raise in H. injection H as <- <-.
      exists fs, None. done.
  - subst last. injection H as <- <-. exists fs, (Some (inl e)). done.
  - done.
Qed.

(** ** The polling of any client *)




End CSVMore.

(** ** More concrete runs *)

Definition plain_key (url : string) : string := url.
Definition no_query (params : list (string * string)) : string := "".
Definition whole (content : string) : list string := [content].
Definition unreadable_form (page email password : string) : Exception + string :=
  inl IndexError.
Definition unreadable_token (page : string) : Exception + option string :=
  inl IndexError.

Definition export_job : Response :=
  {| status_code := 302;
     location := Some "https://juniorguru.memberful.com/admin/csv_exports/7";
     content := "" |}.
Definition export_file : Response :=
  {| status_code := 200; location := None; content := "email" |}.

(** The export is there at the first poll. *)
Definition ready_at_once : Web :=
  fun t method url =>
    match method with
    | POST => inr export_job
    | GET => inr export_file
    end.

(** A client that holds a session and a token. *)
Definition staff (c : option (Cache string)) : World :=
  {| self := {| cache := c; clear_cache := false; email := ""; password := "";
                _session := Some {| user_agent := "JuniorGuruBot (+https://junior.guru)" |};
                _csrf_token := Some "token"; web := ready_at_once |};
     trace := [] |}.

(** A cache another kind of client has written to. *)
Definition used_cache : Cache string := {[ "members" := ("[]", "memberfulapi") ]}.

Definition first_export : Outcome (list string) * World :=
  download_csv plain_key no_query whole unreadable_form unreadable_token []
    (staff (Some used_cache)).

Definition uncached_export : Outcome (list string) * World :=
  download_csv plain_key no_query whole unreadable_form unreadable_token []
    (staff None).

Lemma export_cached_twice_witness :
  ∃ data,
    ["email"] = _parse_csv whole data
    ∧ download_csv plain_key no_query whole unreadable_form unreadable_token []
        first_export.2
      = (Return ["email"],
         extend first_export.2 [CacheHit (plain_key (export_address no_query [])) data]).
Proof.
  apply (export_cached_twice plain_key no_query whole unreadable_form unreadable_token
           [] (staff (Some used_cache)) used_cache "members" "[]" "memberfulapi"
           ["email"] first_export.2).
  - reflexivity.
  - vm_compute. reflexivity.
  - discriminate.
  - vm_compute. reflexivity.
Defined.

Lemma signed_in_download_witness :
  ∃ fs last,
    uncached_export.2
    = extend (staff None)
        ([Requested POST (export_address no_query []) (inr export_job)]
         ++ polled "https://juniorguru.memberful.com/admin/csv_exports/7/download"
              fs last)
    ∧ Forall is_failure fs ∧ not_failure last
    ∧ (attempts_made fs last ≤ 9)%nat
    ∧ settled whole fs last uncached_export.1.
Proof.
  apply (signed_in_download plain_key no_query whole unreadable_form unreadable_token
           [] (staff None) uncached_export.1 uncached_export.2).
  - split; [by eexists|]. exists "token". split; [reflexivity|discriminate].
  - reflexivity.
  - apply surjective_pairing.
Defined.

(** *** The export that is never ready in time *)


End CSVFacts.

(* ===================================================================== *)
(** * Properties of the subscription ledger                              *)
(* ===================================================================== *)

Module LedgerFacts.
Import Python Subscription.
Local Open Scope Z_scope.
Local Open Scope string_scope.
Local Open Scope list_scope.

(** ** Dates before the legacy cutoff *)

Lemma is_missing_before d :
  date_ltb d LEGACY_PLANS_DELETED_ON = true ∨ (year d = 2023 ∧ month d = 2) →
  is_missing_subscriptions_data d = true.
Proof.
  unfold is_missing_subscriptions_data. intros [H|[Hy Hm]].
  - by rewrite H.
  - destruct (date_ltb d LEGACY_PLANS_DELETED_ON); [done|].
    rewrite bool_decide_eq_true_2; [done|].
    unfold month_range. simpl. by rewrite Hy, Hm.
Qed.

(** Claim C9. For a date before 2023-02-24 or in February 2023 the three
    decorated counts return [None] and the breakdown returns an empty
    dict, whatever the table holds. *)
Theorem legacy_dates_short_circuit cls d :
  date_ltb d LEGACY_PLANS_DELETED_ON = true ∨ (year d = 2023 ∧ month d = 2) →
  active_individuals_count cls d = inr VNone
  ∧ active_individuals_yearly_count cls d = inr VNone
  ∧ individuals_signups_count cls d = inr VNone
  ∧ active_subscription_type_breakdown cls d = inr (VDict []).
Proof.
  intros H. apply is_missing_before in H.
  unfold active_individuals_count, active_individuals_yearly_count,
    individuals_signups_count, active_subscription_type_breakdown,
    uses_data_from_subscriptions.
  rewrite H. done.
Qed.

(** ** The latest activity of an account *)

Lemma latest_at_Some cls d account m :
  latest_at cls d account = Some m →
  (∃ r, r ∈ cls ∧ account_id r = account ∧ date_leb (happened_on r) d = true
        ∧ happened_at r = m)
  ∧ ∀ r, r ∈ cls → account_id r = account → date_leb (happened_on r) d = true →
      happened_at r <= m.
Proof.
  revert m. induction cls as [|x cls IH]; intros m; simpl; [done|].
  destruct (bool_decide (account_id x = account) && date_leb (happened_on x) d) eqn:Hx.
  - apply andb_true_iff in Hx as [Ha Hd]. apply bool_decide_eq_true in Ha.
    destruct (latest_at cls d account) as [m'|] eqn:Hl.
    + intros [= <-]. destruct (IH m' eq_refl) as [(r & Hr & Hra & Hrd & Hrm) Hmax].
      split.
      * destruct (Z.max_spec (happened_at x) m') as [[_ ->]|[_ ->]].
        -- exists r. split_and!; try done. by right.
        -- exists x. split_and!; try done. by left.
      * intros r' Hr' Ha' Hd'. apply elem_of_cons in Hr' as [->|Hr']; [lia|].
        specialize (Hmax r' Hr' Ha' Hd'). lia.
    + intros [= <-]. split.
      * exists x. split_and!; try done. by left.
      * intros r' Hr' Ha' Hd'. apply elem_of_cons in Hr' as [->|Hr']; [lia|].
        exfalso. clear IH. induction cls as [|y cls IH']; [by apply elem_of_nil in Hr'|].
        simpl in Hl.
        destruct (bool_decide (account_id y = account) && date_leb (happened_on y) d) eqn:Hy;
          [by destruct (latest_at cls d account)|].
        apply elem_of_cons in Hr' as [->|Hr']; [|by apply IH'].
        rewrite Hd', bool_decide_eq_true_2 in Hy; done.
  - intros Hm. destruct (IH m Hm) as [(r & Hr & Hra & Hrd & Hrm) Hmax]. split.
    + exists r. split_and!; try done. by right.
    + intros r' Hr' Ha' Hd'. apply elem_of_cons in Hr' as [->|Hr']; [|by apply Hmax].
      rewrite Hd', bool_decide_eq_true_2 in Hx; done.
Qed.

Lemma latest_at_is_Some cls d r :
  r ∈ cls → date_leb (happened_on r) d = true →
  is_Some (latest_at cls d (account_id r)).
Proof.
  induction cls as [|x cls IH]; intros Hr Hd; [by apply elem_of_nil in Hr|].
  simpl. apply elem_of_cons in Hr as [<-|Hr].
  - rewrite Hd, bool_decide_eq_true_2 by done. simpl. by eexists.
  - destruct (_ && _); [by eexists|by apply IH].
Qed.

(** The row an account was last seen with is in the listing. *)
Lemma latest_in_listing cls d r :
  r ∈ cls → date_leb (happened_on r) d = true →
  (∀ r', r' ∈ cls → account_id r' = account_id r →
         date_leb (happened_on r') d = true → happened_at r' <= happened_at r) →
  r ∈ listing cls d.
Proof.
  intros Hr Hd Hmax. unfold listing. apply list_elem_of_filter. split; [|done].
  destruct (latest_at_is_Some cls d r Hr Hd) as [m Hm]. rewrite Hm. f_equal.
  destruct (latest_at_Some _ _ _ _ Hm) as [(r0 & Hr0 & Ha0 & Hd0 & <-) Hle].
  specialize (Hmax r0 Hr0 Ha0 Hd0). specialize (Hle r Hr eq_refl Hd). lia.
Qed.

(** Claim C8. When the breakdown is computed, that is for a date past the
    legacy cutoff month, an account whose latest activity up to that date
    is not a deactivation and has no subscription type makes the breakdown
    raise [ValueError]: nothing is returned, so the account is counted
    under no type. *)
Theorem breakdown_raises_on_missing_type cls d r :
  is_missing_subscriptions_data d = false →
  r ∈ cls → date_leb (happened_on r) d = true →
  (∀ r', r' ∈ cls → account_id r' = account_id r →
         date_leb (happened_on r') d = true → happened_at r' <= happened_at r) →
  type r ≠ DEACTIVATION →
  subscription_type r = None →
  ∃ msg, active_subscription_type_breakdown cls d = inl (ValueError msg).
Proof.
  intros Hmiss Hr Hd Hmax Hact Hnone.
  unfold active_subscription_type_breakdown, uses_data_from_subscriptions.
  rewrite Hmiss. rewrite bool_decide_eq_true_2; [by eexists|].
  apply list_elem_of_fmap. exists r. split; [done|].
  unfold active_listing. apply list_elem_of_filter. split; [done|].
  by apply latest_in_listing.
Qed.

(** ** The share of women *)

Lemma active_women_ptc_some_members cls d :
  active_count cls d ≠ 0 →
  active_women_ptc cls d
  = ceil (PrimFloat.mul (truediv (active_women_count cls d) (active_count cls d))
                        (float_of_int 100)).
Proof.
  unfold active_women_ptc. intros H.
  destruct (Z.eqb_spec (active_count cls d) 0); done.
Qed.

(** ** Concrete tables *)

Definition on_day (y m d : Z) : date := {| year := y; month := m; day := d |}.

Definition activity (t : SubscriptionActivityType) (account : string) (d : date)
    (at_ : Z) (st : option SubscriptionType) : SubscriptionActivity :=
  {| type := t; account_id := account; account_has_feminine_name := false;
     happened_on := d; happened_at := at_; order_coupon := None;
     subscription_interval := None; subscription_type := st |}.

(** A member with an order and no subscription type. *)
Definition untyped_2024 : Table := [activity ORDER "1" (on_day 2024 3 1) 100 None].
Definition untyped_2023 : Table := [activity ORDER "1" (on_day 2023 1 10) 100 None].

Lemma breakdown_raises_on_missing_type_witness :
  ∃ msg, active_subscription_type_breakdown untyped_2024 (on_day 2024 3 31)
         = inl (ValueError msg).
Proof.
  apply (breakdown_raises_on_missing_type untyped_2024 (on_day 2024 3 31)
           (activity ORDER "1" (on_day 2024 3 1) 100 None)).
  - reflexivity.
  - by left.
  - reflexivity.
  - intros r' Hr' _ _. apply list_elem_of_singleton in Hr'. subst r'. simpl. lia.
  - discriminate.
  - reflexivity.
Defined.

Lemma legacy_dates_short_circuit_witness :
  active_individuals_count untyped_2023 (on_day 2023 2 28) = inr VNone
  ∧ active_individuals_yearly_count untyped_2023 (on_day 2023 2 28) = inr VNone
  ∧ individuals_signups_count untyped_2023 (on_day 2023 2 28) = inr VNone
  ∧ active_subscription_type_breakdown untyped_2023 (on_day 2023 2 28) = inr (VDict []).
Proof.
  apply (legacy_dates_short_circuit untyped_2023 (on_day 2023 2 28)).
  right. split; reflexivity.
Defined.

(** Twenty-five members, the first seven of them women. *)
Definition member (n : nat) : SubscriptionActivity :=
  {| type := ORDER;
     account_id := String (Ascii.ascii_of_nat (65 + n)) "";
     account_has_feminine_name := bool_decide (n < 7)%nat;
     happened_on := on_day 2024 1 1;
     happened_at := Z.of_nat n;
     order_coupon := None;
     subscription_interval := Some MONTH;
     subscription_type := Some INDIVIDUAL |}.

Definition seven_of_twenty_five : Table := member <$> seq 0 25.

(** Claim C10, at seven women among twenty-five active members. The share is
    28 percent exactly; in floating point [7 / 25 * 100] is
    28.000000000000004 and [active_women_ptc] returns 29. *)
Theorem women_ptc_seven_of_twenty_five :
  active_count seven_of_twenty_five (on_day 2024 6 1) = 25
  ∧ active_women_count seven_of_twenty_five (on_day 2024 6 1) = 7
  ∧ active_women_ptc seven_of_twenty_five (on_day 2024 6 1) = inr 29
  ∧ (7 * 100 = 28 * 25)%Z.
Proof. (split_and!; vm_compute; reflexivity). Qed.


Section MarkTrialsProps.
Variable pick : SubscriptionActivity -> new_subscription_type ->
                list new_subscription_type -> new_subscription_type.
Hypothesis pick_elem : ∀ r c cs, pick r c cs ∈ c :: cs.

Variable cls : Table.
Variable account : string.
Variable trial_end : date.

Hypothesis has_trial_end :
  ∃ r, r ∈ cls ∧ account_id r = account ∧ type r = TRIAL_END
       ∧ happened_on r = trial_end.
Hypothesis has_order :
  ∃ r, r ∈ cls ∧ account_id r = account ∧ type r = ORDER
       ∧ happened_on r = trial_end.
Hypothesis one_trial_end :
  ∀ r, r ∈ cls → account_id r = account → type r = TRIAL_END →
       happened_on r = trial_end.
Hypothesis order_is_individual :
  ∀ r, r ∈ cls → account_id r = account → type r = ORDER →
       happened_on r = trial_end → subscription_type r = Some INDIVIDUAL.



Lemma date_ltb_leb a b : date_ltb a b = true → date_leb a b = true.
Proof. unfold date_leb. by intros ->. Qed.

Lemma elem_of_new_subscription_types c :
  c ∈ new_subscription_types cls ↔
  ∃ r also, r ∈ cls ∧ also ∈ cls
    ∧ account_id r = account_id also ∧ happened_on r = happened_on also
    ∧ type r = ORDER ∧ type also = TRIAL_END
    ∧ c = {| nst_account_id := account_id r;
             nst_happened_on := happened_on r;
             nst_subscription_type := subscription_type r |}.
Proof.
  unfold new_subscription_types. rewrite !list_elem_of_In, in_flat_map. split.
  - intros (r & Hr & Hc). apply in_flat_map in Hc as (also & Halso & Hc).
    exists r, also. rewrite !list_elem_of_In.
    destruct (bool_decide (account_id r = account_id also)) eqn:H1; [|done].
    destruct (bool_decide (happened_on r = happened_on also)) eqn:H2; [|done].
    destruct (bool_decide (type r = ORDER)) eqn:H3; [|done].
    destruct (bool_decide (type also = TRIAL_END)) eqn:H4; [|done].
    apply bool_decide_eq_true in H1, H2, H3, H4.
    simpl in Hc. destruct Hc as [<-|[]]. done.
  - intros (r & also & Hr & Halso & H1 & H2 & H3 & H4 & ->).
    rewrite list_elem_of_In in Hr, Halso.
    exists r. split; [done|]. apply in_flat_map. exists also. split; [done|].
    rewrite !bool_decide_eq_true_2 by done. by left.
Qed.



Definition pass1_row (r : SubscriptionActivity) : SubscriptionActivity :=
  match filter (fun c => pass1_matches r c) (new_subscription_types cls) with
  | [] => r
  | c :: cs => set_subscription_type (nst_subscription_type (pick r c cs)) r
  end.


Lemma pass1_map : pass1 pick cls = pass1_row <$> cls.
Proof. done. Qed.

Lemma pass1_row_fields r :
  type (pass1_row r) = type r ∧ account_id (pass1_row r) = account_id r
  ∧ happened_on (pass1_row r) = happened_on r.
Proof. unfold pass1_row. by destruct (filter _ _). Qed.



End MarkTrialsProps.

(** ** The scenario: trial from day 1 to day 10, order on day 10 *)







(** Two incoming records do not contradict each other: where both give a
    value for a field, it is the same value. *)
Definition compatible {A} (a b : option A) : Prop := a = None ∨ b = None ∨ a = b.

Definition agree (r1 r2 : SubscriptionActivity) : Prop :=
  unique_key r1 = unique_key r2 →
  account_has_feminine_name r1 = account_has_feminine_name r2
  ∧ compatible (order_coupon r1) (order_coupon r2)
  ∧ compatible (subscription_interval r1) (subscription_interval r2)
  ∧ compatible (subscription_type r1) (subscription_type r2).

(** The update of one row by one record. *)
Definition upsert_row (kwargs r : SubscriptionActivity) : SubscriptionActivity :=
  if conflicts kwargs r then on_conflict_update r kwargs else r.

(** What one record does to the row stored under [key], if any. *)
Definition upsert_stored (key : SubscriptionActivityType * string * date)
    (o : option SubscriptionActivity) (kwargs : SubscriptionActivity)
    : option SubscriptionActivity :=
  if bool_decide (unique_key kwargs = key)
  then Some (match o with Some old => on_conflict_update old kwargs | None => kwargs end)
  else o.


Lemma unique_key_on_conflict_update old kw :
  unique_key (on_conflict_update old kw) = unique_key old.
Proof. done. Qed.

Lemma happened_at_on_conflict_update old kw :
  happened_at (on_conflict_update old kw) = Z.max (happened_at old) (happened_at kw).
Proof. simpl. destruct (Z.ltb_spec (happened_at old) (happened_at kw)); lia. Qed.

Lemma unique_key_upsert_row kw r : unique_key (upsert_row kw r) = unique_key r.
Proof. unfold upsert_row. by destruct (conflicts kw r). Qed.

Lemma conflicts_upsert_row x kw r : conflicts x (upsert_row kw r) = conflicts x r.
Proof. unfold conflicts. by rewrite unique_key_upsert_row. Qed.

Lemma add_conflict kw cls :
  existsb (conflicts kw) cls = true → add kw cls = upsert_row kw <$> cls.
Proof. unfold add. by intros ->. Qed.

Lemma add_insert kw cls :
  existsb (conflicts kw) cls = false → add kw cls = cls ++ [kw].
Proof. unfold add. by intros ->. Qed.

Lemma existsb_conflicts_fmap x kw cls :
  existsb (conflicts x) (upsert_row kw <$> cls) = existsb (conflicts x) cls.
Proof.
  induction cls as [|r cls IH]; [done|]. rewrite fmap_cons. cbn [existsb].
  by rewrite conflicts_upsert_row, IH.
Qed.

Lemma conflicts_refl kw : conflicts kw kw = true.
Proof. unfold conflicts. by apply bool_decide_eq_true_2. Qed.

(** *** The row stored under a key *)

Lemma stored_fmap key kw cls :
  stored key (upsert_row kw <$> cls) = upsert_row kw <$> stored key cls.
Proof.
  unfold stored. induction cls as [|r cls IH]; [done|]. rewrite fmap_cons.
  cbn [find]. rewrite unique_key_upsert_row.
  by destruct (bool_decide (unique_key r = key)).
Qed.

Lemma stored_None key cls :
  stored key cls = None ↔ ∀ r, r ∈ cls → unique_key r ≠ key.
Proof.
  unfold stored. induction cls as [|x cls IH]; simpl.
  - split; [|done]. intros _ r Hr. by apply elem_of_nil in Hr.
  - destruct (bool_decide_reflect (unique_key x = key)) as [Hx|Hx].
    + split; [done|]. intros H. exfalso. apply (H x); [by left|done].
    + rewrite IH. split.
      * intros H r Hr. apply elem_of_cons in Hr as [->|Hr]; auto.
      * intros H r Hr. apply H. by right.
Qed.

Lemma stored_Some key cls r : stored key cls = Some r → r ∈ cls ∧ unique_key r = key.
Proof.
  unfold stored. induction cls as [|x cls IH]; simpl; [done|].
  destruct (bool_decide_reflect (unique_key x = key)) as [Hx|Hx].
  - intros [= <-]. split; [by left|done].
  - intros H. destruct (IH H). split; [by right|done].
Qed.

Lemma existsb_conflicts_stored kw cls :
  existsb (conflicts kw) cls = true ↔ is_Some (stored (unique_key kw) cls).
Proof.
  unfold stored, conflicts. induction cls as [|x cls IH]; simpl.
  - split; [done|]. by intros [? ?].
  - destruct (bool_decide (unique_key x = unique_key kw)); simpl; [|done].
    split; [by eexists|done].
Qed.

Lemma stored_app_None key cls l :
  stored key cls = None → stored key (cls ++ l) = stored key l.
Proof.
  unfold stored. induction cls as [|x cls IH]; simpl; [done|].
  by destruct (bool_decide (unique_key x = key)).
Qed.

Lemma stored_app_Some key cls l r :
  stored key cls = Some r → stored key (cls ++ l) = Some r.
Proof.
  unfold stored. induction cls as [|x cls IH]; simpl; [done|].
  by destruct (bool_decide (unique_key x = key)).
Qed.

Lemma stored_add key kw cls :
  stored key (add kw cls) = upsert_stored key (stored key cls) kw.
Proof.
  unfold upsert_stored.
  destruct (existsb (conflicts kw) cls) eqn:He.
  - rewrite add_conflict, stored_fmap by done.
    destruct (bool_decide_reflect (unique_key kw = key)) as [<-|Hk].
    + apply existsb_conflicts_stored in He as [old Hold]. rewrite Hold. simpl.
      unfold upsert_row, conflicts. apply stored_Some in Hold as [_ Hold].
      by rewrite bool_decide_eq_true_2.
    + destruct (stored key cls) as [old|] eqn:Hold; [|done]. simpl.
      unfold upsert_row, conflicts. apply stored_Some in Hold as [_ Hold].
      rewrite bool_decide_eq_false_2; [done|congruence].
  - rewrite add_insert by done.
    destruct (bool_decide_reflect (unique_key kw = key)) as [<-|Hk].
    + assert (stored (unique_key kw) cls = None) as Hn.
      { destruct (stored (unique_key kw) cls) eqn:Hs; [|done].
        assert (existsb (conflicts kw) cls = true); [|congruence].
        apply existsb_conflicts_stored. by rewrite Hs. }
      rewrite stored_app_None, Hn by done. unfold stored. simpl.
      by rewrite bool_decide_eq_true_2.
    + destruct (stored key cls) as [old|] eqn:Hold.
      * by erewrite stored_app_Some.
      * rewrite stored_app_None by done. unfold stored. simpl.
        by rewrite bool_decide_eq_false_2.
Qed.

Lemma stored_add_all key batch : ∀ cls,
  stored key (add_all batch cls) = foldl (upsert_stored key) (stored key cls) batch.
Proof.
  induction batch as [|kw batch IH]; intros cls; [done|].
  change (add_all (kw :: batch) cls) with (add_all batch (add kw cls)).
  by rewrite IH, stored_add.
Qed.


(** *** Order of application *)

Lemma foldl_commute_one {S X} (f : S → X → S) (l : list X) (y : X) :
  (∀ x s, x ∈ l → f (f s x) y = f (f s y) x) →
  ∀ s, f (foldl f s l) y = foldl f (f s y) l.
Proof.
  induction l as [|x l IH]; intros H s; [done|]. simpl.
  rewrite IH.
  - f_equal. apply H. by left.
  - intros x' s' Hx'. apply H. by right.
Qed.

Lemma foldl_commute {S X} (f : S → X → S) (l1 l2 : list X) :
  (∀ x y s, x ∈ l1 → y ∈ l2 → f (f s x) y = f (f s y) x) →
  ∀ s, foldl f (foldl f s l1) l2 = foldl f (foldl f s l2) l1.
Proof.
  revert l1. induction l2 as [|y l2 IH]; intros l1 H s; [done|]. simpl.
  rewrite foldl_commute_one.
  - apply IH. intros x y' s' Hx Hy'. apply H; [done|by right].
  - intros x s' Hx. apply H; [done|by left].
Qed.

Lemma overwrite_comm {A} (a b c : option A) :
  compatible a b → overwrite b (overwrite a c) = overwrite a (overwrite b c).
Proof. destruct a, b; intros [?|[?|?]]; simplify_eq; done. Qed.

Lemma overwrite_comm_base {A} (a b : option A) :
  compatible a b → overwrite b a = overwrite a b.
Proof. destruct a, b; intros [?|[?|?]]; simplify_eq; done. Qed.

Lemma max_at_comm (a b c : Z) :
  (if (if a <? b then b else a) <? c then c else if a <? b then b else a)%Z
  = (if (if a <? c then c else a) <? b then b else if a <? c then c else a)%Z.
Proof.
  destruct (Z.ltb_spec a b), (Z.ltb_spec a c);
    repeat match goal with |- context [(?x <? ?y)%Z] => destruct (Z.ltb_spec x y) end; lia.
Qed.

Lemma max_at_comm_base (a b : Z) :
  (if a <? b then b else a)%Z = (if b <? a then a else b)%Z.
Proof. destruct (Z.ltb_spec a b), (Z.ltb_spec b a); lia. Qed.

Lemma on_conflict_update_comm old x y :
  unique_key x = unique_key y → agree x y →
  on_conflict_update (on_conflict_update old x) y
  = on_conflict_update (on_conflict_update old y) x.
Proof.
  intros Hk Ha. destruct (Ha Hk) as (Hf & Hc & Hi & Ht).
  unfold on_conflict_update. simpl. f_equal.
  - done.
  - apply max_at_comm.
  - by apply overwrite_comm.
  - by apply overwrite_comm.
  - by apply overwrite_comm.
Qed.

Lemma on_conflict_update_comm_base x y :
  unique_key x = unique_key y → agree x y →
  on_conflict_update x y = on_conflict_update y x.
Proof.
  intros Hk Ha. destruct (Ha Hk) as (Hf & Hc & Hi & Ht).
  unfold unique_key in Hk. injection Hk as H1 H2 H3.
  unfold on_conflict_update. f_equal; try done.
  - apply max_at_comm_base.
  - by apply overwrite_comm_base.
  - by apply overwrite_comm_base.
  - by apply overwrite_comm_base.
Qed.

Lemma upsert_stored_comm key o x y :
  agree x y →
  upsert_stored key (upsert_stored key o x) y
  = upsert_stored key (upsert_stored key o y) x.
Proof.
  intros Ha. unfold upsert_stored.
  destruct (bool_decide_reflect (unique_key x = key)) as [Hx|Hx],
           (bool_decide_reflect (unique_key y = key)) as [Hy|Hy]; try done.
  f_equal. destruct o as [old|].
  - apply on_conflict_update_comm; [congruence|done].
  - apply on_conflict_update_comm_base; [congruence|done].
Qed.

(** *** The time of the latest record *)

Definition upsert_at (key : SubscriptionActivityType * string * date)
    (o : option Z) (kwargs : SubscriptionActivity) : option Z :=
  if bool_decide (unique_key kwargs = key)
  then Some (match o with
             | Some a => Z.max a (happened_at kwargs)
             | None => happened_at kwargs
             end)
  else o.

Lemma happened_at_upsert_stored key o kw :
  happened_at <$> upsert_stored key o kw = upsert_at key (happened_at <$> o) kw.
Proof.
  unfold upsert_stored, upsert_at. destruct (bool_decide _); [|done].
  destruct o as [old|]; [|done]. simpl. f_equal.
  destruct (Z.ltb_spec (happened_at old) (happened_at kw)); lia.
Qed.

Lemma happened_at_foldl key batch : ∀ o,
  happened_at <$> foldl (upsert_stored key) o batch
  = foldl (upsert_at key) (happened_at <$> o) batch.
Proof.
  induction batch as [|kw batch IH]; intros o; [done|]. simpl.
  by rewrite IH, happened_at_upsert_stored.
Qed.

Lemma upsert_at_comm key o x y :
  upsert_at key (upsert_at key o x) y = upsert_at key (upsert_at key o y) x.
Proof.
  unfold upsert_at. destruct (bool_decide _), (bool_decide _); try done.
  f_equal. destruct o; lia.
Qed.

Lemma foldl_upsert_stored_forward key batch : ∀ old,
  ∃ new, foldl (upsert_stored key) (Some old) batch = Some new
         ∧ happened_at old <= happened_at new
         ∧ unique_key new = unique_key old.
Proof.
  induction batch as [|kw batch IH]; intros old.
  - exists old. split; [done|]. split; [lia|done].
  - simpl. unfold upsert_stored at 2. destruct (bool_decide _).
    + destruct (IH (on_conflict_update old kw)) as (new & Hn & Hle & Hk).
      exists new. split; [done|]. rewrite happened_at_on_conflict_update in Hle.
      split; [lia|]. by rewrite Hk.
    + apply IH.
Qed.

(** *** Applying a batch twice *)

Definition upsert_all (batch : list SubscriptionActivity) (r : SubscriptionActivity)
    : SubscriptionActivity :=
  foldl (fun r kw => upsert_row kw r) r batch.

Lemma upsert_row_conflict kw r :
  conflicts kw r = true → upsert_row kw r = on_conflict_update r kw.
Proof. unfold upsert_row. by intros ->. Qed.

Lemma upsert_row_no_conflict kw r : conflicts kw r = false → upsert_row kw r = r.
Proof. unfold upsert_row. by intros ->. Qed.

Lemma upsert_all_cons y batch r :
  upsert_all (y :: batch) r = upsert_all batch (upsert_row y r).
Proof. done. Qed.

(** Two rows that one more record makes equal. *)
Definition alike (kw x z : SubscriptionActivity) : Prop :=
  on_conflict_update x kw = on_conflict_update z kw.

Lemma overwrite_idem {A} (a b : option A) : overwrite a (overwrite a b) = overwrite a b.
Proof. by destruct a. Qed.

Lemma overwrite_alike {A} (k y a b : option A) :
  overwrite k a = overwrite k b →
  overwrite k (overwrite y a) = overwrite k (overwrite y b).
Proof. by destruct k, y. Qed.

Lemma alike_self kw x : alike kw (on_conflict_update x kw) x.
Proof.
  unfold alike, on_conflict_update. simpl. f_equal.
  - destruct (Z.ltb_spec (happened_at x) (happened_at kw)) as [H|H].
    + by rewrite Z.ltb_irrefl.
    + destruct (Z.ltb_spec (happened_at x) (happened_at kw)); [lia|done].
  - apply overwrite_idem.
  - apply overwrite_idem.
  - apply overwrite_idem.
Qed.

Lemma alike_unique_key kw x z : alike kw x z → unique_key x = unique_key z.
Proof.
  unfold alike, on_conflict_update, unique_key. intros H. injection H. congruence.
Qed.

Lemma alike_upsert_row y kw x z :
  alike kw x z → alike kw (upsert_row y x) (upsert_row y z).
Proof.
  intros H. pose proof (alike_unique_key _ _ _ H) as Hk.
  unfold upsert_row, conflicts. rewrite <- Hk.
  destruct (bool_decide (unique_key x = unique_key y)); [|done].
  unfold alike, on_conflict_update in *. simpl.
  injection H as H1 H2 H3 H4 H5 H6 H7. f_equal; try done.
  - repeat match goal with
           | H : context [(?a <? ?b)%Z] |- _ => destruct (Z.ltb_spec a b)
           | |- context [(?a <? ?b)%Z] => destruct (Z.ltb_spec a b)
           end; lia.
  - by apply overwrite_alike.
  - by apply overwrite_alike.
  - by apply overwrite_alike.
Qed.

Lemma alike_upsert_all batch kw : ∀ x z,
  alike kw x z → alike kw (upsert_all batch x) (upsert_all batch z).
Proof.
  induction batch as [|y batch IH]; intros x z H; [done|].
  rewrite !upsert_all_cons. apply IH. by apply alike_upsert_row.
Qed.

Lemma unique_key_upsert_all batch : ∀ r, unique_key (upsert_all batch r) = unique_key r.
Proof.
  induction batch as [|y batch IH]; intros r; [done|].
  by rewrite upsert_all_cons, IH, unique_key_upsert_row.
Qed.

Lemma upsert_all_snoc batch kw r :
  upsert_all (batch ++ [kw]) r = upsert_row kw (upsert_all batch r).
Proof. unfold upsert_all. by rewrite foldl_app. Qed.

Lemma add_all_snoc batch kw cls :
  add_all (batch ++ [kw]) cls = add kw (add_all batch cls).
Proof. unfold add_all. by rewrite foldl_app. Qed.

Lemma on_conflict_update_idem x : on_conflict_update x x = x.
Proof.
  destruct x. unfold on_conflict_update. simpl. rewrite Z.ltb_irrefl.
  f_equal; by match goal with |- overwrite ?o ?o = _ => destruct o end.
Qed.

Lemma upsert_all_no_conflict batch : ∀ r,
  (∀ kw, kw ∈ batch → conflicts kw r = false) → upsert_all batch r = r.
Proof.
  induction batch as [|y batch IH]; intros r H; [done|].
  rewrite upsert_all_cons, upsert_row_no_conflict by (apply H; by left).
  apply IH. intros kw Hkw. apply H. by right.
Qed.

Lemma existsb_conflicts_add_self kw cls : existsb (conflicts kw) (add kw cls) = true.
Proof.
  destruct (existsb (conflicts kw) cls) eqn:He.
  - by rewrite add_conflict, existsb_conflicts_fmap.
  - rewrite add_insert by done. rewrite existsb_app. simpl.
    rewrite conflicts_refl. by rewrite orb_true_r.
Qed.

Lemma existsb_conflicts_add_mono x kw cls :
  existsb (conflicts x) cls = true → existsb (conflicts x) (add kw cls) = true.
Proof.
  intros H. destruct (existsb (conflicts kw) cls) eqn:He.
  - by rewrite add_conflict, existsb_conflicts_fmap.
  - rewrite add_insert by done. rewrite existsb_app. by rewrite H.
Qed.

Lemma existsb_conflicts_add_all batch : ∀ cls kw,
  kw ∈ batch → existsb (conflicts kw) (add_all batch cls) = true.
Proof.
  induction batch as [|y batch IH] using rev_ind; intros cls kw Hkw.
  { by apply elem_of_nil in Hkw. }
  rewrite add_all_snoc. apply elem_of_app in Hkw as [Hkw|Hkw].
  - apply existsb_conflicts_add_mono. by apply IH.
  - apply list_elem_of_singleton in Hkw as ->. apply existsb_conflicts_add_self.
Qed.

Lemma add_all_conflicts batch : ∀ cls,
  (∀ kw, kw ∈ batch → existsb (conflicts kw) cls = true) →
  add_all batch cls = upsert_all batch <$> cls.
Proof.
  induction batch as [|y batch IH]; intros cls H.
  { simpl. by rewrite list_fmap_id. }
  change (add_all (y :: batch) cls) with (add_all batch (add y cls)).
  rewrite add_conflict by (apply H; by left).
  rewrite IH.
  - by rewrite <- list_fmap_compose.
  - intros kw Hkw. rewrite existsb_conflicts_fmap. apply H. by right.
Qed.

Lemma existsb_conflicts_false kw cls r :
  existsb (conflicts kw) cls = false → r ∈ cls → conflicts kw r = false.
Proof.
  intros H Hr. apply not_true_is_false. intros Hc.
  assert (existsb (conflicts kw) cls = true); [|congruence].
  apply existsb_exists. exists r. split; [by apply list_elem_of_In|done].
Qed.

(** Every row of the table that a batch has built absorbs the batch. *)
Lemma upsert_all_absorbed batch : ∀ cls r,
  r ∈ add_all batch cls → upsert_all batch r = r.
Proof.
  induction batch as [|kw batch IH] using rev_ind; intros cls r Hr; [done|].
  rewrite add_all_snoc in Hr. rewrite upsert_all_snoc.
  destruct (existsb (conflicts kw) (add_all batch cls)) eqn:He.
  - rewrite add_conflict in Hr by done.
    apply list_elem_of_fmap in Hr as (r0 & -> & Hr0).
    pose proof (IH cls r0 Hr0) as Habs.
    destruct (conflicts kw r0) eqn:Hc.
    + rewrite (upsert_row_conflict kw r0) by done.
      rewrite upsert_row_conflict.
      * pose proof (alike_upsert_all batch kw _ _ (alike_self kw r0)) as Ha.
        unfold alike in Ha. by rewrite Ha, Habs.
      * unfold conflicts in *. by rewrite unique_key_upsert_all.
    + rewrite (upsert_row_no_conflict kw r0) by done.
      by rewrite Habs, upsert_row_no_conflict.
  - rewrite add_insert in Hr by done. apply elem_of_app in Hr as [Hr|Hr].
    + rewrite (IH cls r Hr). apply upsert_row_no_conflict.
      by apply (existsb_conflicts_false _ _ _ He Hr).
    + apply list_elem_of_singleton in Hr as ->.
      rewrite upsert_all_no_conflict.
      * by rewrite upsert_row_conflict, on_conflict_update_idem by apply conflicts_refl.
      * intros kw' Hkw'. apply not_true_is_false. intros Hc.
        pose proof (existsb_conflicts_add_all batch cls kw' Hkw') as Hex.
        apply existsb_exists in Hex as (r & Hr & Hcr).
        assert (existsb (conflicts kw) (add_all batch cls) = true); [|congruence].
        apply existsb_exists. exists r. split; [done|].
        unfold conflicts in *. apply bool_decide_eq_true in Hc, Hcr.
        apply bool_decide_eq_true. congruence.
Qed.

Lemma add_all_idempotent batch cls :
  add_all batch (add_all batch cls) = add_all batch cls.
Proof.
  rewrite add_all_conflicts by (intros; by apply existsb_conflicts_add_all).
  pose proof (upsert_all_absorbed batch cls) as H.
  induction (add_all batch cls) as [|r l IH]; [done|].
  rewrite fmap_cons. f_equal.
  - apply H. by left.
  - apply IH. intros r' Hr'. apply H. by right.
Qed.

(** *** The unique index *)

Lemma unique_index_fmap kw cls :
  unique_index cls → unique_index (upsert_row kw <$> cls).
Proof.
  unfold unique_index. intros H.
  assert (map unique_key (upsert_row kw <$> cls) = map unique_key cls) as ->; [|done].
  induction cls as [|r cls IH]; [done|].
  rewrite fmap_cons. simpl. rewrite unique_key_upsert_row. f_equal. apply IH.
  by apply NoDup_cons in H as [_ H].
Qed.

Lemma unique_index_add kw cls : unique_index cls → unique_index (add kw cls).
Proof.
  intros H. destruct (existsb (conflicts kw) cls) eqn:He.
  - rewrite add_conflict by done. by apply unique_index_fmap.
  - rewrite add_insert by done. unfold unique_index in *.
    rewrite map_app. simpl. apply NoDup_app. split; [done|]. split.
    + intros k Hk Hk'. apply list_elem_of_singleton in Hk' as ->.
      apply list_elem_of_In, in_map_iff in Hk as (r & Hr & Hin).
      apply list_elem_of_In in Hin.
      pose proof (existsb_conflicts_false _ _ _ He Hin) as Hc.
      unfold conflicts in Hc. by apply bool_decide_eq_false in Hc.
    + apply NoDup_singleton.
Qed.

Lemma unique_index_add_all batch : ∀ cls,
  unique_index cls → unique_index (add_all batch cls).
Proof.
  induction batch as [|kw batch IH]; intros cls H; [done|].
  change (add_all (kw :: batch) cls) with (add_all batch (add kw cls)).
  by apply IH, unique_index_add.
Qed.

Lemma elem_of_stored cls r :
  unique_index cls → r ∈ cls ↔ stored (unique_key r) cls = Some r.
Proof.
  intros H. split; [|by intros [? _]%stored_Some].
  unfold unique_index, stored in *. induction cls as [|x cls IH]; intros Hr.
  { by apply elem_of_nil in Hr. }
  simpl in H. apply NoDup_cons in H as [Hx H]. simpl.
  apply elem_of_cons in Hr as [->|Hr].
  - by rewrite bool_decide_eq_true_2.
  - rewrite bool_decide_eq_false_2; [by apply IH|].
    intros Hk. apply Hx. rewrite Hk. apply list_elem_of_In, in_map.
    by apply list_elem_of_In.
Qed.

Lemma unique_index_NoDup cls : unique_index cls → NoDup cls.
Proof.
  unfold unique_index. induction cls as [|x cls IH]; intros H; [constructor|].
  simpl in H. apply NoDup_cons in H as [Hx H]. apply NoDup_cons. split; [|by apply IH].
  intros Hin. apply Hx. apply list_elem_of_In, in_map. by apply list_elem_of_In.
Qed.

Lemma same_stored_permutation t1 t2 :
  unique_index t1 → unique_index t2 →
  (∀ key, stored key t1 = stored key t2) → t1 ≡ₚ t2.
Proof.
  intros H1 H2 H. apply NoDup_Permutation; [by apply unique_index_NoDup..|].
  intros r. rewrite !elem_of_stored by done. by rewrite H.
Qed.


(** ** The upsert of the ledger *)

(** Claim C2, as the code has it. Adding a batch twice leaves the table as
    adding it once does. Two batches added in either order store the same
    [happened_at] under every key; they store the same rows when no record
    of one contradicts a record of the other on a field both give, and then
    the two tables hold the same rows. The [happened_at] stored under a key
    never decreases. Under the key of the record added, [add] stores the
    record itself when there was none, and otherwise the stored row
    updated: [happened_at] is the later of the two, the key columns are
    kept, and every other column takes the incoming value unless that is
    [None]. *)
Theorem ledger_upsert :
  (∀ batch cls, add_all batch (add_all batch cls) = add_all batch cls)
  ∧ (∀ batch1 batch2 cls key,
       happened_at <$> stored key (add_all batch2 (add_all batch1 cls))
       = happened_at <$> stored key (add_all batch1 (add_all batch2 cls)))
  ∧ (∀ batch1 batch2 cls,
       (∀ r1 r2, r1 ∈ batch1 → r2 ∈ batch2 → agree r1 r2) →
       (∀ key, stored key (add_all batch2 (add_all batch1 cls))
               = stored key (add_all batch1 (add_all batch2 cls)))
       ∧ (unique_index cls →
            add_all batch2 (add_all batch1 cls) ≡ₚ add_all batch1 (add_all batch2 cls)))
  ∧ (∀ batch cls key old,
       stored key cls = Some old →
       ∃ new, stored key (add_all batch cls) = Some new
              ∧ happened_at old <= happened_at new)
  ∧ (∀ kwargs cls key,
       stored key (add kwargs cls)
       = if bool_decide (unique_key kwargs = key)
         then Some (match stored key cls with
                    | Some old => on_conflict_update old kwargs
                    | None => kwargs
                    end)
         else stored key cls)
  ∧ (∀ old kwargs,
       let new := on_conflict_update old kwargs in
       happened_at new = Z.max (happened_at old) (happened_at kwargs)
       ∧ unique_key new = unique_key old
       ∧ account_has_feminine_name new = account_has_feminine_name kwargs
       ∧ order_coupon new
         = match order_coupon kwargs with
           | Some v => Some v
           | None => order_coupon old
           end
       ∧ subscription_interval new
         = match subscription_interval kwargs with
           | Some v => Some v
           | None => subscription_interval old
           end
       ∧ subscription_type new
         = match subscription_type kwargs with
           | Some v => Some v
           | None => subscription_type old
           end).
Proof.
  split_and!.
  - apply add_all_idempotent.
  - intros batch1 batch2 cls key. rewrite !stored_add_all, !happened_at_foldl.
    apply foldl_commute. intros x y s _ _. apply upsert_at_comm.
  - intros batch1 batch2 cls Hagree.
    assert (Hs : ∀ key, stored key (add_all batch2 (add_all batch1 cls))
                        = stored key (add_all batch1 (add_all batch2 cls))).
    { intros key. rewrite !stored_add_all. apply foldl_commute.
      intros x y s Hx Hy. apply upsert_stored_comm. by apply Hagree. }
    split; [done|]. intros Hu.
    apply same_stored_permutation; [by do 2 apply unique_index_add_all..|done].
  - intros batch cls key old Hold. rewrite stored_add_all, Hold.
    destruct (foldl_upsert_stored_forward key batch old) as (new & Hn & Hle & _).
    by exists new.
  - intros kwargs cls key. apply stored_add.
  - intros old kwargs. simpl. split_and!; try done.
    destruct (Z.ltb_spec (happened_at old) (happened_at kwargs)); lia.
Qed.

(** Two records for one key that give different subscription types. *)
Definition feb (d : Z) : date := {| year := 2024; month := 2; day := d |}.

Definition order_as (st : SubscriptionType) (at_ : Z) : SubscriptionActivity :=
  {| type := ORDER; account_id := "7"; account_has_feminine_name := false;
     happened_on := feb 1; happened_at := at_; order_coupon := None;
     subscription_interval := Some MONTH; subscription_type := Some st |}.

Lemma batches_in_either_order_differ :
  stored (ORDER, "7", feb 1)
    (add_all [order_as TRIAL 20] (add_all [order_as INDIVIDUAL 10] []))
  = Some (order_as TRIAL 20)
  ∧ stored (ORDER, "7", feb 1)
      (add_all [order_as INDIVIDUAL 10] (add_all [order_as TRIAL 20] []))
    = Some (order_as INDIVIDUAL 20)
  ∧ add_all [order_as TRIAL 20] (add_all [order_as INDIVIDUAL 10] [])
    ≠ add_all [order_as INDIVIDUAL 10] (add_all [order_as TRIAL 20] []).
Proof. split_and!; [reflexivity | reflexivity | discriminate]. Qed.

(** ** The size of the ledger *)

Lemma map_unique_key_fmap (cls : Table) : map unique_key cls = unique_key <$> cls.
Proof. induction cls as [|r cls IH]; [done|]. simpl. by rewrite IH. Qed.

Lemma keys_upsert_row kw (cls : Table) :
  unique_key <$> (upsert_row kw <$> cls) = unique_key <$> cls.
Proof.
  induction cls as [|r cls IH]; [done|].
  rewrite !fmap_cons, unique_key_upsert_row. by f_equal.
Qed.

Lemma keys_add kw cls k :
  k ∈ unique_key <$> add kw cls ↔ k ∈ unique_key <$> cls ∨ k = unique_key kw.
Proof.
  destruct (existsb (conflicts kw) cls) eqn:He.
  - rewrite add_conflict, keys_upsert_row by done. split; [by left|].
    intros [H| ->]; [done|].
    apply existsb_conflicts_stored in He as [r Hr].
    apply stored_Some in Hr as [Hr <-]. by apply list_elem_of_fmap_2.
  - rewrite add_insert by done. rewrite fmap_app, elem_of_app. simpl.
    by rewrite list_elem_of_singleton.
Qed.

Lemma keys_add_all batch : ∀ cls k,
  k ∈ unique_key <$> add_all batch cls
  ↔ k ∈ unique_key <$> cls ∨ k ∈ unique_key <$> batch.
Proof.
  induction batch as [|kw batch IH]; intros cls k.
  - simpl. split; [by left|]. intros [H|H]; [done|]. by apply elem_of_nil in H.
  - change (add_all (kw :: batch) cls) with (add_all batch (add kw cls)).
    rewrite IH, keys_add, fmap_cons, elem_of_cons. tauto.
Qed.

(** The unique index holds of every table built by [add] alone, each key of
    the table or of the batch is stored, no other is, and [total_count] is
    the number of distinct keys. *)
Theorem ledger_keys batch cls :
  unique_index cls →
  unique_index (add_all batch cls)
  ∧ (∀ k, k ∈ unique_key <$> add_all batch cls
          ↔ k ∈ unique_key <$> cls ∨ k ∈ unique_key <$> batch)
  ∧ total_count (add_all batch cls)
    = Z.of_nat (length (remove_dups (unique_key <$> cls ++ batch))).
Proof.
  intros Hu. pose proof (unique_index_add_all batch cls Hu) as Hu'.
  split; [done|]. split; [apply keys_add_all|].
  unfold total_count. f_equal.
  rewrite <- (length_fmap unique_key (add_all batch cls)).
  apply Permutation_length, NoDup_Permutation.
  - unfold unique_index in Hu'. by rewrite map_unique_key_fmap in Hu'.
  - apply NoDup_remove_dups.
  - intros k. rewrite elem_of_remove_dups, keys_add_all, fmap_app, elem_of_app. done.
Qed.

(** ** Where the data start *)

(** The months without data are exactly those up to February 2023: the day
    of the month plays no part, and a date before one without data is
    without data too. *)
Theorem missing_data_is_a_threshold d :
  (is_missing_subscriptions_data d = true
   ↔ year d < 2023 ∨ (year d = 2023 ∧ month d <= 2))
  ∧ ∀ earlier, date_leb earlier d = true →
      is_missing_subscriptions_data d = true →
      is_missing_subscriptions_data earlier = true.
Proof.
  assert (Hiff : ∀ x, is_missing_subscriptions_data x = true
                      ↔ year x < 2023 ∨ (year x = 2023 ∧ month x <= 2)).
  { intros [y m dd]. unfold is_missing_subscriptions_data, date_ltb, month_range,
      LEGACY_PLANS_DELETED_ON. cbn [year month day].
    destruct (Z.ltb_spec y 2023), (Z.eqb_spec y 2023), (Z.ltb_spec m 2),
      (Z.eqb_spec m 2), (Z.ltb_spec dd 24); cbn [orb andb];
      try case_bool_decide; split; try done; try lia; intros _.
    all: try (exfalso; match goal with H : _ ≠ _ |- _ => apply H end;
              subst; reflexivity).
    all: match goal with H : _ = _ |- _ => injection H; lia | _ => idtac end. }
  split; [apply Hiff|]. intros e Hle Hd. apply Hiff. apply Hiff in Hd.
  unfold date_leb, date_ltb in Hle. apply orb_true_iff in Hle as [Hlt|Heq].
  - destruct (Z.ltb_spec (year e) (year d)), (Z.eqb_spec (year e) (year d)),
      (Z.ltb_spec (month e) (month d)); cbn [orb andb] in Hlt; try lia; try done.
  - apply bool_decide_eq_true in Heq. by subst.
Qed.

(** ** The active members *)

Lemma length_filter_le {A} (P : A → Prop) `{!∀ x, Decision (P x)} (l : list A) :
  (length (filter P l) ≤ length l)%nat.
Proof.
  induction l as [|x l IH]; [done|]. rewrite filter_cons.
  destruct (decide (P x)); simpl; lia.
Qed.

Lemma length_filter_impl {A} (P Q : A → Prop) `{!∀ x, Decision (P x)}
    `{!∀ x, Decision (Q x)} (l : list A) :
  (∀ x, P x → Q x) → (length (filter P l) ≤ length (filter Q l))%nat.
Proof.
  intros Himp. induction l as [|x l IH]; [done|]. rewrite !filter_cons.
  destruct (decide (P x)) as [Hp|Hp], (decide (Q x)) as [Hq|Hq]; simpl; try lia.
  exfalso. by apply Hq, Himp.
Qed.

(** The counts of women, of individual subscriptions and of yearly individual
    subscriptions never exceed [active_count], and the yearly ones never
    exceed the individual ones. *)
Theorem active_counts_ordered cls d :
  0 <= active_women_count cls d <= active_count cls d
  ∧ (∀ n, active_individuals_count cls d = inr (VInt n) →
       0 <= n <= active_count cls d)
  ∧ (∀ n m, active_individuals_count cls d = inr (VInt n) →
       active_individuals_yearly_count cls d = inr (VInt m) →
       0 <= m <= n).
Proof.
  unfold active_women_count, active_count, active_individuals_count,
    active_individuals_yearly_count, uses_data_from_subscriptions.
  split_and!.
  - lia.
  - apply inj_le, length_filter_le.
  - destruct (is_missing_subscriptions_data d); [done|]. intros n [= <-].
    split; [lia|]. apply inj_le, length_filter_le.
  - destruct (is_missing_subscriptions_data d); [done|]. intros n m [= <-] [= <-].
    split; [lia|]. apply inj_le, length_filter_impl. tauto.
Qed.

(** *** The breakdown *)

Definition total (kv : list (string * Z)) : Z := foldr Z.add 0 kv.*2.

Lemma count_of_cons key r cls :
  count_of key (r :: cls)
  = (if decide (subscription_type r = key) then 1 else 0) + count_of key cls.
Proof.
  unfold count_of. rewrite filter_cons.
  destruct (decide (subscription_type r = key)); simpl length; lia.
Qed.

Lemma breakdown_total (active : Table) :
  None ∉ map subscription_type active →
  total (map (fun t => (SubscriptionType_value t, count_of (Some t) active))
             SubscriptionType_members)
  = Z.of_nat (length active).
Proof.
  unfold total. simpl. induction active as [|r active IH]; intros Hn; [done|].
  rewrite !count_of_cons. simpl in Hn.
  apply not_elem_of_cons in Hn as [Hr Hn]. specialize (IH Hn).
  simpl length. destruct (subscription_type r) as [[]|]; [..|done];
    repeat (destruct (decide _) as [?|?]; try discriminate; try congruence);
    lia.
Qed.

(** When the breakdown returns past the legacy cutoff, it has one entry for
    each subscription type, in the order of the enum; the entries add up to
    [active_count]; and the entry of individual subscriptions is
    [active_individuals_count]. *)
Theorem breakdown_accounts_for_everyone cls d kv :
  is_missing_subscriptions_data d = false →
  active_subscription_type_breakdown cls d = inr (VDict kv) →
  kv.*1 = ["free"; "finaid"; "individual"; "trial"; "partner"; "student"]
  ∧ total kv = active_count cls d
  ∧ ∀ n, ("individual", n) ∈ kv → active_individuals_count cls d = inr (VInt n).
Proof.
  unfold active_subscription_type_breakdown, active_individuals_count,
    uses_data_from_subscriptions. intros ->.
  destruct (bool_decide_reflect (None ∈ map subscription_type (active_listing cls d)))
    as [Hn|Hn]; [done|].
  intros [= <-]. split; [done|]. split; [by apply breakdown_total|].
  intros n Hin. simpl in Hin.
  repeat (apply elem_of_cons in Hin as [Hin|Hin]; [try discriminate|]).
  - injection Hin as ->. done.
  - by apply elem_of_nil in Hin.
Qed.

(** ** The listing *)

Definition account_and_time (r : SubscriptionActivity) : string * Z :=
  (account_id r, happened_at r).

(** No account has two activities at the same point in time. *)
Definition distinct_timestamps (cls : Table) : Prop :=
  NoDup (account_and_time <$> cls).

Lemma NoDup_fmap_inj_on {A B} (g : A → B) (l : list A) x y :
  NoDup (g <$> l) → x ∈ l → y ∈ l → g x = g y → x = y.
Proof.
  induction l as [|a l IH]; intros Hnd Hx Hy Hg; [by apply elem_of_nil in Hx|].
  rewrite fmap_cons in Hnd. apply NoDup_cons in Hnd as [Ha Hnd].
  apply elem_of_cons in Hx as [->|Hx], Hy as [->|Hy]; [done| | |by apply IH].
  - exfalso. apply Ha. rewrite Hg. by apply list_elem_of_fmap_2.
  - exfalso. apply Ha. rewrite <- Hg. by apply list_elem_of_fmap_2.
Qed.

Lemma NoDup_fmap_filter {A B C} (f : A → B) (g : A → C) (P : A → Prop)
    `{!∀ x, Decision (P x)} (l : list A) :
  NoDup (g <$> l) →
  (∀ x y, x ∈ l → y ∈ l → P x → P y → f x = f y → g x = g y) →
  NoDup (f <$> filter P l).
Proof.
  induction l as [|a l IH]; intros Hnd Hfg; [constructor|].
  rewrite fmap_cons in Hnd. apply NoDup_cons in Hnd as [Ha Hnd].
  assert (NoDup (f <$> filter P l)) as IH'.
  { apply IH; [done|]. intros x y Hx Hy. apply Hfg; by right. }
  rewrite filter_cons. destruct (decide (P a)) as [Hp|Hp]; [|done].
  rewrite fmap_cons. apply NoDup_cons. split; [|done].
  intros Hin. apply list_elem_of_fmap in Hin as (y & Hfy & Hy).
  apply list_elem_of_filter in Hy as [Hpy Hy].
  apply Ha. rewrite (Hfg a y); [by apply list_elem_of_fmap_2|by left|by right|done..].
Qed.

(** When no account has two activities at the same point in time, the
    listing at a date holds one row for each account seen up to that date:
    its latest activity up to that date. *)
Theorem listing_one_row_per_account cls d :
  distinct_timestamps cls →
  NoDup (account_id <$> listing cls d)
  ∧ (∀ r, r ∈ listing cls d →
       r ∈ cls ∧ date_leb (happened_on r) d = true
       ∧ ∀ r', r' ∈ cls → account_id r' = account_id r →
           date_leb (happened_on r') d = true → happened_at r' <= happened_at r)
  ∧ (∀ r, r ∈ cls → date_leb (happened_on r) d = true →
       account_id r ∈ account_id <$> listing cls d).
Proof.
  intros Hd. split_and!.
  - unfold listing. apply (NoDup_fmap_filter _ account_and_time); [done|].
    intros x y _ _ Hx Hy Ha. unfold account_and_time. rewrite Ha in Hx.
    rewrite Hx in Hy. injection Hy as ->. by rewrite Ha.
  - intros r Hr. apply list_elem_of_filter in Hr as [Hl Hr]. split; [done|].
    destruct (latest_at_Some _ _ _ _ Hl) as [(r0 & Hr0 & Ha0 & Hd0 & Hat0) Hmax].
    assert (r0 = r) as <-; [|done].
    apply (NoDup_fmap_inj_on account_and_time cls); [done..|].
    unfold account_and_time. by rewrite Ha0, Hat0.
  - intros r Hr Hon.
    destruct (latest_at_is_Some cls d r Hr Hon) as [m Hm].
    destruct (latest_at_Some _ _ _ _ Hm) as [(r0 & Hr0 & Ha0 & Hd0 & Hat0) _].
    rewrite <- Ha0. apply list_elem_of_fmap_2.
    apply list_elem_of_filter. split; [|done]. by rewrite Ha0, Hat0.
Qed.

Lemma latest_at_app_later cls later d account :
  (∀ r, r ∈ later → date_leb (happened_on r) d = false) →
  latest_at (cls ++ later) d account = latest_at cls d account.
Proof.
  intros Hl. unfold latest_at. rewrite foldr_app. f_equal.
  induction later as [|x later IH]; [done|]. simpl.
  rewrite (Hl x) by (by left). rewrite andb_false_r. apply IH.
  intros r Hr. apply Hl. by right.
Qed.

Lemma filter_none {A} (P : A → Prop) `{!∀ x, Decision (P x)} (l : list A) :
  (∀ x, x ∈ l → ¬ P x) → filter P l = [].
Proof.
  induction l as [|a l IH]; intros Hn; [done|].
  rewrite filter_cons_False; [|apply Hn; by left].
  apply IH. intros x Hx. apply Hn. by right.
Qed.

Lemma listing_app_later cls later d :
  (∀ r, r ∈ later → date_leb (happened_on r) d = false) →
  (∀ r r', r ∈ later → r' ∈ cls → account_id r' = account_id r →
     date_leb (happened_on r') d = true → happened_at r' < happened_at r) →
  listing (cls ++ later) d = listing cls d.
Proof.
  intros Hl Hat. unfold listing. rewrite filter_app.
  assert (filter (λ r, latest_at (cls ++ later) d (account_id r) = Some (happened_at r))
            later = []) as ->.
  { apply filter_none. intros r Hr Hlatest.
    rewrite latest_at_app_later in Hlatest by done.
    destruct (latest_at_Some _ _ _ _ Hlatest) as [(r0 & Hr0 & Ha0 & Hd0 & Hat0) _].
    specialize (Hat r r0 Hr Hr0 Ha0 Hd0). lia. }
  rewrite app_nil_r. apply list_filter_iff. intros r.
  by rewrite latest_at_app_later.
Qed.

(** Recording an activity that is new, dated after [d] and later in time
    than what the account did up to [d], changes nothing in the listing
    at [d], nor in the counts read from it. *)
Theorem history_is_stable kwargs cls d :
  stored (unique_key kwargs) cls = None →
  date_leb (happened_on kwargs) d = false →
  (∀ r, r ∈ cls → account_id r = account_id kwargs →
     date_leb (happened_on r) d = true → happened_at r < happened_at kwargs) →
  listing (add kwargs cls) d = listing cls d
  ∧ active_count (add kwargs cls) d = active_count cls d
  ∧ active_women_count (add kwargs cls) d = active_women_count cls d.
Proof.
  intros Hs Hon Hat.
  assert (add kwargs cls = cls ++ [kwargs]) as ->.
  { apply add_insert. destruct (existsb (conflicts kwargs) cls) eqn:He; [|done].
    apply existsb_conflicts_stored in He as [r Hr]. congruence. }
  assert (listing (cls ++ [kwargs]) d = listing cls d) as Hl.
  { apply listing_app_later.
    - intros r Hr. apply list_elem_of_singleton in Hr as ->. done.
    - intros r r' Hr. apply list_elem_of_singleton in Hr as ->. apply Hat. }
  unfold active_count, active_women_count, active_listing. by rewrite Hl.
Qed.

(** ** What the trial reconciliation leaves alone *)

Section MarkTrialsFrame.
Variable pick : SubscriptionActivity -> new_subscription_type ->
                list new_subscription_type -> new_subscription_type.
Hypothesis pick_elem : ∀ r c cs, pick r c cs ∈ c :: cs.
Variable cls : Table.

(** An order of the account placed on a day one of its trials ended. *)
Definition closing_order (account : string) (o : SubscriptionActivity) : Prop :=
  o ∈ cls ∧ account_id o = account ∧ type o = ORDER
  ∧ ∃ e, e ∈ cls ∧ account_id e = account ∧ type e = TRIAL_END
         ∧ happened_on e = happened_on o.

Lemma pass1_row_cases r :
  pass1_row pick cls r = r
  ∨ ∃ o, closing_order (account_id r) o
         ∧ pass1_row pick cls r = set_subscription_type (subscription_type o) r.
Proof.
  unfold pass1_row.
  destruct (filter _ _) as [|c cs] eqn:Hf; [by left|]. right.
  pose proof (pick_elem r c cs) as Hp. rewrite <- Hf in Hp.
  apply list_elem_of_filter in Hp as [Hm Hp].
  apply elem_of_new_subscription_types in Hp
    as (o & also & Ho & Halso & Ha & Hon & Hto & Hta & Hc).
  rewrite Hc in Hm |- *. unfold pass1_matches in Hm. simpl in Hm |- *.
  apply andb_prop_elim in Hm as [Hacc _]. apply bool_decide_unpack in Hacc.
  exists o. split; [|done]. split; [done|]. split; [done|]. split; [done|].
  exists also. split; [done|]. split; [congruence|]. done.
Qed.

Lemma to_update_trial_end (t : Table) r :
  to_update t r = true →
  ∃ e, e ∈ t ∧ account_id e = account_id r ∧ type e = TRIAL_END.
Proof.
  unfold to_update. intros H. apply existsb_exists in H as (e & He & Hc).
  apply list_elem_of_In in He.
  apply andb_prop in Hc as [Hc _]. apply andb_prop in Hc as [Hc _].
  apply andb_prop in Hc as [Ha Ht].
  apply bool_decide_eq_true in Ha, Ht. by exists e.
Qed.

(** [mark_trials] keeps the rows and their order, and changes no column but
    the subscription type. A row of an account that has no trial end is
    left as it is. A subscription type that is written is [trial], or the
    type of an order of the same account placed on a day one of its trials
    ended. *)
Theorem mark_trials_frame :
  length (mark_trials pick cls) = length cls
  ∧ ∀ i r, cls !! i = Some r →
      ∃ r', mark_trials pick cls !! i = Some r'
            ∧ r' = set_subscription_type (subscription_type r') r
            ∧ ((∀ e, e ∈ cls → account_id e = account_id r → type e ≠ TRIAL_END) →
                 r' = r)
            ∧ (subscription_type r' = subscription_type r
               ∨ subscription_type r' = Some TRIAL
               ∨ ∃ o, closing_order (account_id r) o
                      ∧ subscription_type r' = subscription_type o).
Proof.
  split.
  { unfold mark_trials, pass2, pass1. by rewrite !length_map. }
  intros i r Hi. unfold mark_trials, pass2.
  change (map ?f ?l) with (f <$> l).
  rewrite list_lookup_fmap, pass1_map, list_lookup_fmap, Hi. simpl.
  eexists. split; [reflexivity|].
  destruct (pass1_row_fields pick cls r) as (Ht1 & Ha1 & Hon1).
  destruct (to_update (pass1_row pick cls <$> cls) (pass1_row pick cls r)) eqn:Hu.
  - apply to_update_trial_end in Hu as (e & He & Hae & Hte).
    apply list_elem_of_fmap in He as (x & -> & Hx).
    destruct (pass1_row_fields pick cls x) as (Htx & Hax & _).
    split_and!.
    + destruct (pass1_row_cases r) as [->|(o & _ & ->)]; by destruct r.
    + intros Hno. exfalso. apply (Hno x Hx); congruence.
    + right. by left.
  - destruct (pass1_row_cases r) as [->|(o & Ho & ->)].
    + split_and!; [by destruct r|done|by left].
    + split_and!; [by destruct r| |right; right; by exists o].
      intros Hno. exfalso. destruct Ho as (_ & _ & _ & e & He & Hae & Hte & _).
      by apply (Hno e He).
Qed.

End MarkTrialsFrame.

(** ** Signups *)

Lemma earliest_Some rows r :
  earliest rows = Some r →
  r ∈ rows ∧ ∀ r', r' ∈ rows → happened_at r <= happened_at r'.
Proof.
  revert r. induction rows as [|x rows IH]; intros r; [done|].
  simpl. destruct (earliest rows) as [m|] eqn:Hm.
  - destruct (IH m eq_refl) as [Hin Hmin].
    destruct (Z.leb_spec (happened_at x) (happened_at m)); intros [= <-].
    + split; [by left|]. intros r' Hr'. apply elem_of_cons in Hr' as [->|Hr']; [lia|].
      specialize (Hmin r' Hr'). lia.
    + split; [by right|]. intros r' Hr'. apply elem_of_cons in Hr' as [->|Hr']; [lia|].
      by apply Hmin.
  - intros [= <-]. split; [by left|]. intros r' Hr'.
    apply elem_of_cons in Hr' as [->|Hr']; [lia|].
    destruct rows as [|y rows]; [by apply elem_of_nil in Hr'|].
    simpl in Hm. destruct (earliest rows) as [m|]; [|done].
    by destruct (happened_at y <=? happened_at m)%Z.
Qed.

Lemma NoDup_fmap_omap {A B} (f : B → A) (F : A → option B) (l : list A) :
  NoDup l → (∀ a b, F a = Some b → f b = a) → NoDup (f <$> omap F l).
Proof.
  intros Hnd HF. induction Hnd as [|a l Ha Hnd IH]; [constructor|].
  simpl. destruct (F a) as [b|] eqn:Hb; [|done].
  rewrite fmap_cons. apply NoDup_cons. split; [|done].
  rewrite (HF a b Hb). intros Hin.
  apply list_elem_of_fmap in Hin as (y & Hy & Hin).
  apply list_elem_of_omap in Hin as (a' & Ha' & HFa').
  apply HF in HFa'. congruence.
Qed.

Lemma elem_of_List_filter {A} (p : A → bool) (l : list A) x :
  x ∈ List.filter p l ↔ x ∈ l ∧ p x = true.
Proof. rewrite !list_elem_of_In. apply filter_In. Qed.

(** [signups] holds at most one row for an account: the earliest of its
    activities up to the end of the month, when that one falls within the
    month. *)
Theorem signups_once_per_account cls d :
  NoDup (account_id <$> signups cls d)
  ∧ ∀ r, r ∈ signups cls d →
      r ∈ cls
      ∧ date_leb (month_range d).1 (happened_on r) = true
      ∧ date_leb (happened_on r) (month_range d).2 = true
      ∧ ∀ r', r' ∈ cls → account_id r' = account_id r →
          date_leb (happened_on r') (month_range d).2 = true →
          happened_at r <= happened_at r'.
Proof.
  unfold signups, signups_where.
  destruct (month_range d) as [from_date to_date]. simpl.
  set (rows := List.filter _ cls).
  assert (Hsel : ∀ account r,
    match earliest (List.filter (λ r, bool_decide (account_id r = account)) rows) with
    | Some r => if date_leb from_date (happened_on r) then Some r else None
    | None => None
    end = Some r →
    account_id r = account ∧ r ∈ rows
    ∧ date_leb from_date (happened_on r) = true
    ∧ ∀ r', r' ∈ rows → account_id r' = account → happened_at r <= happened_at r').
  { intros account r H.
    destruct (earliest _) as [m|] eqn:Hm; [|done].
    destruct (date_leb from_date (happened_on m)) eqn:Hfrom; [|done].
    injection H as <-. apply earliest_Some in Hm as [Hin Hmin].
    apply elem_of_List_filter in Hin as [Hin Ha]. apply bool_decide_eq_true in Ha.
    split_and!; try done. intros r' Hr' Ha'. apply Hmin.
    apply elem_of_List_filter. split; [done|]. by apply bool_decide_eq_true. }
  split.
  - apply NoDup_fmap_omap; [apply NoDup_remove_dups|].
    intros a b Hb. by destruct (Hsel a b Hb).
  - intros r Hr. apply list_elem_of_omap in Hr as (account & _ & Hr).
    destruct (Hsel account r Hr) as (Ha & Hin & Hfrom & Hmin).
    subst rows. apply elem_of_List_filter in Hin as [Hin Hto].
    rewrite andb_true_r in Hto. split_and!; try done.
    intros r' Hr' Ha' Hto'. apply Hmin; [|congruence].
    apply elem_of_List_filter. split; [done|]. by rewrite Hto'.
Qed.

(** ** Concrete ledgers *)

Definition mar (d : Z) : date := {| year := 2024; month := 3; day := d |}.

Definition entry (t : SubscriptionActivityType) (account : string) (d : date)
    (at_ : Z) (woman : bool) (st : option SubscriptionType) : SubscriptionActivity :=
  {| type := t; account_id := account; account_has_feminine_name := woman;
     happened_on := d; happened_at := at_; order_coupon := None;
     subscription_interval := Some YEAR; subscription_type := st |}.

(** Two members, one of whom left on March 20. *)
Definition small_ledger : Table :=
  [entry ORDER "ada" (mar 1) 10 true (Some INDIVIDUAL);
   entry ORDER "bob" (mar 2) 20 false (Some STUDENT);
   entry DEACTIVATION "bob" (mar 20) 200 false (Some STUDENT)].

Definition april_order : SubscriptionActivity :=
  entry ORDER "ada" {| year := 2024; month := 4; day := 1 |} 300 true (Some INDIVIDUAL).

Definition always_first (r : SubscriptionActivity) (c : new_subscription_type)
    (cs : list new_subscription_type) : new_subscription_type := c.

Lemma ledger_keys_witness :
  unique_index (add_all small_ledger [])
  ∧ total_count (add_all (small_ledger ++ small_ledger) small_ledger) = 3.
Proof.
  pose proof (ledger_keys small_ledger [] NoDup_nil_2) as (Hu & _ & _).
  split; [exact Hu|].
  destruct (ledger_keys (small_ledger ++ small_ledger) small_ledger) as (_ & _ & ->).
  - change small_ledger with (add_all small_ledger []) at 1. exact Hu.
  - vm_compute. reflexivity.
Defined.

Lemma breakdown_accounts_for_everyone_witness :
  ∃ kv, active_subscription_type_breakdown small_ledger (mar 10) = inr (VDict kv)
        ∧ total kv = active_count small_ledger (mar 10)
        ∧ active_count small_ledger (mar 10) = 2.
Proof.
  eexists. split; [vm_compute; reflexivity|]. split; [|vm_compute; reflexivity].
  apply (breakdown_accounts_for_everyone small_ledger (mar 10));
    vm_compute; reflexivity.
Defined.

Lemma listing_one_row_per_account_witness :
  NoDup (account_id <$> listing small_ledger (mar 31)).
Proof.
  apply (listing_one_row_per_account small_ledger (mar 31)).
  unfold distinct_timestamps. apply (bool_decide_unpack _). vm_compute. exact I.
Defined.

Lemma history_is_stable_witness :
  active_count (add april_order small_ledger) (mar 31) = active_count small_ledger (mar 31).
Proof.
  apply (history_is_stable april_order small_ledger (mar 31)).
  - vm_compute. reflexivity.
  - vm_compute. reflexivity.
  - intros r Hr Ha _. apply list_elem_of_In in Hr. simpl in Hr.
    destruct Hr as [<-|[<-|[<-|[]]]]; simpl; try lia; discriminate.
Defined.

Lemma mark_trials_frame_witness :
  length (mark_trials always_first small_ledger) = length small_ledger.
Proof.
  apply (mark_trials_frame always_first (fun r c cs => list_elem_of_here c cs)
           small_ledger).
Defined.

End LedgerFacts.
